(** * A search core over German media metadata: shallow embedding and checked properties

    The development follows the TypeScript sources module by module:
    - [lib/data/preprocess.ts]   ([normalizeGerman], [parseDate], restriction markers),
    - [lib/data/stopwords.ts]    ([GERMAN_STOPWORDS]),
    - [lib/search/tokenizer.ts]  ([tokenize]),
    - [lib/search/inverted-index.ts] (class [InvertedIndex]),
    - [lib/search/searcher.ts]   ([getIDF], [scoreTermInField], [search]),
    - [app/api/search/route.ts]  ([applyFilters], [sortByDate], the [GET] handler).

    JavaScript strings are sequences of UTF-16 code units; numbers that carry
    scores are IEEE-754 doubles; [Map] and [Set] iterate in insertion order;
    arrays may have holes.  Each of these is modelled as such below. *)

From Stdlib Require Import Strings.String Strings.Ascii.
From Stdlib Require Import List ZArith NArith Lia Bool Arith.
From Stdlib Require Import Floats.
From Stdlib Require Import Sorting.Sorted Sorting.Permutation.
Import ListNotations.

Set Implicit Arguments.

(* ================================================================= *)
(** ** JavaScript strings *)

(** A string is the list of its UTF-16 code units; [length] is the JS
    [.length]. *)
Definition jsstring := list N.

(** Literals: an ASCII Rocq string read as code units. *)
Definition u (s : string) : jsstring :=
  map N_of_ascii (list_ascii_of_string s).

Definition str_eqb (a b : jsstring) : bool :=
  if list_eq_dec N.eq_dec a b then true else false.

(** [a < b] on strings: lexicographic on code units, a proper prefix first. *)
Fixpoint str_ltb (a b : jsstring) : bool :=
  match a, b with
  | [], [] => false
  | [], _ :: _ => true
  | _ :: _, [] => false
  | x :: a', y :: b' =>
      if N.ltb x y then true
      else if N.eqb x y then str_ltb a' b'
      else false
  end.

(** [a <= b], i.e. the negation of [b < a] as the filters write it. *)
Definition str_leb (a b : jsstring) : bool := negb (str_ltb b a).

(** Three-way comparison by code units: the order of [Array.prototype.sort]
    without a comparator. *)
Definition codeUnitCompare (a b : jsstring) : Z :=
  if str_ltb a b then (-1)%Z else if str_ltb b a then 1%Z else 0%Z.

(** [s.startsWith(p)] *)
Fixpoint startsWith (p s : jsstring) : bool :=
  match p, s with
  | [], _ => true
  | _ :: _, [] => false
  | x :: p', y :: s' => N.eqb x y && startsWith p' s'
  end.

(** [arr.includes(x)] on an array of strings. *)
Definition includes (x : jsstring) (l : list jsstring) : bool :=
  existsb (str_eqb x) l.

(** [s.includes(c)] for a one-unit needle. *)
Definition includesUnit (c : N) (s : jsstring) : bool :=
  existsb (N.eqb c) s.

(** Truthiness of a string. *)
Definition nonEmpty (s : jsstring) : bool :=
  match s with [] => false | _ :: _ => true end.

(** Truthiness of [string | null]. *)
Definition truthy (s : option jsstring) : bool :=
  match s with Some (_ :: _) => true | _ => false end.

(** White space and line terminators: the class [\s] and what [trim] strips. *)
Definition isWhiteSpace (c : N) : bool :=
  (((9 <=? c) && (c <=? 13)) || (c =? 32) || (c =? 160) || (c =? 5760)
   || ((8192 <=? c) && (c <=? 8202)) || (c =? 8232) || (c =? 8233)
   || (c =? 8239) || (c =? 8287) || (c =? 12288) || (c =? 65279))%N.

Fixpoint trimStart (s : jsstring) : jsstring :=
  match s with
  | c :: s' => if isWhiteSpace c then trimStart s' else s
  | [] => []
  end.

Definition trimEnd (s : jsstring) : jsstring := rev (trimStart (rev s)).

Definition trim (s : jsstring) : jsstring := trimEnd (trimStart s).

(** [s.padStart(n, c)] with a one-unit filler. *)
Definition padStart (n : nat) (c : N) (s : jsstring) : jsstring :=
  repeat c (n - length s) ++ s.

(** [s.replace(/c/g, r)] for a one-unit pattern. *)
Definition replaceUnit (c : N) (r : jsstring) (s : jsstring) : jsstring :=
  flat_map (fun x => if N.eqb x c then r else [x]) s.

(** [s.split(c)] for a one-unit separator: the pieces between separators,
    empty pieces included. *)
Fixpoint splitUnit (c : N) (s : jsstring) : list jsstring :=
  match s with
  | [] => [[]]
  | x :: s' =>
      if N.eqb x c then [] :: splitUnit c s'
      else match splitUnit c s' with
           | w :: ws => (x :: w) :: ws
           | [] => [[x]]
           end
  end.

(** [s.split(/[class]+/)]: the pieces between maximal runs of separator
    units; a leading or trailing run leaves an empty piece. *)
Fixpoint splitRuns (sep : N -> bool) (cur : jsstring) (inRun : bool)
    (s : jsstring) : list jsstring :=
  match s with
  | [] => [rev cur]
  | x :: s' =>
      if sep x
      then if inRun then splitRuns sep [] true s'
           else rev cur :: splitRuns sep [] true s'
      else splitRuns sep (x :: cur) false s'
  end.

(** [s.toLowerCase()].  The mapping is written out for Basic Latin, the
    Latin-1 Supplement and U+1E9E (capital sharp s), which is the alphabet
    of the corpus; every other code unit is left as it is. *)
Definition lowerUnit (c : N) : N :=
  (if (65 <=? c) && (c <=? 90) then c + 32
   else if (192 <=? c) && (c <=? 222) && negb (c =? 215) then c + 32
   else if c =? 7838 then 223
   else c)%N.

Definition toLowerCase (s : jsstring) : jsstring := map lowerUnit s.

(* ================================================================= *)
(** ** A matcher for the anchored patterns of [parseDate]

    The three patterns are sequences of quantified character classes
    between [^] and [$].  A piece is a class with its bounds; matching is
    greedy with backtracking, as in the host's engine. *)

Record piece : Type := mkPiece {
  cls : N -> bool;
  rmin : nat;
  rmax : nat;
  capture : bool
}.

Fixpoint tryCount (p : piece) (k : jsstring -> option (list jsstring))
    (s : jsstring) (n : nat) : option (list jsstring) :=
  let here :=
    if (rmin p <=? n)%nat && (n <=? length s)%nat && forallb (cls p) (firstn n s)
    then match k (skipn n s) with
         | Some caps => Some (if capture p then firstn n s :: caps else caps)
         | None => None
         end
    else None in
  match here with
  | Some r => Some r
  | None => match n with
            | O => None
            | S n' => tryCount p k s n'
            end
  end.

(** [matchAnchored ps s] is [s.match(/^...$/)]: the captured groups, or
    [None] for [null]. *)
Fixpoint matchAnchored (ps : list piece) (s : jsstring)
    : option (list jsstring) :=
  match ps with
  | [] => match s with [] => Some [] | _ :: _ => None end
  | p :: ps' => tryCount p (matchAnchored ps') s (rmax p)
  end.

Definition isDigit (c : N) : bool := ((48 <=? c) && (c <=? 57))%N.

Definition digits (lo hi : nat) (cap : bool) : piece :=
  mkPiece isDigit lo hi cap.

Definition lit (c : N) : piece := mkPiece (N.eqb c) 1 1 false.

Definition DOT : N := 46%N.
Definition SLASH : N := 47%N.
Definition HYPHEN : N := 45%N.
Definition ZERO : N := 48%N.

(** [/^(\d{1,2})\.(\d{1,2})\.(\d{4})$/] and its slash variant. *)
Definition dmyPattern (sep : N) : list piece :=
  [digits 1 2 true; lit sep; digits 1 2 true; lit sep; digits 4 4 true].

(** [/^\d{4}-\d{2}-\d{2}$/] *)
Definition isoPattern : list piece :=
  [digits 4 4 false; lit HYPHEN; digits 2 2 false; lit HYPHEN; digits 2 2 false].

(* ================================================================= *)
(** ** lib/data/preprocess.ts *)

Definition A_UML : N := 228%N.
Definition O_UML : N := 246%N.
Definition U_UML : N := 252%N.
Definition SHARP_S : N := 223%N.

Definition umlautFold (s : jsstring) : jsstring :=
  replaceUnit SHARP_S (u "ss")
    (replaceUnit U_UML (u "ue")
      (replaceUnit O_UML (u "oe")
        (replaceUnit A_UML (u "ae") s))).

Definition normalizeGerman (text : jsstring) : jsstring :=
  umlautFold (toLowerCase text).

Definition isoOf (day month year : jsstring) : jsstring :=
  year ++ [HYPHEN] ++ padStart 2 ZERO month ++ [HYPHEN] ++ padStart 2 ZERO day.

Definition parseDate (dateStr : jsstring) : option jsstring :=
  if negb (nonEmpty dateStr) then None
  else
    let trimmed := trim dateStr in
    match matchAnchored (dmyPattern DOT) trimmed with
    | Some [day; month; year] => Some (isoOf day month year)
    | _ =>
      match matchAnchored (dmyPattern SLASH) trimmed with
      | Some [day; month; year] => Some (isoOf day month year)
      | _ =>
        match matchAnchored isoPattern trimmed with
        | Some _ => Some trimmed
        | None => None
        end
      end
    end.

(* ================================================================= *)
(** ** lib/data/stopwords.ts *)

Definition MINIMAL_STOPWORDS : list jsstring :=
  map u
    [ "der"; "die"; "das"; "den"; "dem"; "des";
      "ein"; "eine"; "einer"; "einem"; "einen"; "eines";
      "in"; "im"; "an"; "am"; "auf"; "aus"; "bei"; "mit"; "nach"; "von";
      "vor"; "zu"; "zum"; "zur";
      "durch"; "fuer"; "gegen"; "ohne"; "um"; "unter"; "ueber";
      "und"; "oder"; "aber"; "denn"; "weil"; "wenn"; "als"; "ob"; "dass";
      "ich"; "du"; "er"; "sie"; "es"; "wir"; "ihr";
      "mein"; "dein"; "sein"; "ihr"; "unser"; "euer";
      "dieser"; "diese"; "dieses"; "jener"; "jene"; "jenes";
      "welcher"; "welche"; "welches";
      "ist"; "sind"; "war"; "waren"; "wird"; "werden"; "hat"; "haben";
      "hatte"; "hatten";
      "kann"; "koennen"; "muss"; "muessen"; "soll"; "sollen"; "will"; "wollen";
      "nicht"; "auch"; "nur"; "noch"; "schon"; "sehr"; "so"; "wie"; "was"; "wer";
      "hier"; "dort"; "dann"; "daher"; "dabei"; "dazu";
      "imago" ]%string.

(** The set is only ever asked for membership, so it is kept as the list
    of the values it was built from. *)
Definition GERMAN_STOPWORDS : list jsstring :=
  MINIMAL_STOPWORDS ++ map umlautFold MINIMAL_STOPWORDS.

(* ================================================================= *)
(** ** lib/search/tokenizer.ts *)

(** The separator class of the split: white space, comma, full stop,
    semicolon, colon, exclamation and question mark, both quotes, and the
    round, square and curly brackets. *)
Definition isSeparator (c : N) : bool :=
  isWhiteSpace c
  || existsb (N.eqb c) [44; 46; 59; 58; 33; 63; 34; 39; 40; 41; 91; 93; 123; 125]%N.

(** The body of the loop over [words]: what one word pushes. *)
Definition wordTokens (word : jsstring) : list jsstring :=
  if includesUnit HYPHEN word then
    let parts := filter (fun p => (2 <=? length p)%nat) (splitUnit HYPHEN word) in
    if (2 <=? length parts)%nat then
      (if (2 <=? length word)%nat then [word] else []) ++ parts
    else
      if (2 <=? length word)%nat then [replaceUnit HYPHEN [] word] else []
  else
    if (2 <=? length word)%nat then [word] else [].

Definition tokenize (text : jsstring) : list jsstring :=
  if negb (nonEmpty text) then []
  else
    let normalized := normalizeGerman text in
    let words := filter nonEmpty (splitRuns isSeparator [] false normalized) in
    let tokens := flat_map wordTokens words in
    filter (fun token => negb (includes token GERMAN_STOPWORDS)) tokens.

(* ================================================================= *)
(** ** Host containers *)

(** [Map<K, V>]: entries in insertion order; [set] on a present key keeps
    the entry in its place. *)
Section JsMap.
Variables (K V : Type) (keq : K -> K -> bool).

Definition jsmap := list (K * V).

Fixpoint map_get (k : K) (m : jsmap) : option V :=
  match m with
  | [] => None
  | (k', v) :: m' => if keq k k' then Some v else map_get k m'
  end.

Fixpoint map_set (k : K) (v : V) (m : jsmap) : jsmap :=
  match m with
  | [] => [(k, v)]
  | (k', v') :: m' =>
      if keq k k' then (k', v) :: m' else (k', v') :: map_set k v m'
  end.

Definition map_keys (m : jsmap) : list K := map fst m.
Definition map_values (m : jsmap) : list V := map snd m.
End JsMap.

(** [Set<string>]: values in insertion order, each once. *)
Definition set_add (x : jsstring) (s : list jsstring) : list jsstring :=
  if includes x s then s else s ++ [x].

(** Arrays may have holes: [None] is an index that was never written. *)
Section JsArray.
Variables A B : Type.

Definition jsarray := list (option A).

(** [a[i] = x]; writing past the end extends the array with holes. *)
Fixpoint arr_set (i : nat) (x : A) (a : jsarray) : jsarray :=
  match i, a with
  | O, [] => [Some x]
  | O, _ :: a' => Some x :: a'
  | S i', [] => None :: arr_set i' x []
  | S i', y :: a' => y :: arr_set i' x a'
  end.

(** [a[i]], [None] for [undefined]. *)
Definition arr_get (i : nat) (a : jsarray) : option A :=
  match nth_error a i with
  | Some (Some x) => Some x
  | _ => None
  end.

(** The elements that are present, in index order; what [filter] and
    [forEach] visit. *)
Definition arr_dense (a : jsarray) : list A :=
  flat_map (fun o => match o with Some x => [x] | None => [] end) a.
End JsArray.

(** [a.map((x, i) => f x i)]: holes stay holes, indices are positions. *)
Fixpoint arr_mapi_from (A B : Type) (f : A -> nat -> B) (i : nat)
    (a : jsarray A) : jsarray B :=
  match a with
  | [] => []
  | o :: a' =>
      match o with Some x => Some (f x i) | None => None end
      :: arr_mapi_from f (S i) a'
  end.

Definition arr_mapi (A B : Type) (f : A -> nat -> B) (a : jsarray A)
  : jsarray B := arr_mapi_from f 0 a.

(** [Array.prototype.sort(cmp)]: stable; an element moves behind another
    only when the comparator is positive on the pair.  For a comparator
    that is a consistent ordering this is the result of every conforming
    engine. *)
Section JsSort.
Variable A : Type.
Variable cmp : A -> A -> Z.

Fixpoint sort_insert (x : A) (l : list A) : list A :=
  match l with
  | [] => [x]
  | y :: l' => if (0 <? cmp x y)%Z then y :: sort_insert x l' else x :: l
  end.

Fixpoint js_sort (l : list A) : list A :=
  match l with
  | [] => []
  | x :: l' => sort_insert x (js_sort l')
  end.
End JsSort.

(* ================================================================= *)
(** ** lib/data/types.ts and lib/search/types.ts *)

Record ProcessedMediaItem : Type := mkItem {
  bildnummer : jsstring;
  suchtext : jsstring;
  fotografen : jsstring;
  datum : jsstring;
  hoehe : Z;
  breite : Z;
  dateISO : jsstring;
  searchableText : jsstring;
  restrictions : list jsstring;
  photographerNormalized : jsstring
}.

Record Posting : Type := mkPosting {
  p_docId : nat;
  termFrequency : nat
}.

Record FieldIndex : Type := mkFieldIndex {
  termPostings : jsmap jsstring (list Posting);
  docLengths : jsmap nat nat;
  totalDocs : nat;
  avgDocLength : float
}.

(** The three searchable fields, a closed set of names in the source. *)
Inductive Field : Type := F_suchtext | F_fotografen | F_bildnummer.

Definition field_eqb (f g : Field) : bool :=
  match f, g with
  | F_suchtext, F_suchtext | F_fotografen, F_fotografen
  | F_bildnummer, F_bildnummer => true
  | _, _ => false
  end.

Record SearchResult : Type := mkResult {
  docId : nat;
  item : ProcessedMediaItem;
  score : float;
  matchedTerms : list jsstring
}.

Record SearchConfig : Type := mkConfig {
  k1 : float;
  b : float;
  suchtextWeight : float;
  fotografenWeight : float;
  bildnummerWeight : float;
  minPrefixLength : Z;
  maxPrefixExpansion : Z;
  prefixPenalty : float
}.

Definition DEFAULT_SEARCH_CONFIG : SearchConfig :=
  mkConfig 1.2 0.75 3.0 1.5 1.0 3 50 0.8.

(** [Partial<SearchConfig>] and the spread that merges it over the defaults. *)
Record PartialSearchConfig : Type := mkPartial {
  o_k1 : option float;
  o_b : option float;
  o_suchtextWeight : option float;
  o_fotografenWeight : option float;
  o_bildnummerWeight : option float;
  o_minPrefixLength : option Z;
  o_maxPrefixExpansion : option Z;
  o_prefixPenalty : option float
}.

Definition orDefault (A : Type) (o : option A) (d : A) : A :=
  match o with Some x => x | None => d end.

Definition mergeConfig (config : option PartialSearchConfig) : SearchConfig :=
  match config with
  | None => DEFAULT_SEARCH_CONFIG
  | Some c =>
      let d := DEFAULT_SEARCH_CONFIG in
      mkConfig (orDefault (o_k1 c) (k1 d)) (orDefault (o_b c) (b d))
        (orDefault (o_suchtextWeight c) (suchtextWeight d))
        (orDefault (o_fotografenWeight c) (fotografenWeight d))
        (orDefault (o_bildnummerWeight c) (bildnummerWeight d))
        (orDefault (o_minPrefixLength c) (minPrefixLength d))
        (orDefault (o_maxPrefixExpansion c) (maxPrefixExpansion d))
        (orDefault (o_prefixPenalty c) (prefixPenalty d))
  end.

(** A count as a number. *)
Definition numberOfNat (n : nat) : float :=
  PrimFloat.of_uint63 (Uint63.of_Z (Z.of_nat n)).

(* ================================================================= *)
(** ** lib/search/inverted-index.ts *)

Record InvertedIndex : Type := mkIndex {
  suchtextIndex : FieldIndex;
  fotografenIndex : FieldIndex;
  bildnummerIndex : FieldIndex;
  documents : jsarray ProcessedMediaItem;
  photographers : list jsstring;
  restrictionSet : list jsstring;
  suchtextTermsSorted : list jsstring;
  fotografenTermsSorted : list jsstring;
  bildnummerTermsSorted : list jsstring
}.

Definition createEmptyFieldIndex : FieldIndex :=
  mkFieldIndex [] [] 0 0%float.

(** The constructor. *)
Definition newInvertedIndex : InvertedIndex :=
  mkIndex createEmptyFieldIndex createEmptyFieldIndex createEmptyFieldIndex
    [] [] [] [] [] [].

(** *** The restriction pattern: capitals, then one or more groups of an
    [x] and capitals.

    [markerScan] walks a candidate match.  [len] counts the units taken so
    far and [best] is the length of the longest complete match seen; an
    [x] is only kept when capitals follow it. *)
Definition isUpper (c : N) : bool := ((65 <=? c) && (c <=? 90))%N.
Definition LOWER_X : N := 120%N.
Definition SPACE : N := 32%N.

Inductive markerState : Type := FirstRun | AfterX | GroupRun.

Fixpoint markerScan (st : markerState) (s : jsstring) (len : nat)
    (best : option nat) : option nat :=
  match s with
  | [] => best
  | c :: s' =>
      match st with
      | FirstRun =>
          if isUpper c then markerScan FirstRun s' (S len) best
          else if N.eqb c LOWER_X then markerScan AfterX s' (S len) best
          else best
      | AfterX =>
          if isUpper c then markerScan GroupRun s' (S len) (Some (S len))
          else best
      | GroupRun =>
          if isUpper c then markerScan GroupRun s' (S len) (Some (S len))
          else if N.eqb c LOWER_X then markerScan AfterX s' (S len) best
          else best
      end
  end.

(** The length of the match that starts at the head of [s], if any. *)
Definition markerLength (s : jsstring) : option nat :=
  match s with
  | c :: s' => if isUpper c then markerScan FirstRun s' 1 None else None
  | [] => None
  end.

(** [s.replace(RESTRICTION, ' ')] with the global flag; [skip] is what is
    left of the match being passed over. *)
Fixpoint replaceMarkers (skip : nat) (s : jsstring) : jsstring :=
  match s with
  | [] => []
  | c :: s' =>
      match skip with
      | S k => replaceMarkers k s'
      | O =>
          match markerLength s with
          | Some n => SPACE :: replaceMarkers (n - 1) s'
          | None => c :: replaceMarkers 0 s'
          end
      end
  end.

(** [s.replace(/\s+/g, ' ')] *)
Fixpoint collapseSpaces (inRun : bool) (s : jsstring) : jsstring :=
  match s with
  | [] => []
  | c :: s' =>
      if isWhiteSpace c
      then if inRun then collapseSpaces true s'
           else SPACE :: collapseSpaces true s'
      else c :: collapseSpaces false s'
  end.

Definition extractCleanSuchtext (text : jsstring) : jsstring :=
  if negb (nonEmpty text) then []
  else trim (collapseSpaces false (replaceMarkers 0 text)).

(** *** Indexing *)

Definition countTokens (tokens : list jsstring) : jsmap jsstring nat :=
  fold_left
    (fun termFreqs token =>
       map_set str_eqb token
         (orDefault (map_get str_eqb token termFreqs) 0 + 1) termFreqs)
    tokens [].

Definition indexTokens (index : FieldIndex) (id : nat)
    (tokens : list jsstring) : FieldIndex :=
  let termFreqs := countTokens tokens in
  let postings :=
    fold_left
      (fun tp (entry : jsstring * nat) =>
         let (term, freq) := entry in
         let posting := mkPosting id freq in
         match map_get str_eqb term tp with
         | Some existingPostings =>
             map_set str_eqb term (existingPostings ++ [posting]) tp
         | None => map_set str_eqb term [posting] tp
         end)
      termFreqs (termPostings index) in
  mkFieldIndex postings
    (map_set Nat.eqb id (length tokens) (docLengths index))
    (S (totalDocs index))
    (avgDocLength index).

Definition addDocument (id : nat) (doc : ProcessedMediaItem)
    (ix : InvertedIndex) : InvertedIndex :=
  let cleanSuchtext := extractCleanSuchtext (suchtext doc) in
  mkIndex
    (indexTokens (suchtextIndex ix) id (tokenize cleanSuchtext))
    (indexTokens (fotografenIndex ix) id (tokenize (fotografen doc)))
    (indexTokens (bildnummerIndex ix) id (tokenize (bildnummer doc)))
    (arr_set id doc (documents ix))
    (set_add (fotografen doc) (photographers ix))
    (fold_left (fun s r => set_add r s) (restrictions doc) (restrictionSet ix))
    (suchtextTermsSorted ix)
    (fotografenTermsSorted ix)
    (bildnummerTermsSorted ix).

(** The lengths are counts, so their sum is taken exactly before the one
    division. *)
Definition calculateAvgDocLength (index : FieldIndex) : float :=
  if (totalDocs index =? 0)%nat then 0%float
  else
    PrimFloat.div
      (numberOfNat (fold_left Nat.add (map_values (docLengths index)) 0%nat))
      (numberOfNat (totalDocs index)).

Definition withAvgDocLength (index : FieldIndex) : FieldIndex :=
  mkFieldIndex (termPostings index) (docLengths index) (totalDocs index)
    (calculateAvgDocLength index).

(** [Array.from(m.keys()).sort()]: the default order of [sort] compares
    strings by code units. *)
Definition sortedKeys (index : FieldIndex) : list jsstring :=
  js_sort codeUnitCompare (map_keys (termPostings index)).

Definition finalizeIndex (ix : InvertedIndex) : InvertedIndex :=
  mkIndex
    (withAvgDocLength (suchtextIndex ix))
    (withAvgDocLength (fotografenIndex ix))
    (withAvgDocLength (bildnummerIndex ix))
    (documents ix) (photographers ix) (restrictionSet ix)
    (sortedKeys (suchtextIndex ix))
    (sortedKeys (fotografenIndex ix))
    (sortedKeys (bildnummerIndex ix)).

Definition getFieldIndex (field : Field) (ix : InvertedIndex) : FieldIndex :=
  match field with
  | F_suchtext => suchtextIndex ix
  | F_fotografen => fotografenIndex ix
  | F_bildnummer => bildnummerIndex ix
  end.

Definition termsSorted (field : Field) (ix : InvertedIndex) : list jsstring :=
  match field with
  | F_suchtext => suchtextTermsSorted ix
  | F_fotografen => fotografenTermsSorted ix
  | F_bildnummer => bildnummerTermsSorted ix
  end.

Definition getDocument (id : nat) (ix : InvertedIndex)
  : option ProcessedMediaItem := arr_get id (documents ix).

Definition getAllDocuments (ix : InvertedIndex) : jsarray ProcessedMediaItem :=
  documents ix.

(** *** Prefix lookup *)

(** [(lo + hi) >>> 1]: the sum is taken modulo 2^32 before the shift. *)
Definition midpoint (lo hi : Z) : Z :=
  Z.shiftr ((lo + hi) mod 2 ^ 32) 1.

(** The binary search loop; every round with [lo < hi] uses one unit of
    [fuel], and [length terms] units are enough for it to finish (lemma
    [lowerBound_spec]). *)
Fixpoint lowerBound (fuel : nat) (terms : list jsstring) (prefix : jsstring)
    (lo hi : Z) : Z :=
  match fuel with
  | O => lo
  | S fuel' =>
      if (lo <? hi)%Z then
        let mid := midpoint lo hi in
        let below :=
          match nth_error terms (Z.to_nat mid) with
          | Some t => str_ltb t prefix
          | None => false
          end in
        if below then lowerBound fuel' terms prefix (mid + 1) hi
        else lowerBound fuel' terms prefix lo mid
      else lo
  end.

(** The collecting loop from index [lo] on, over what is left of [terms]. *)
Fixpoint collectPrefix (prefix : jsstring) (limit : Z) (rest : list jsstring)
    (matches : list jsstring) : list jsstring :=
  match rest with
  | [] => matches
  | t :: rest' =>
      if (Z.of_nat (length matches) <? limit)%Z then
        if startsWith prefix t
        then collectPrefix prefix limit rest' (matches ++ [t])
        else matches
      else matches
  end.

Definition getPrefixTerms (prefix : jsstring) (field : Field) (limit : Z)
    (ix : InvertedIndex) : list jsstring :=
  let terms := termsSorted field ix in
  if (length terms =? 0)%nat || negb (nonEmpty prefix) then []
  else
    let lo := lowerBound (length terms) terms prefix 0 (Z.of_nat (length terms)) in
    collectPrefix prefix limit (skipn (Z.to_nat lo) terms) [].

(** *** lib/search/index.ts: the index over a corpus *)

Fixpoint addAll (id : nat) (corpus : list ProcessedMediaItem)
    (ix : InvertedIndex) : InvertedIndex :=
  match corpus with
  | [] => ix
  | doc :: corpus' => addAll (S id) corpus' (addDocument id doc ix)
  end.

Definition buildIndex (mediaItems : list ProcessedMediaItem) : InvertedIndex :=
  finalizeIndex (addAll 0 mediaItems newInvertedIndex).

(* ================================================================= *)
(** ** lib/search/searcher.ts *)

(** Modelled from the spec: [computeIDF] and [computeTermScore] are the two
    functions of [lib/search/bm25.ts], which is not among the sources.  They
    are taken as parameters, with the arguments section 4.7 of the
    specification gives them; nothing below depends on the numbers they
    return.  [localeCompare] is the host's string collation, a parameter as
    well. *)
Class Externals : Type := {
  computeIDF : nat -> nat -> float;
  computeTermScore : nat -> nat -> float -> float -> float -> float -> float;
  localeCompare : jsstring -> jsstring -> Z
}.

Record DocScoreEntry : Type := mkEntry {
  e_score : float;
  terms : list jsstring
}.

(** The module-level [idfCache]: field, then term. *)
Definition IdfCache := jsmap Field (jsmap jsstring float).

Definition emptyCache : IdfCache := [].

Definition DocScores := jsmap nat DocScoreEntry.

Section Searcher.
Context {X : Externals}.

Definition getIDF (term : jsstring) (field : Field) (fieldIndex : FieldIndex)
    (idfCache : IdfCache) : float * IdfCache :=
  let (fieldCache, idfCache1) :=
    match map_get field_eqb field idfCache with
    | Some fc => (fc, idfCache)
    | None => ([], map_set field_eqb field [] idfCache)
    end in
  match map_get str_eqb term fieldCache with
  | Some cached => (cached, idfCache1)
  | None =>
      let docFreq :=
        match map_get str_eqb term (termPostings fieldIndex) with
        | Some postings => length postings
        | None => 0%nat
        end in
      let idf := computeIDF docFreq (totalDocs fieldIndex) in
      (idf, map_set field_eqb field (map_set str_eqb term idf fieldCache) idfCache1)
  end.

Definition fieldWeightOf (field : Field) (config : SearchConfig) : float :=
  match field with
  | F_suchtext => suchtextWeight config
  | F_fotografen => fotografenWeight config
  | F_bildnummer => bildnummerWeight config
  end.

(** The body of the loop over the postings of one term. *)
Definition accumulate (term : jsstring) (fieldIndex : FieldIndex)
    (config : SearchConfig) (idf fieldWeight prefixMultiplier : float)
    (docScores : DocScores) (posting : Posting) : DocScores :=
  let docLength :=
    orDefault (map_get Nat.eqb (p_docId posting) (docLengths fieldIndex)) 0%nat in
  let rawScore :=
    computeTermScore (termFrequency posting) docLength
      (avgDocLength fieldIndex) idf (k1 config) (b config) in
  let finalScore := (rawScore * fieldWeight * prefixMultiplier)%float in
  match map_get Nat.eqb (p_docId posting) docScores with
  | Some existing =>
      map_set Nat.eqb (p_docId posting)
        (mkEntry (e_score existing + finalScore)%float
                 (set_add term (terms existing)))
        docScores
  | None =>
      map_set Nat.eqb (p_docId posting) (mkEntry finalScore [term]) docScores
  end.

(** The state a query threads through its scoring calls: the accumulator
    of the query and the cache of the module. *)
Definition ScoreState : Type := DocScores * IdfCache.

Definition scoreTermInField (term : jsstring) (field : Field)
    (ix : InvertedIndex) (config : SearchConfig) (isPrefix : bool)
    (st : ScoreState) : ScoreState :=
  let (docScores, idfCache) := st in
  let fieldIndex := getFieldIndex field ix in
  match map_get str_eqb term (termPostings fieldIndex) with
  | None => st
  | Some [] => st
  | Some postings =>
      let (idf, idfCache') := getIDF term field fieldIndex idfCache in
      let fieldWeight := fieldWeightOf field config in
      let prefixMultiplier :=
        if isPrefix then prefixPenalty config else 1.0%float in
      (fold_left
         (accumulate term fieldIndex config idf fieldWeight prefixMultiplier)
         postings docScores,
       idfCache')
  end.

(** The loop over the expanded terms of one field. *)
Definition scorePrefixTerms (term : jsstring) (field : Field)
    (ix : InvertedIndex) (config : SearchConfig)
    (prefixTerms : list jsstring) (st : ScoreState) : ScoreState :=
  fold_left
    (fun st prefixTerm =>
       if str_eqb prefixTerm term then st
       else scoreTermInField prefixTerm field ix config true st)
    prefixTerms st.

(** The body of the loop over the query terms. *)
Definition scoreQueryTerm (ix : InvertedIndex) (cfg : SearchConfig)
    (st : ScoreState) (term : jsstring) : ScoreState :=
  let st := scoreTermInField term F_suchtext ix cfg false st in
  let st := scoreTermInField term F_fotografen ix cfg false st in
  let st := scoreTermInField term F_bildnummer ix cfg false st in
  if (minPrefixLength cfg <=? Z.of_nat (length term))%Z then
    let suchtextPrefixTerms :=
      getPrefixTerms term F_suchtext (maxPrefixExpansion cfg) ix in
    let fotografenPrefixTerms :=
      getPrefixTerms term F_fotografen (maxPrefixExpansion cfg) ix in
    let bildnummerPrefixTerms :=
      getPrefixTerms term F_bildnummer (maxPrefixExpansion cfg) ix in
    let st := scorePrefixTerms term F_suchtext ix cfg suchtextPrefixTerms st in
    let st := scorePrefixTerms term F_fotografen ix cfg fotografenPrefixTerms st in
    scorePrefixTerms term F_bildnummer ix cfg bildnummerPrefixTerms st
  else st.

(** The sign of a number as [sort] reads a comparator's result; [NaN]
    counts as zero. *)
Definition signOf (x : float) : Z :=
  if (0 <? x)%float then 1%Z else if (x <? 0)%float then (-1)%Z else 0%Z.

Definition byScoreThenDate (x y : SearchResult) : Z :=
  if negb (score y =? score x)%float
  then signOf (score y - score x)%float
  else localeCompare (dateISO (item y)) (dateISO (item x)).

(** The loop that turns the accumulator into results. *)
Definition collectResults (ix : InvertedIndex) (docScores : DocScores)
    : list SearchResult :=
  flat_map
    (fun kv : nat * DocScoreEntry =>
       let (id, entry) := kv in
       match getDocument id ix with
       | Some doc => [mkResult id doc (e_score entry) (terms entry)]
       | None => []
       end)
    docScores.

(** [search]: the result array and the cache as the call leaves it.  Only
    the browse branch can return an array with holes. *)
Definition search (query : jsstring) (ix : InvertedIndex)
    (config : option PartialSearchConfig) (idfCache : IdfCache)
    : jsarray SearchResult * IdfCache :=
  let cfg := mergeConfig config in
  let queryTerms := tokenize query in
  if (length queryTerms =? 0)%nat then
    (arr_mapi (fun doc id => mkResult id doc 0%float [])
       (getAllDocuments ix),
     idfCache)
  else
    let (docScores, idfCache') :=
      fold_left (scoreQueryTerm ix cfg) queryTerms ([], idfCache) in
    let results := collectResults ix docScores in
    (map Some (js_sort byScoreThenDate results), idfCache').

(* =============================================================== *)
(** ** app/api/search/route.ts *)

(** The entries the handler works on: a document with its score and
    matched terms. *)
Record Hit : Type := mkHit {
  h_item : ProcessedMediaItem;
  h_score : float;
  h_matchedTerms : list jsstring
}.

Inductive SortOrder : Type := asc | desc.

Definition parseSort (value : option jsstring) : option SortOrder :=
  match value with
  | Some v =>
      if str_eqb v (u "asc") then Some asc
      else if str_eqb v (u "desc") then Some desc
      else None
  | None => None
  end.

Definition NONE : jsstring := u "none".

(** The predicate handed to [items.filter]; [selected] is the handler's
    [restrictions] array. *)
Definition keepItem (credit dateFrom dateTo : option jsstring)
    (selected : list jsstring) (doc : ProcessedMediaItem) : bool :=
  if truthy credit
     && negb (str_eqb (fotografen doc) (orDefault credit []))
  then false
  else if truthy dateFrom && nonEmpty (dateISO doc)
          && str_ltb (dateISO doc) (orDefault dateFrom [])
  then false
  else if truthy dateTo && nonEmpty (dateISO doc)
          && str_ltb (orDefault dateTo []) (dateISO doc)
  then false
  else if (0 <? length selected)%nat then
    let hasNone := includes NONE selected in
    let otherRestrictions :=
      filter (fun r => negb (str_eqb r NONE)) selected in
    let matchesNone := hasNone && (length (restrictions doc) =? 0)%nat in
    let matchesOther :=
      existsb (fun r => includes r (restrictions doc)) otherRestrictions in
    if negb matchesNone && negb matchesOther then false else true
  else true.

Definition applyFilters (items : list Hit)
    (credit dateFrom dateTo : option jsstring) (selected : list jsstring)
    : list Hit :=
  filter (fun h => keepItem credit dateFrom dateTo selected (h_item h)) items.

Definition sortByDate (items : list Hit) (order : SortOrder) : list Hit :=
  js_sort
    (fun x y =>
       let comparison :=
         localeCompare (dateISO (h_item x)) (dateISO (h_item y)) in
       match order with asc => comparison | desc => (- comparison)%Z end)
    items.

(** The handler up to the point where the page is cut out: the filtered
    and ordered list, and the cache as the request leaves it.  [qParam] and
    [sortParam] are the raw parameters ([None] when absent).  [map] keeps
    the holes of an array and [filter] skips them, so the list is built
    from the elements that are present. *)
Definition GET (ix : InvertedIndex) (qParam : option jsstring)
    (credit dateFrom dateTo : option jsstring) (selected : list jsstring)
    (sortParam : option jsstring) (idfCache : IdfCache)
    : list Hit * IdfCache :=
  let q := if truthy qParam then orDefault qParam [] else [] in
  let sort := parseSort sortParam in
  let (results, idfCache') :=
    if nonEmpty (trim q) then
      let (searchResults, c) := search q ix None idfCache in
      (map (fun r => mkHit (item r) (score r) (matchedTerms r))
           (arr_dense searchResults), c)
    else
      (map (fun doc => mkHit doc 0%float [])
           (arr_dense (getAllDocuments ix)), idfCache) in
  let results := applyFilters results credit dateFrom dateTo selected in
  let results :=
    match sort with
    | Some order => sortByDate results order
    | None =>
        if negb (nonEmpty (trim q)) then sortByDate results desc
        else results
    end in
  (results, idfCache').
End Searcher.

(* ================================================================= *)
(** ** Notions used to state the properties *)

(** *** The date parser as the specification words it

    Read on the string as given, with no regular expression: a day and a
    month of one or two digits and a year of four digits, separated by dots
    or by slashes, give the zero-padded ISO date; a string already in ISO
    form is returned as it is; anything else gives null. *)

(** The leading run of digits, and what follows it. *)
Definition spanDigits (s : jsstring) : jsstring * jsstring :=
  (fix go (s : jsstring) : jsstring * jsstring :=
     match s with
     | c :: s' => if isDigit c then let (d, r) := go s' in (c :: d, r)
                  else ([], s)
     | [] => ([], [])
     end) s.

(** The three digit fields of [DD sep MM sep YYYY]. *)
Definition dmyFields (sep : N) (s : jsstring)
    : option (jsstring * jsstring * jsstring) :=
  let (day, r1) := spanDigits s in
  if (1 <=? length day)%nat && (length day <=? 2)%nat then
    match r1 with
    | c1 :: r1' =>
      if N.eqb c1 sep then
        let (month, r2) := spanDigits r1' in
        if (1 <=? length month)%nat && (length month <=? 2)%nat then
          match r2 with
          | c2 :: year =>
            if N.eqb c2 sep && (length year =? 4)%nat && forallb isDigit year
            then Some (day, month, year) else None
          | [] => None
          end
        else None
      else None
    | [] => None
    end
  else None.

(** Ten units: four digits, a hyphen, two digits, a hyphen, two digits. *)
Definition isIsoDate (s : jsstring) : bool :=
  match s with
  | [y1; y2; y3; y4; h1; m1; m2; h2; d1; d2] =>
      forallb isDigit [y1; y2; y3; y4; m1; m2; d1; d2]
      && N.eqb h1 HYPHEN && N.eqb h2 HYPHEN
  | _ => false
  end.

Definition parseDate_asSpecified (s : jsstring) : option jsstring :=
  match dmyFields DOT s with
  | Some (day, month, year) => Some (isoOf day month year)
  | None =>
    match dmyFields SLASH s with
    | Some (day, month, year) => Some (isoOf day month year)
    | None => if isIsoDate s then Some s else None
    end
  end.


(** A sequence of [addDocument] calls, in order. *)
Definition addDocuments (calls : list (nat * ProcessedMediaItem))
    (ix : InvertedIndex) : InvertedIndex :=
  fold_left (fun ix c => addDocument (fst c) (snd c) ix) calls ix.

(** Browse mode as the specification describes it: every document of the
    corpus, with its position as id, score 0 and no matched terms. *)
Definition browseResults (corpus : list ProcessedMediaItem) : list SearchResult :=
  map (fun p => mkResult (fst p) (snd p) 0%float [])
      (combine (seq 0 (length corpus)) corpus).

(** The same list as the route handler sees it. *)
Definition browseHits (ix : InvertedIndex) : list Hit :=
  map (fun doc => mkHit doc 0%float []) (arr_dense (getAllDocuments ix)).

(** The two strict orders on strings. *)
Definition str_lt (a b : jsstring) : Prop := str_ltb a b = true.

(** Code points: a high surrogate followed by a low one is one code point
    above U+FFFF; every other unit stands for itself. *)
Fixpoint codePoints (s : jsstring) : list N :=
  match s with
  | [] => []
  | hi :: s' =>
      match s' with
      | lo :: s'' =>
          if ((55296 <=? hi) && (hi <=? 56319)
              && (56320 <=? lo) && (lo <=? 57343))%N
          then (65536 + (hi - 55296) * 1024 + (lo - 56320))%N
               :: codePoints s''
          else hi :: codePoints s'
      | [] => [hi]
      end
  end.

Definition codePoint_lt (a b : jsstring) : Prop :=
  str_ltb (codePoints a) (codePoints b) = true.

Definition isSurrogate (c : N) : bool := ((55296 <=? c) && (c <=? 57343))%N.

Definition noSurrogates (s : jsstring) : Prop :=
  forallb (fun c => negb (isSurrogate c)) s = true.

(** The longest leading run of elements that satisfy [f]. *)
Fixpoint leadingRun (A : Type) (f : A -> bool) (l : list A) : list A :=
  match l with
  | [] => []
  | x :: l' => if f x then x :: leadingRun f l' else []
  end.

Section ScoringNotions.
Context {X : Externals}.

(** The IDF of a term as [getIDF] computes it when the cache has no entry. *)
Definition idfOf (fieldIndex : FieldIndex) (term : jsstring) : float :=
  computeIDF
    (match map_get str_eqb term (termPostings fieldIndex) with
     | Some postings => length postings
     | None => 0%nat
     end)
    (totalDocs fieldIndex).



(** The calls [search] makes to [scoreTermInField] for one query term, in
    order: term, field, and whether it is a prefix expansion. *)
Definition expansionCalls (ix : InvertedIndex) (cfg : SearchConfig)
    (term : jsstring) (field : Field) : list (jsstring * Field * bool) :=
  map (fun t => (t, field, true))
      (filter (fun t => negb (str_eqb t term))
              (getPrefixTerms term field (maxPrefixExpansion cfg) ix)).

Definition scoreCalls (ix : InvertedIndex) (cfg : SearchConfig)
    (term : jsstring) : list (jsstring * Field * bool) :=
  [(term, F_suchtext, false); (term, F_fotografen, false);
   (term, F_bildnummer, false)]
  ++ (if (minPrefixLength cfg <=? Z.of_nat (length term))%Z
      then expansionCalls ix cfg term F_suchtext
           ++ expansionCalls ix cfg term F_fotografen
           ++ expansionCalls ix cfg term F_bildnummer
      else []).

Definition allScoreCalls (ix : InvertedIndex) (cfg : SearchConfig)
    (query : jsstring) : list (jsstring * Field * bool) :=
  flat_map (scoreCalls ix cfg) (tokenize query).

Definition scoreCall (ix : InvertedIndex) (cfg : SearchConfig)
    (st : ScoreState) (call : jsstring * Field * bool) : ScoreState :=
  let '(term, field, isPrefix) := call in
  scoreTermInField term field ix cfg isPrefix st.


(** The term has a posting for the document in the field. *)
Definition hasPosting (ix : InvertedIndex) (field : Field)
    (term : jsstring) (id : nat) : Prop :=
  exists postings posting,
    map_get str_eqb term (termPostings (getFieldIndex field ix)) = Some postings
    /\ In posting postings /\ p_docId posting = id.

End ScoringNotions.

(** The accumulator records, for every document, exactly the terms that
    relation [S] gives it, each once; documents [S] gives nothing have no
    entry. *)
Definition termsTrack (docScores : DocScores) (S : jsstring -> nat -> Prop)
  : Prop :=
  forall id,
    match map_get Nat.eqb id docScores with
    | Some e => (forall t, In t (terms e) <-> S t id) /\ NoDup (terms e)
    | None => forall t, ~ S t id
    end.

(** [a <= b] in the code-unit order. *)
Definition str_le (a b : jsstring) : Prop := str_ltb b a = false.

Definition distinctTerms (index : FieldIndex) : Prop :=
  NoDup (map_keys (termPostings index)).

Definition distinctAll (ix : InvertedIndex) : Prop :=
  forall f, distinctTerms (getFieldIndex f ix).

Definition doc_astral : ProcessedMediaItem :=
  mkItem (u "a-3") ([65374; 65374; 32; 55357; 56832]%N) (u "IMAGO")
         (u "2024-03-14") 600 800 (u "2024-03-14") [] [] (u "imago").

(** An instance of the outside functions for closed examples.  The term
    score is the formula of section 4.7 of the specification; the IDF, which
    needs a logarithm, is 1 for a term that occurs and 0 otherwise;
    collation is by code units, which is the order of ISO dates. *)
Definition plainExternals : Externals :=
  {| computeIDF := fun n total =>
       if (n =? 0)%nat || (total =? 0)%nat then 0%float else 1%float;
     computeTermScore := fun tf docLen avgDocLen idf k1 b =>
       if (avgDocLen =? 0)%float || (tf =? 0)%nat then 0%float
       else
         let len := (1 - b + b * (numberOfNat docLen / avgDocLen))%float in
         (idf * (numberOfNat tf * (k1 + 1)) / (numberOfNat tf + k1 * len))%float;
     localeCompare := codeUnitCompare |}.

Definition doc_jan : ProcessedMediaItem :=
  mkItem (u "a-1") (u "Berlin Portrait") (u "IMAGO / Muller") (u "2024-01-01")
         600 800 (u "2024-01-01") (u "berlin portrait") [] (u "imago / muller").

Definition doc_mar : ProcessedMediaItem :=
  mkItem (u "a-2") (u "Hamburg Portrait") (u "IMAGO / Meier") (u "14.03.2024")
         600 800 (u "2024-03-14") (u "hamburg portrait") [] (u "imago / meier").

(** The first result of a query on the two-document corpus. *)
Definition firstResult (query : jsstring) : option SearchResult :=
  match fst (@search plainExternals query (buildIndex [doc_jan; doc_mar])
               None emptyCache) with
  | Some r :: _ => Some r
  | _ => None
  end.

(* ================================================================= *)
(** ** lib/search/inverted-index.ts: the remaining accessors *)


(** [Array.from(set).sort()] *)
Definition getPhotographers (ix : InvertedIndex) : list jsstring :=
  js_sort codeUnitCompare (photographers ix).

Definition getRestrictions (ix : InvertedIndex) : list jsstring :=
  js_sort codeUnitCompare (restrictionSet ix).

(** *** Notions for the index properties *)

(** The tokens [addDocument] indexes for a document in a field. *)
Definition fieldTokens (field : Field) (doc : ProcessedMediaItem)
  : list jsstring :=
  match field with
  | F_suchtext => tokenize (extractCleanSuchtext (suchtext doc))
  | F_fotografen => tokenize (fotografen doc)
  | F_bildnummer => tokenize (bildnummer doc)
  end.

(** How often a term occurs in a token list. *)
Definition occurrences (term : jsstring) (tokens : list jsstring) : nat :=
  length (filter (str_eqb term) tokens).



(** The token counts of the documents of a corpus in a field. *)
Definition fieldLengths (field : Field) (corpus : list ProcessedMediaItem)
  : list nat :=
  map (fun doc => length (fieldTokens field doc)) corpus.

(* ================================================================= *)
(** ** lib/data/preprocess.ts: restriction markers and [preprocessItem] *)

(** [text.match(RESTRICTION_PATTERN)]: the matches from left to right;
    [skip] is what is left of the match being passed over. *)
Fixpoint matchMarkers (skip : nat) (s : jsstring) : list jsstring :=
  match s with
  | [] => []
  | _ :: s' =>
      match skip with
      | S k => matchMarkers k s'
      | O =>
          match markerLength s with
          | Some n => firstn n s :: matchMarkers (n - 1) s'
          | None => matchMarkers 0 s'
          end
      end
  end.

Record Extraction : Type := mkExtraction {
  ex_restrictions : list jsstring;
  cleanText : jsstring
}.

Definition extractRestrictions (text : jsstring) : Extraction :=
  if negb (nonEmpty text) then mkExtraction [] []
  else
    mkExtraction (matchMarkers 0 text)
      (trim (collapseSpaces false (replaceMarkers 0 text))).



(** *** Notions for the preprocessing properties *)

(** The rest of a marker after its first capital, read from a state of the
    scan: capitals and single [x]s, ending on a capital, with at least one
    [x] when read from [FirstRun]. *)
Fixpoint markerRest (st : markerState) (w : jsstring) : bool :=
  match w with
  | [] => match st with GroupRun => true | _ => false end
  | c :: w' =>
      match st with
      | FirstRun =>
          if isUpper c then markerRest FirstRun w'
          else N.eqb c LOWER_X && markerRest AfterX w'
      | AfterX => isUpper c && markerRest GroupRun w'
      | GroupRun =>
          if isUpper c then markerRest GroupRun w'
          else N.eqb c LOWER_X && markerRest AfterX w'
      end
  end.

(** A whole string of the marker form: capitals joined by single [x]s, at
    least two groups. *)
Definition isMarker (m : jsstring) : bool :=
  match m with
  | c :: w => isUpper c && markerRest FirstRun w
  | [] => false
  end.

(** White space is single spaces only: every white-space unit is U+0020 and
    no two stand next to each other. *)
Fixpoint singleSpaced (s : jsstring) : bool :=
  match s with
  | [] => true
  | c :: s' =>
      (negb (isWhiteSpace c) || N.eqb c SPACE)
      && (negb (isWhiteSpace c)
          || match s' with d :: _ => negb (isWhiteSpace d) | [] => true end)
      && singleSpaced s'
  end.

(** No white space at either end. *)
Definition trimmed (s : jsstring) : bool :=
  match s with
  | [] => true
  | c :: _ => negb (isWhiteSpace c) && negb (isWhiteSpace (last s c))
  end.

(* ================================================================= *)
(** ** app/api/search/route.ts: page parameters and the page *)

(** [parseInt(s, 10)]: leading white space is skipped, then an optional
    sign, then the longest run of decimal digits; [None] stands for [NaN]
    (no digit).  The value is kept exact; the number the host returns is
    this value rounded to a double, the same value below 2^53. *)
Definition digitValue (c : N) : Z := Z.of_N c - 48.

Definition decimalValue (ds : jsstring) : Z :=
  fold_left (fun acc c => 10 * acc + digitValue c)%Z ds 0%Z.

Definition PLUS : N := 43%N.

Definition parseInt (s : jsstring) : option Z :=
  let s1 := trimStart s in
  let (negative, s2) :=
    match s1 with
    | c :: r => if N.eqb c HYPHEN then (true, r)
                else if N.eqb c PLUS then (false, r)
                else (false, s1)
    | [] => (false, s1)
    end in
  match fst (spanDigits s2) with
  | [] => None
  | ds => Some (if negative then - decimalValue ds else decimalValue ds)%Z
  end.

Definition parsePage (value : option jsstring) : Z :=
  if negb (truthy value) then 1%Z
  else
    match parseInt (orDefault value []) with
    | None => 1%Z
    | Some parsed => if (parsed <? 1)%Z then 1%Z else parsed
    end.

Definition parsePageSize (value : option jsstring) : Z :=
  if negb (truthy value) then 20%Z
  else
    match parseInt (orDefault value []) with
    | None => 20%Z
    | Some parsed => Z.min (Z.max parsed 1) 100
    end.

(** [a.slice(start, end)] for indices that are not negative. *)
Definition slice (A : Type) (l : list A) (startIndex endIndex : Z) : list A :=
  firstn (Z.to_nat (endIndex - startIndex)) (skipn (Z.to_nat startIndex) l).

(** [Math.max(1, Math.ceil(total / pageSize))]; for counts the rounded
    quotient of the doubles has the ceiling of the exact quotient. *)
Definition totalPagesOf (total pageSize : Z) : Z :=
  Z.max 1 ((total + pageSize - 1) / pageSize).

Definition pageOf (results : list Hit) (page pageSize : Z) : list Hit :=
  let startIndex := ((page - 1) * pageSize)%Z in
  let endIndex := (startIndex + pageSize)%Z in
  slice results startIndex endIndex.

Record SearchPage : Type := mkPage {
  pg_items : list Hit;
  pg_page : Z;
  pg_pageSize : Z;
  pg_total : Z;
  pg_totalPages : Z
}.

Section Response.
Context {X : Externals}.

(** The handler with its pagination: [GET] gives the filtered and ordered
    list, of which one page is cut; the snippets that [transformResults]
    adds to the items of the page are left out. *)
Definition respond (ix : InvertedIndex) (qParam pageParam pageSizeParam : option jsstring)
    (credit dateFrom dateTo : option jsstring) (selected : list jsstring)
    (sortParam : option jsstring) (idfCache : IdfCache)
    : SearchPage * IdfCache :=
  let page := parsePage pageParam in
  let pageSize := parsePageSize pageSizeParam in
  let (results, idfCache') :=
    GET ix qParam credit dateFrom dateTo selected sortParam idfCache in
  let total := Z.of_nat (length results) in
  (mkPage (pageOf results page pageSize) page pageSize total
          (totalPagesOf total pageSize),
   idfCache').
End Response.

(* ================================================================= *)
(** ** app/api/filters/route.ts *)

(** [calculateDateRange]: the smallest and the largest non-empty [dateISO]
    of the stored documents, in the order of the default [sort]. *)
Definition calculateDateRange (ix : InvertedIndex) : jsstring * jsstring :=
  let dates :=
    js_sort codeUnitCompare
      (filter nonEmpty (map dateISO (arr_dense (getAllDocuments ix)))) in
  match dates with
  | [] => ([], [])
  | first :: _ => (first, last dates first)
  end.

Record FiltersResponse : Type := mkFilters {
  credits : list jsstring;
  restrictionOptions : list jsstring;
  dateRange : jsstring * jsstring
}.

Definition filtersGET (ix : InvertedIndex) : FiltersResponse :=
  mkFilters (getPhotographers ix) (NONE :: getRestrictions ix)
            (calculateDateRange ix).

(** *** Notions for the searcher and route properties *)

(** What the cache holds for a field and a term. *)
Definition cacheLookup (field : Field) (term : jsstring) (idfCache : IdfCache)
  : option float :=
  match map_get field_eqb field idfCache with
  | Some fieldCache => map_get str_eqb term fieldCache
  | None => None
  end.

(* ================================================================= *)
(** ** lib/api/highlight.ts *)

(** The units of the class in [escapeRegex]: full stop, asterisk, plus,
    question mark, caret, dollar, the curly and round brackets, bar, the
    square brackets and the backslash. *)
Definition REGEX_SPECIALS : list N :=
  [46; 42; 43; 63; 94; 36; 123; 125; 40; 41; 124; 91; 93; 92]%N.

Definition BACKSLASH : N := 92%N.
Definition BAR : N := 124%N.
Definition LPAREN : N := 40%N.
Definition RPAREN : N := 41%N.

Definition isRegexSpecial (c : N) : bool := includesUnit c REGEX_SPECIALS.

(** [str.replace(/[.*+?^${}()|[\]\\]/g, '\\$&')] *)
Definition escapeRegex (str : jsstring) : jsstring :=
  flat_map (fun c => if isRegexSpecial c then [BACKSLASH; c] else [c]) str.

(** [parts.join(sep)] *)
Fixpoint join (sep : jsstring) (parts : list jsstring) : jsstring :=
  match parts with
  | [] => []
  | p :: rest =>
      match rest with
      | [] => p
      | _ :: _ => p ++ sep ++ join sep rest
      end
  end.

(** The source handed to [new RegExp]: the escaped terms, joined by bars,
    in one group. *)
Definition patternSource (escapedTerms : list jsstring) : jsstring :=
  [LPAREN] ++ join [BAR] escapedTerms ++ [RPAREN].

(** The patterns of this module as the engine reads them: one group of
    alternatives, each a sequence of plain units and of escaped special
    units.  [readAlternatives] reads up to the closing bracket; [cur] is the
    alternative read so far.  [None]: any other pattern. *)
Fixpoint readAlternatives (src : jsstring) (cur : jsstring)
  : option (list jsstring) :=
  match src with
  | [] => None
  | c :: rest =>
      if N.eqb c BACKSLASH then
        match rest with
        | d :: rest' =>
            if isRegexSpecial d then readAlternatives rest' (cur ++ [d])
            else None
        | [] => None
        end
      else if N.eqb c BAR then
        option_map (cons cur) (readAlternatives rest [])
      else if N.eqb c RPAREN then
        match rest with [] => Some [cur] | _ :: _ => None end
      else if isRegexSpecial c then None
      else readAlternatives rest (cur ++ [c])
  end.

Definition readPattern (src : jsstring) : option (list jsstring) :=
  match src with
  | c :: rest => if N.eqb c LPAREN then readAlternatives rest [] else None
  | [] => None
  end.

(** [new RegExp(src, 'gi')] on such a source: the alternatives, in the
    order in which the engine tries them. *)
Definition regExp (src : jsstring) : list jsstring :=
  orDefault (readPattern src) [].

(** [/\s/.test(text[i])]; out of range the unit is [undefined], which the
    test reads as a word without white space. *)
Definition spaceAt (text : jsstring) (i : nat) : bool :=
  match nth_error text i with
  | Some c => isWhiteSpace c
  | None => false
  end.

Inductive Direction : Type := forward | backward.

(** [while (pos > 0 && test(text[pos - 1]) == wanted) pos--] *)
Fixpoint stepBack (text : jsstring) (wanted : bool) (pos : nat) : nat :=
  match pos with
  | O => O
  | S p => if Bool.eqb (spaceAt text p) wanted
           then stepBack text wanted p else pos
  end.

(** [while (pos < text.length && test(text[pos]) == wanted) pos++]; the
    loop runs at most [text.length - pos] times, which is the fuel. *)
Fixpoint stepForward (text : jsstring) (wanted : bool) (fuel pos : nat) : nat :=
  match fuel with
  | O => pos
  | S fuel' =>
      if (pos <? length text)%nat && Bool.eqb (spaceAt text pos) wanted
      then stepForward text wanted fuel' (S pos) else pos
  end.

Definition expandToWordBoundary (text : jsstring) (pos : nat)
    (direction : Direction) : nat :=
  match direction with
  | backward =>
      let pos := stepBack text false pos in
      stepBack text true pos
  | forward =>
      let pos := stepForward text false (length text - pos) pos in
      stepForward text true (length text - pos) pos
  end.

(** [while (end > 0 && !/\s/.test(text[end])) end--] *)
Fixpoint lastSpaceFrom (text : jsstring) (endIndex : nat) : nat :=
  match endIndex with
  | O => O
  | S e => if spaceAt text endIndex then endIndex else lastSpaceFrom text e
  end.

Definition truncateToWordBoundary (text : jsstring) (limit : nat) : jsstring :=
  if (length text <=? limit)%nat then text
  else
    let endIndex := lastSpaceFrom text limit in
    let endIndex := if (endIndex =? 0)%nat then limit else endIndex in
    trim (slice text 0 (Z.of_nat endIndex)).

Definition MARK_OPEN : jsstring := u "<mark>".
Definition MARK_CLOSE : jsstring := u "</mark>".
Definition ELLIPSIS : jsstring := u "...".

(** [terms.filter((t) => t && t.trim().length > 0)] *)
Definition validTerms (terms : list jsstring) : list jsstring :=
  filter (fun t => nonEmpty t && (0 <? length (trim t))%nat) terms.

(** What [replace] leaves of the text: a unit outside a match, or a match. *)
Inductive Segment : Type :=
| Plain (c : N)
| Marked (s : jsstring).

(** [<mark>$1</mark>] for a match; the group is the whole match. *)
Definition renderSegment (sg : Segment) : jsstring :=
  match sg with
  | Plain c => [c]
  | Marked s => MARK_OPEN ++ s ++ MARK_CLOSE
  end.

Definition segmentText (sg : Segment) : jsstring :=
  match sg with
  | Plain c => [c]
  | Marked s => s
  end.

Section Matching.
(** The engine's [Canonicalize] under the flag [i]: the upper-case unit of
    a unit, a function of the host. *)
Variable canonicalize : N -> N.

(** One alternative at the start of [s]. *)
Fixpoint matchLiteral (lit s : jsstring) : bool :=
  match lit with
  | [] => true
  | c :: lit' =>
      match s with
      | x :: s' =>
          N.eqb (canonicalize c) (canonicalize x) && matchLiteral lit' s'
      | [] => false
      end
  end.

(** The group at the start of [s]: the first alternative that matches
    decides; the result is the length of the match. *)
Fixpoint matchAlternatives (alts : list jsstring) (s : jsstring) : option nat :=
  match alts with
  | [] => None
  | a :: alts' =>
      if matchLiteral a s then Some (length a) else matchAlternatives alts' s
  end.

(** [pattern.exec(text)] on a fresh pattern: index and length of the
    leftmost match. *)
Fixpoint execFrom (alts : list jsstring) (i : nat) (s : jsstring)
  : option (nat * nat) :=
  match matchAlternatives alts s with
  | Some n => Some (i, n)
  | None =>
      match s with
      | [] => None
      | _ :: s' => execFrom alts (S i) s'
      end
  end.

Definition exec (alts : list jsstring) (text : jsstring) : option (nat * nat) :=
  execFrom alts 0 text.

(** [text.replace(pattern, ...)] with the flag [g]: the matches from left
    to right, none overlapping another; after an empty match the scan moves
    on by one unit.  Every round but the last uses up a unit, so
    [text.length + 1] rounds are enough. *)
Fixpoint replaceMatches (alts : list jsstring) (fuel : nat) (s : jsstring)
  : list Segment :=
  match fuel with
  | O => []
  | S fuel' =>
      match matchAlternatives alts s with
      | Some O =>
          Marked [] ::
          match s with
          | [] => []
          | c :: s' => Plain c :: replaceMatches alts fuel' s'
          end
      | Some n => Marked (firstn n s) :: replaceMatches alts fuel' (skipn n s)
      | None =>
          match s with
          | [] => []
          | c :: s' => Plain c :: replaceMatches alts fuel' s'
          end
      end
  end.

Definition highlightText (text : jsstring) (terms : list jsstring) : jsstring :=
  if negb (nonEmpty text) || (length terms =? 0)%nat then text
  else
    let validTerms := validTerms terms in
    if (length validTerms =? 0)%nat then text
    else
      let escapedTerms := map (fun t => escapeRegex (trim t)) validTerms in
      let pattern := regExp (patternSource escapedTerms) in
      flat_map renderSegment (replaceMatches pattern (S (length text)) text).

(** [extractSnippet]; [charLimit] is a count of units. *)
Definition extractSnippet (text : jsstring) (terms : list jsstring)
    (charLimit : nat) : jsstring :=
  if negb (nonEmpty text) then []
  else if (length terms =? 0)%nat || (length text <=? charLimit)%nat then
    if (length text <=? charLimit)%nat then text
    else truncateToWordBoundary text charLimit ++ ELLIPSIS
  else
    let validTerms := validTerms terms in
    if (length validTerms =? 0)%nat then
      if (length text <=? charLimit)%nat then text
      else truncateToWordBoundary text charLimit ++ ELLIPSIS
    else
      let escapedTerms := map (fun t => escapeRegex (trim t)) validTerms in
      let pattern := regExp (patternSource escapedTerms) in
      match exec pattern text with
      | None =>
          if (length text <=? charLimit)%nat then text
          else truncateToWordBoundary text charLimit ++ ELLIPSIS
      | Some (index, matchLength) =>
          let matchStart := Z.of_nat index in
          let matchEnd := (matchStart + Z.of_nat matchLength)%Z in
          let halfWindow :=
            ((Z.of_nat charLimit - Z.of_nat matchLength) / 2)%Z in
          let textLength := Z.of_nat (length text) in
          let start := Z.max 0 (matchStart - halfWindow) in
          let endIndex := Z.min textLength (matchEnd + halfWindow) in
          let (start, endIndex) :=
            if (start =? 0)%Z
            then (start, Z.min textLength (Z.of_nat charLimit))
            else if (endIndex =? textLength)%Z
            then (Z.max 0 (textLength - Z.of_nat charLimit), endIndex)
            else (start, endIndex) in
          let start :=
            Z.of_nat (expandToWordBoundary text (Z.to_nat start) backward) in
          let endIndex :=
            Z.of_nat (expandToWordBoundary text (Z.to_nat endIndex) forward) in
          let snippet := slice text start endIndex in
          let snippet :=
            if (0 <? start)%Z then ELLIPSIS ++ snippet else snippet in
          let snippet :=
            if (endIndex <? textLength)%Z then snippet ++ ELLIPSIS
            else snippet in
          snippet
      end.
End Matching.

(** *** Notions for the highlight properties *)

(** Upper case on Basic Latin, for closed examples. *)
Definition asciiUpper (c : N) : N :=
  (if (97 <=? c) && (c <=? 122) then c - 32 else c)%N.

(** What [extractSnippet] returns when it has no match to show. *)
Definition fallbackSnippet (text : jsstring) (charLimit : nat) : jsstring :=
  if (length text <=? charLimit)%nat then text
  else truncateToWordBoundary text charLimit ++ ELLIPSIS.

(** Every entry of the accumulator records at least one term. *)
Definition entriesNamed (ds : DocScores) : Prop :=
  Forall (fun kv : nat * DocScoreEntry => terms (snd kv) <> []) ds.

(* ================================================================= *)
(** ** lib/api/analytics.ts *)

Record QueryLog : Type := mkLog {
  lg_query : jsstring;
  resultCount : Z;
  responseTimeMs : float;
  timestamp : Z
}.

Definition MAX_LOGS : nat := N.to_nat 10000.

(** [logQuery]: the module's [queryLogs] array before and after. *)
Definition logQuery (entry : QueryLog) (queryLogs : list QueryLog)
  : list QueryLog :=
  let queryLogs := queryLogs ++ [entry] in
  if (MAX_LOGS <? length queryLogs)%nat then tl queryLogs else queryLogs.

(** [log.query.toLowerCase().split(/\s+/).filter((term) => term.length > 0)] *)
Definition logTerms (log : QueryLog) : list jsstring :=
  filter nonEmpty (splitRuns isWhiteSpace [] false (toLowerCase (lg_query log))).

(** The two loops of [getAnalytics] that fill [termCounts]. *)
Definition termCounts (queryLogs : list QueryLog) : jsmap jsstring nat :=
  fold_left
    (fun termCounts log =>
       fold_left
         (fun termCounts term =>
            map_set str_eqb term
              (orDefault (map_get str_eqb term termCounts) 0 + 1) termCounts)
         (logTerms log) termCounts)
    queryLogs [].

(** [topSearchTerms] of [getAnalytics]: the entries of the map, by count
    from the highest, the first ten. *)
Definition topSearchTerms (queryLogs : list QueryLog) : list (jsstring * nat) :=
  slice
    (js_sort (fun a b => (Z.of_nat (snd b) - Z.of_nat (snd a))%Z)
             (termCounts queryLogs))
    0 10.

(* ================================================================= *)
(** ** components/Pagination.tsx *)

Inductive PageEntry : Type :=
| PageNumber (n : Z)
| PageEllipsis.

(** [for (let i = from; ...; i++) pages.push(i)], [count] rounds. *)
Fixpoint rangeFrom (from : Z) (count : nat) : list Z :=
  match count with
  | O => []
  | S count' => from :: rangeFrom (from + 1) count'
  end.

(** [for (let i = from; i <= to; i++) pages.push(i)] *)
Definition range (from to : Z) : list Z :=
  rangeFrom from (Z.to_nat (to - from + 1)).

Definition getPageNumbers (page totalPages : Z) : list PageEntry :=
  let showPages := 5%Z in
  if (totalPages <=? showPages + 2)%Z then
    map PageNumber (range 1 totalPages)
  else
    let start := Z.max 2 (page - 1) in
    let endPage := Z.min (totalPages - 1) (page + 1) in
    [PageNumber 1]
    ++ (if (2 <? start)%Z then [PageEllipsis] else [])
    ++ map PageNumber (range start endPage)
    ++ (if (endPage <? totalPages - 1)%Z then [PageEllipsis] else [])
    ++ [PageNumber totalPages].

(** *** Notions for the pagination control *)

(** After the page [prev], the entries go on without a hidden gap: the
    next number follows directly, or an ellipsis stands for at least one
    page that is left out. *)
Fixpoint gapsMarked (prev : Z) (entries : list PageEntry) : Prop :=
  match entries with
  | [] => True
  | PageNumber n :: rest => n = (prev + 1)%Z /\ gapsMarked n rest
  | PageEllipsis :: rest =>
      match rest with
      | PageNumber n :: rest' => (prev + 1 < n)%Z /\ gapsMarked n rest'
      | _ => False
      end
  end.
(* ================================================================= *)
(** * Properties *)

Unset Implicit Arguments.

(** ** Date parser *)

Example parseDate_dot : parseDate (u "31.02.2024") = Some (u "2024-02-31").
Proof. reflexivity. Qed.
Example parseDate_slash : parseDate (u "4/3/2024") = Some (u "2024-03-04").
Proof. reflexivity. Qed.
Example parseDate_iso : parseDate (u "2024-03-14") = Some (u "2024-03-14").
Proof. reflexivity. Qed.
Example parseDate_bad : parseDate (u "14-03-2024") = None.
Proof. reflexivity. Qed.
Example parseDate_padded : parseDate (u " 14.03.2024 ") = Some (u "2024-03-14").
Proof. reflexivity. Qed.

Lemma spanDigits_cons c s :
  spanDigits (c :: s) =
  if isDigit c then let (d, r) := spanDigits s in (c :: d, r) else ([], c :: s).
Proof. reflexivity. Qed.

Lemma spanDigits_app s :
  s = fst (spanDigits s) ++ snd (spanDigits s).
Proof.
  induction s as [|c s IH]; [reflexivity|].
  rewrite spanDigits_cons. destruct (isDigit c); [|reflexivity].
  destruct (spanDigits s) as [d r]; simpl in *. now f_equal.
Qed.

Lemma spanDigits_all s :
  forallb isDigit (fst (spanDigits s)) = true.
Proof.
  induction s as [|c s IH]; [reflexivity|].
  rewrite spanDigits_cons. destruct (isDigit c) eqn:E; [|reflexivity].
  destruct (spanDigits s) as [d r]; simpl in *. now rewrite E.
Qed.

Lemma spanDigits_rest s :
  match snd (spanDigits s) with
  | [] => True
  | c :: _ => isDigit c = false
  end.
Proof.
  induction s as [|c s IH]; [exact I|].
  rewrite spanDigits_cons. destruct (isDigit c) eqn:E; [|exact E].
  destruct (spanDigits s) as [d r]; simpl in *. exact IH.
Qed.

Lemma spanDigits_whole s :
  forallb isDigit s = true -> spanDigits s = (s, []).
Proof.
  induction s as [|c s IH]; [reflexivity|].
  simpl forallb. intros H. apply andb_true_iff in H as [Hc Hs].
  rewrite spanDigits_cons, Hc, (IH Hs). reflexivity.
Qed.

(** Taking [n] units off a string that starts with the digit run [d]. *)
Lemma digits_prefix_test d r n :
  forallb isDigit d = true ->
  match r with [] => True | c :: _ => isDigit c = false end ->
  ((n <=? length (d ++ r))%nat && forallb isDigit (firstn n (d ++ r)))
  = (n <=? length d)%nat.
Proof.
  revert n. induction d as [|c d IH]; intros n Hd Hr.
  - destruct n as [|n]; [now destruct r|]. simpl.
    destruct r as [|c r]; [reflexivity|]. simpl. rewrite Hr.
    now rewrite andb_false_r.
  - simpl in Hd. apply andb_true_iff in Hd as [Hc Hd].
    destruct n as [|n]; [reflexivity|].
    cbn [app length firstn forallb]. rewrite Hc. cbn [andb].
    change (S n <=? S (length (d ++ r)))%nat with (n <=? length (d ++ r))%nat.
    change (S n <=? S (length d))%nat with (n <=? length d)%nat.
    now apply IH.
Qed.

Lemma digits_prefix_short d r n :
  forallb isDigit d = true -> (n < length d)%nat ->
  exists c r', skipn n (d ++ r) = c :: r' /\ isDigit c = true.
Proof.
  revert n. induction d as [|c d IH]; intros n Hd Hn; [simpl in Hn; lia|].
  simpl in Hd. apply andb_true_iff in Hd as [Hc Hd].
  destruct n as [|n].
  - exists c, (d ++ r). now split.
  - simpl in Hn. apply (IH n Hd). lia.
Qed.

(** A quantified digit class in front of a continuation that cannot start
    with a digit takes the whole digit run or fails. *)
Lemma tryCount_digits lo hi cap k s n :
  (forall c r, isDigit c = true -> k (c :: r) = None) ->
  tryCount (digits lo hi cap) k s n =
  let (d, r) := spanDigits s in
  if (lo <=? length d)%nat && (length d <=? n)%nat
  then match k r with
       | Some caps => Some (if cap then d :: caps else caps)
       | None => None
       end
  else None.
Proof.
  intros Hk.
  pose proof (spanDigits_app s) as Happ.
  pose proof (spanDigits_all s) as Hall.
  pose proof (spanDigits_rest s) as Hrest.
  destruct (spanDigits s) as [d r]. simpl in Happ, Hall, Hrest. subst s.
  assert (Hhd : forall m, (m < length d)%nat -> k (skipn m (d ++ r)) = None).
  { intros m Hm. destruct (digits_prefix_short d r m Hall Hm) as (c & r' & Hsk & Hc).
    rewrite Hsk. now apply Hk. }
  assert (Hfull : firstn (length d) (d ++ r) = d /\ skipn (length d) (d ++ r) = r).
  { rewrite firstn_app, skipn_app, Nat.sub_diag, firstn_all, skipn_all.
    simpl. now rewrite app_nil_r. }
  destruct Hfull as [Hfirst Hskip].
  induction n as [|n IH].
  - cbn [tryCount digits rmin cls capture].
    rewrite <- andb_assoc, (digits_prefix_test d r 0 Hall Hrest).
    destruct d as [|c d].
    + simpl. destruct (lo <=? 0)%nat; simpl; [|reflexivity]. now destruct (k r).
    + rewrite (Hhd 0%nat) by (simpl; lia).
      replace (length (c :: d) <=? 0)%nat with false by reflexivity.
      rewrite andb_false_r.
      now destruct ((lo <=? 0)%nat && (0 <=? length (c :: d))%nat).
  - cbn [tryCount digits rmin cls capture]. cbn [digits] in IH. rewrite IH.
    rewrite <- andb_assoc, (digits_prefix_test d r (S n) Hall Hrest).
    destruct (Nat.lt_trichotomy (S n) (length d)) as [Hlt|[Heq|Hgt]].
    + rewrite (Hhd (S n) Hlt).
      replace (length d <=? S n)%nat with false by (symmetry; apply Nat.leb_gt; lia).
      replace (length d <=? n)%nat with false by (symmetry; apply Nat.leb_gt; lia).
      rewrite !andb_false_r.
      now destruct ((lo <=? S n)%nat && (S n <=? length d)%nat).
    + rewrite Heq, Hfirst, Hskip, Nat.leb_refl, andb_true_r.
      replace (length d <=? n)%nat with false by (symmetry; apply Nat.leb_gt; lia).
      rewrite andb_false_r.
      destruct (lo <=? length d)%nat; [|reflexivity].
      now destruct (k r).
    + replace (S n <=? length d)%nat with false by (symmetry; apply Nat.leb_gt; lia).
      rewrite andb_false_r.
      replace (length d <=? S n)%nat with true by (symmetry; apply Nat.leb_le; lia).
      replace (length d <=? n)%nat with true by (symmetry; apply Nat.leb_le; lia).
      reflexivity.
Qed.

(** A literal unit. *)
Lemma tryCount_lit c k s :
  tryCount (lit c) k s 1 =
  match s with
  | x :: s' => if N.eqb c x then k s' else None
  | [] => None
  end.
Proof.
  destruct s as [|x s']; [reflexivity|].
  cbn. destruct (N.eqb c x); [|reflexivity]. now destruct (k s').
Qed.

Lemma matchAnchored_cons p ps s :
  matchAnchored (p :: ps) s = tryCount p (matchAnchored ps) s (rmax p).
Proof. reflexivity. Qed.

Lemma lit_then_rejects_digit sep ps c r :
  isDigit sep = false -> isDigit c = true ->
  matchAnchored (lit sep :: ps) (c :: r) = None.
Proof.
  intros Hsep Hc. rewrite matchAnchored_cons. change (rmax (lit sep)) with 1%nat.
  rewrite tryCount_lit. destruct (N.eqb_spec sep c) as [->|]; congruence.
Qed.

Lemma end_rejects_digit c r :
  isDigit c = true -> matchAnchored [] (c :: r) = None.
Proof. reflexivity. Qed.

(** The closing [\d{4}$]. *)
Lemma year_group cap s :
  matchAnchored [digits 4 4 cap] s =
  if (length s =? 4)%nat && forallb isDigit s
  then Some (if cap then [s] else []) else None.
Proof.
  rewrite matchAnchored_cons. change (rmax (digits 4 4 cap)) with 4%nat.
  rewrite (tryCount_digits 4 4 cap _ s 4 end_rejects_digit).
  pose proof (spanDigits_app s) as Happ.
  pose proof (spanDigits_all s) as Hall.
  destruct (forallb isDigit s) eqn:Hs.
  - rewrite (spanDigits_whole s Hs). rewrite andb_true_r.
    destruct (Nat.eqb_spec (length s) 4) as [->|Hne]; [reflexivity|].
    destruct ((4 <=? length s)%nat && (length s <=? 4)%nat) eqn:E; [|reflexivity].
    apply andb_true_iff in E as [E1 E2].
    apply Nat.leb_le in E1, E2. lia.
  - rewrite andb_false_r.
    destruct (spanDigits s) as [d r]. simpl in Happ, Hall.
    destruct r as [|c r].
    + rewrite app_nil_r in Happ. congruence.
    + now destruct ((4 <=? length d)%nat && (length d <=? 4)%nat).
Qed.

(** The day-month-year patterns accept exactly the strings with the three
    digit fields, and capture the fields. *)
Lemma matchAnchored_dmy sep t :
  isDigit sep = false ->
  matchAnchored (dmyPattern sep) t =
  match dmyFields sep t with
  | Some (day, month, year) => Some [day; month; year]
  | None => None
  end.
Proof.
  intros Hsep. unfold dmyPattern, dmyFields.
  rewrite matchAnchored_cons. change (rmax (digits 1 2 true)) with 2%nat.
  rewrite (tryCount_digits 1 2 true _ t 2
             (fun c r => lit_then_rejects_digit sep _ c r Hsep)).
  destruct (spanDigits t) as [day r1].
  destruct ((1 <=? length day)%nat && (length day <=? 2)%nat); [|reflexivity].
  rewrite matchAnchored_cons. change (rmax (lit sep)) with 1%nat.
  rewrite tryCount_lit.
  destruct r1 as [|c1 r1]; [reflexivity|].
  rewrite N.eqb_sym. destruct (N.eqb c1 sep); [|reflexivity].
  rewrite matchAnchored_cons. change (rmax (digits 1 2 true)) with 2%nat.
  rewrite (tryCount_digits 1 2 true _ r1 2
             (fun c r => lit_then_rejects_digit sep _ c r Hsep)).
  destruct (spanDigits r1) as [month r2].
  destruct ((1 <=? length month)%nat && (length month <=? 2)%nat); [|reflexivity].
  rewrite matchAnchored_cons. change (rmax (lit sep)) with 1%nat.
  rewrite tryCount_lit.
  destruct r2 as [|c2 year]; [reflexivity|].
  rewrite N.eqb_sym. destruct (N.eqb c2 sep); [|reflexivity].
  rewrite year_group. cbn [andb].
  now destruct ((length year =? 4)%nat && forallb isDigit year).
Qed.

Lemma fixed_digits n cap k s :
  (forall c r, isDigit c = true -> k (c :: r) = None) ->
  tryCount (digits n n cap) k s n =
  let (d, r) := spanDigits s in
  if (length d =? n)%nat
  then match k r with
       | Some caps => Some (if cap then d :: caps else caps)
       | None => None
       end
  else None.
Proof.
  intros Hk. rewrite (tryCount_digits n n cap k s n Hk).
  destruct (spanDigits s) as [d r].
  replace ((n <=? length d)%nat && (length d <=? n)%nat) with (length d =? n)%nat;
    [reflexivity|].
  destruct (Nat.eqb_spec (length d) n) as [->|Hne].
  - now rewrite Nat.leb_refl.
  - symmetry. apply andb_false_iff.
    destruct (Nat.leb_spec n (length d)); [right; apply Nat.leb_gt; lia|now left].
Qed.

Lemma tryCount_below p k s n :
  (n < rmin p)%nat -> tryCount p k s n = None.
Proof.
  induction n as [|n IH]; intros Hn; cbn [tryCount];
    replace (rmin p <=? _)%nat with false by (symmetry; apply Nat.leb_gt; lia);
    cbn [andb]; [reflexivity|apply IH; lia].
Qed.

(** A class repeated an exact number of times. *)
Lemma tryCount_exact c n cap k s :
  tryCount (mkPiece c n n cap) k s n =
  if (n <=? length s)%nat && forallb c (firstn n s)
  then match k (skipn n s) with
       | Some caps => Some (if cap then firstn n s :: caps else caps)
       | None => None
       end
  else None.
Proof.
  destruct n as [|n]; cbn [tryCount rmin cls capture].
  - cbn [Nat.leb andb]. now destruct (forallb c (firstn 0 s)), (k (skipn 0 s)).
  - rewrite Nat.leb_refl. cbn [andb].
    rewrite (tryCount_below (mkPiece c (S n) (S n) cap) k s n) by (simpl; lia).
    destruct ((S n <=? length s)%nat && forallb c (firstn (S n) s)); [|reflexivity].
    now destruct (k (skipn (S n) s)).
Qed.

Lemma matchAnchored_iso t :
  matchAnchored isoPattern t = if isIsoDate t then Some [] else None.
Proof.
  unfold isoPattern, digits, lit.
  repeat (rewrite matchAnchored_cons; cbn [rmax]; rewrite tryCount_exact).
  unfold isIsoDate.
  do 10 (destruct t as [|? t];
         [cbn [firstn skipn length Nat.leb forallb andb];
          repeat match goal with
            | |- context [isDigit ?c] => destruct (isDigit c); cbn [andb]
            | |- context [N.eqb HYPHEN ?c] => destruct (N.eqb HYPHEN c); cbn [andb]
            end; reflexivity|]).
  destruct t as [|? t];
    cbn [firstn skipn length Nat.leb forallb andb matchAnchored];
    rewrite ?(N.eqb_sym _ HYPHEN);
    repeat match goal with
      | |- context [isDigit ?c] => destruct (isDigit c); cbn [andb]; try reflexivity
      | |- context [N.eqb HYPHEN ?c] =>
          destruct (N.eqb HYPHEN c); cbn [andb]; try reflexivity
      end.
Qed.

Lemma spanDigits_stop d c r :
  forallb isDigit d = true -> isDigit c = false ->
  spanDigits (d ++ c :: r) = (d, c :: r).
Proof.
  intros Hd Hc. induction d as [|x d IH].
  - cbn [app]. now rewrite spanDigits_cons, Hc.
  - cbn [forallb] in Hd. apply andb_true_iff in Hd as [Hx Hd].
    cbn [app]. now rewrite spanDigits_cons, Hx, (IH Hd).
Qed.

(** What [dmyFields] recognizes, said with a decomposition of the string. *)
Lemma dmyFields_iff sep s day month year :
  isDigit sep = false ->
  (dmyFields sep s = Some (day, month, year) <->
   s = day ++ [sep] ++ month ++ [sep] ++ year
   /\ forallb isDigit day = true /\ (1 <= length day <= 2)%nat
   /\ forallb isDigit month = true /\ (1 <= length month <= 2)%nat
   /\ forallb isDigit year = true /\ length year = 4%nat).
Proof.
  intros Hsep. unfold dmyFields. split.
  - pose proof (spanDigits_app s) as Hs. pose proof (spanDigits_all s) as Hd.
    destruct (spanDigits s) as [d r1]. cbn [fst snd] in Hs, Hd.
    destruct ((1 <=? length d)%nat && (length d <=? 2)%nat) eqn:Ed;
      [|discriminate].
    destruct r1 as [|c1 r1]; [discriminate|].
    destruct (N.eqb_spec c1 sep) as [->|]; [|discriminate].
    pose proof (spanDigits_app r1) as Hs1. pose proof (spanDigits_all r1) as Hm.
    destruct (spanDigits r1) as [m r2]. cbn [fst snd] in Hs1, Hm.
    destruct ((1 <=? length m)%nat && (length m <=? 2)%nat) eqn:Em;
      [|discriminate].
    destruct r2 as [|c2 y]; [discriminate|].
    destruct (N.eqb c2 sep && (length y =? 4)%nat && forallb isDigit y) eqn:Ey;
      [|discriminate].
    intros [= <- <- <-].
    apply andb_true_iff in Ed as [Ed1 Ed2]. apply Nat.leb_le in Ed1, Ed2.
    apply andb_true_iff in Em as [Em1 Em2]. apply Nat.leb_le in Em1, Em2.
    apply andb_true_iff in Ey as [Ey Ey3]. apply andb_true_iff in Ey as [Ey1 Ey2].
    apply N.eqb_eq in Ey1. apply Nat.eqb_eq in Ey2. subst c2 r1 s.
    repeat split; assumption.
  - intros (-> & Hd & [Hd1 Hd2] & Hm & [Hm1 Hm2] & Hy & Hy4).
    cbn [app]. rewrite (spanDigits_stop day sep _ Hd Hsep).
    replace ((1 <=? length day)%nat && (length day <=? 2)%nat) with true
      by (symmetry; apply andb_true_iff; split; apply Nat.leb_le; assumption).
    rewrite N.eqb_refl, (spanDigits_stop month sep _ Hm Hsep).
    replace ((1 <=? length month)%nat && (length month <=? 2)%nat) with true
      by (symmetry; apply andb_true_iff; split; apply Nat.leb_le; assumption).
    now rewrite N.eqb_refl, Hy4, Hy.
Qed.

(** C4 (as amended).  [parseDate] trims its argument first; on the trimmed
    string it behaves as the specification describes: the zero-padded
    [YYYY-MM-DD] for the day-month-year forms with dots or slashes (no
    calendar check), the trimmed string itself for the ISO form, and null
    for everything else. *)
Theorem parseDate_on_trimmed (s : jsstring) :
  parseDate s = parseDate_asSpecified (trim s).
Proof.
  unfold parseDate, parseDate_asSpecified.
  destruct s as [|c s]; [reflexivity|]. cbn [nonEmpty negb].
  rewrite (matchAnchored_dmy DOT) by reflexivity.
  rewrite (matchAnchored_dmy SLASH) by reflexivity.
  rewrite matchAnchored_iso.
  destruct (dmyFields DOT (trim (c :: s))) as [[[d m] y]|]; [reflexivity|].
  destruct (dmyFields SLASH (trim (c :: s))) as [[[d m] y]|]; [reflexivity|].
  now destruct (isIsoDate (trim (c :: s))).
Qed.

(** C4 as stated fails: a string with surrounding white space matches none of
    the three anchored patterns, yet it is parsed. *)
Lemma parseDate_untrimmed_counterexample :
  parseDate (u " 14.03.2024") <> parseDate_asSpecified (u " 14.03.2024").
Proof. intros H. vm_compute in H. discriminate H. Qed.

(** ** Tokenizer *)

Example tokenize_doc1 :
  tokenize (u "Der " ++ [77; 252]%N ++ u "nchen Politiker 2024")
  = [u "muenchen"; u "politiker"; u "2024"].
Proof. reflexivity. Qed.

Example tokenize_doc2 :
  tokenize (u "Baden-W" ++ [252]%N ++ u "rttemberg")
  = [u "baden-wuerttemberg"; u "baden"; u "wuerttemberg"].
Proof. reflexivity. Qed.

Example tokenize_stopwords : tokenize (u "der die das") = [].
Proof. reflexivity. Qed.












(** ** Strings: equality and the code-unit order *)

Lemma str_eqb_eq a b : str_eqb a b = true <-> a = b.
Proof.
  unfold str_eqb. destruct (list_eq_dec N.eq_dec a b); split; congruence.
Qed.

Lemma str_eqb_refl a : str_eqb a a = true.
Proof. now apply str_eqb_eq. Qed.

Lemma str_eqb_neq a b : str_eqb a b = false <-> a <> b.
Proof.
  unfold str_eqb. destruct (list_eq_dec N.eq_dec a b); split; congruence.
Qed.

Lemma str_eqb_sym a b : str_eqb a b = str_eqb b a.
Proof.
  destruct (str_eqb b a) eqn:E.
  - apply str_eqb_eq in E. subst. apply str_eqb_refl.
  - apply str_eqb_neq in E. apply str_eqb_neq. congruence.
Qed.

Lemma includes_In x l : includes x l = true <-> In x l.
Proof.
  unfold includes. rewrite existsb_exists. split.
  - intros (y & Hy & E). apply str_eqb_eq in E. now subst.
  - intros H. exists x. split; [assumption|apply str_eqb_refl].
Qed.

Lemma str_ltb_irrefl a : str_ltb a a = false.
Proof.
  induction a as [|x a IH]; [reflexivity|].
  cbn. now rewrite N.ltb_irrefl, N.eqb_refl.
Qed.

Lemma str_ltb_trans a b c :
  str_ltb a b = true -> str_ltb b c = true -> str_ltb a c = true.
Proof.
  revert b c. induction a as [|x a IH]; intros [|y b] [|z c]; cbn; try congruence.
  destruct (N.ltb_spec x y), (N.ltb_spec y z), (N.ltb_spec x z);
    destruct (N.eqb_spec x y), (N.eqb_spec y z); try lia; try congruence;
    intros; subst; try lia; try reflexivity.
  destruct (N.eqb_spec z z); [eauto|congruence].
Qed.

Lemma str_ltb_total a b :
  str_ltb a b = false -> str_ltb b a = false -> a = b.
Proof.
  revert b. induction a as [|x a IH]; intros [|y b]; cbn; try congruence.
  destruct (N.ltb_spec x y), (N.ltb_spec y x);
    destruct (N.eqb_spec x y), (N.eqb_spec y x); try lia; try congruence.
  intros. subst. f_equal. now apply IH.
Qed.

Lemma str_ltb_asym a b : str_ltb a b = true -> str_ltb b a = false.
Proof.
  intros H. destruct (str_ltb b a) eqn:E; [|reflexivity].
  pose proof (str_ltb_trans _ _ _ H E) as T. now rewrite str_ltb_irrefl in T.
Qed.

(** [str_leb] is the reflexive closure of [str_ltb]. *)
Lemma str_leb_iff a b :
  str_leb a b = true <-> a = b \/ str_ltb a b = true.
Proof.
  unfold str_leb. rewrite negb_true_iff. split.
  - intros H. destruct (str_ltb a b) eqn:E; [now right|left].
    now apply str_ltb_total.
  - intros [->|H]; [apply str_ltb_irrefl|now apply str_ltb_asym].
Qed.

(** ** The filter layer *)

Lemma applyFilters_In items credit dateFrom dateTo selected h :
  In h (applyFilters items credit dateFrom dateTo selected) <->
  In h items /\ keepItem credit dateFrom dateTo selected (h_item h) = true.
Proof. unfold applyFilters. apply filter_In. Qed.

Lemma nonEmpty_false s : nonEmpty s = false <-> s = [].
Proof. destruct s; split; intros; congruence || reflexivity || discriminate. Qed.

(** C1 (as amended).  A date bound never removes a record whose [dateISO]
    is empty.  With a non-empty lower bound [d] the filter keeps, among the
    records the other filters keep, exactly those whose [dateISO] is empty or
    not below [d] in the code-unit order; with a non-empty upper bound,
    exactly those whose [dateISO] is empty or not above [d]. *)
Theorem date_bounds_filter
    (items : list Hit) (credit dateFrom dateTo : option jsstring)
    (selected : list jsstring) (h : Hit) (d : jsstring) :
  d <> [] ->
  (In h (applyFilters items credit (Some d) dateTo selected) <->
   In h (applyFilters items credit None dateTo selected)
   /\ (dateISO (h_item h) = [] \/ str_leb d (dateISO (h_item h)) = true))
  /\
  (In h (applyFilters items credit dateFrom (Some d) selected) <->
   In h (applyFilters items credit dateFrom None selected)
   /\ (dateISO (h_item h) = [] \/ str_leb (dateISO (h_item h)) d = true)).
Proof.
  intros Hd. rewrite !applyFilters_In.
  assert (Ht : truthy (Some d) = true) by (destruct d; [contradiction|reflexivity]).
  unfold keepItem, str_leb. rewrite Ht. cbn [truthy orDefault andb].
  set (iso := dateISO (h_item h)).
  split.
  - destruct (truthy credit && negb (str_eqb (fotografen (h_item h)) (orDefault credit [])));
      [intuition discriminate|].
    destruct iso as [|c iso'] eqn:Eiso; cbn [nonEmpty andb].
    + intuition.
    + destruct (str_ltb (c :: iso') d); cbn [negb].
      * intuition discriminate.
      * intuition.
  - destruct (truthy credit && negb (str_eqb (fotografen (h_item h)) (orDefault credit [])));
      [intuition discriminate|].
    destruct (truthy dateFrom && nonEmpty iso && str_ltb iso (orDefault dateFrom []));
      [intuition discriminate|].
    destruct iso as [|c iso'] eqn:Eiso; cbn [nonEmpty andb].
    + intuition.
    + destruct (str_ltb d (c :: iso')); cbn [negb].
      * intuition discriminate.
      * intuition.
Qed.

(** C1 as stated fails: a record with an empty [dateISO] passes a lower
    bound, although its date is not a non-empty string at or above it. *)
Lemma date_bound_counterexample :
  let h := mkHit (mkItem (u "id-1") (u "Berlin") (u "IMAGO") [] 600 800 []
                         (u "berlin") [] (u "imago")) 0%float [] in
  let d1 := u "2024-01-01" in
  ~ (In h (applyFilters [h] None (Some d1) None []) <->
     dateISO (h_item h) <> [] /\ str_leb d1 (dateISO (h_item h)) = true).
Proof.
  intros h d1 [H _].
  assert (Hin : In h (applyFilters [h] None (Some d1) None [])) by (left; reflexivity).
  destruct (H Hin) as [Hne _]. now apply Hne.
Qed.


(** ** Browse mode *)

Lemma arr_set_at_end (A : Type) (a : jsarray A) (x : A) :
  arr_set (length a) x a = a ++ [Some x].
Proof. induction a as [|y a IH]; cbn; [reflexivity|now rewrite IH]. Qed.

Lemma documents_addAll corpus : forall id ix,
  length (documents ix) = id ->
  documents (addAll id corpus ix) = documents ix ++ map Some corpus.
Proof.
  induction corpus as [|doc corpus IH]; intros id ix Hlen; cbn [addAll map].
  - now rewrite app_nil_r.
  - rewrite IH.
    + cbn [addDocument documents]. rewrite <- Hlen, arr_set_at_end.
      now rewrite <- app_assoc.
    + cbn [addDocument documents]. rewrite <- Hlen, arr_set_at_end.
      rewrite length_app. cbn. lia.
Qed.

Lemma documents_buildIndex corpus :
  getAllDocuments (buildIndex corpus) = map Some corpus.
Proof.
  unfold getAllDocuments, buildIndex. cbn [finalizeIndex documents].
  now rewrite (documents_addAll corpus 0 newInvertedIndex eq_refl).
Qed.

Lemma arr_mapi_from_dense (A B : Type) (f : A -> nat -> B) (l : list A) :
  forall i,
  arr_mapi_from f i (map Some l)
  = map Some (map (fun p => f (snd p) (fst p)) (combine (seq i (length l)) l)).
Proof.
  induction l as [|x l IH]; intros i; cbn; [reflexivity|].
  now rewrite IH.
Qed.

Lemma tokenize_nil_length q : tokenize q = [] -> (length (tokenize q) =? 0)%nat = true.
Proof. now intros ->. Qed.

Section Browse.
Context {X : Externals}.

(** C3.  On the index built over a corpus, a query that tokenizes to the
    empty list returns one result per document of the corpus, in document
    order with the position as id, each with score 0 and no matched terms
    (so exactly as many results as documents); the cache is not touched. *)
Theorem search_browse_mode
    (corpus : list ProcessedMediaItem) (query : jsstring)
    (config : option PartialSearchConfig) (idfCache : IdfCache) :
  tokenize query = [] ->
  search query (buildIndex corpus) config idfCache
  = (map Some (browseResults corpus), idfCache)
  /\ length (browseResults corpus) = length corpus.
Proof.
  intros Hq. split.
  - unfold search. rewrite (tokenize_nil_length query Hq).
    rewrite documents_buildIndex. unfold arr_mapi, browseResults.
    now rewrite arr_mapi_from_dense.
  - unfold browseResults.
    now rewrite length_map, length_combine, length_seq, Nat.min_id.
Qed.

Lemma hits_of_browse (a : jsarray ProcessedMediaItem) : forall i,
  map (fun r => mkHit (item r) (score r) (matchedTerms r))
      (arr_dense (arr_mapi_from (fun doc id => mkResult id doc 0%float []) i a))
  = map (fun doc => mkHit doc 0%float []) (arr_dense a).
Proof.
  induction a as [|o a IH]; intros i; [reflexivity|].
  destruct o as [doc|]; cbn -[PrimFloat.of_uint63].
  - f_equal. apply IH.
  - apply IH.
Qed.

(** C2 (as amended).  For a query that tokenizes to the empty list (a
    query of stopwords in particular) the handler starts from the same
    list as for the empty query: every document with score 0.  With an
    explicit sort both give the same output.  Without one, the default
    newest-first order is applied only when the raw query is empty after
    trimming; a stopword-only query is left in document order. *)
Theorem stopword_query_pipeline
    (ix : InvertedIndex) (q : jsstring)
    (credit dateFrom dateTo : option jsstring) (selected : list jsstring)
    (sortParam : option jsstring) (idfCache : IdfCache) :
  tokenize q = [] ->
  let filtered := applyFilters (browseHits ix) credit dateFrom dateTo selected in
  GET ix (Some q) credit dateFrom dateTo selected sortParam idfCache
  = (match parseSort sortParam with
     | Some order => sortByDate filtered order
     | None => if nonEmpty (trim q) then filtered
               else sortByDate filtered desc
     end, idfCache)
  /\
  GET ix None credit dateFrom dateTo selected sortParam idfCache
  = (match parseSort sortParam with
     | Some order => sortByDate filtered order
     | None => sortByDate filtered desc
     end, idfCache).
Proof.
  intros Hq filtered. split.
  - unfold GET.
    assert (Eq : (if truthy (Some q) then orDefault (Some q) [] else []) = q)
      by (destruct q; reflexivity).
    rewrite Eq.
    destruct (nonEmpty (trim q)) eqn:Et.
    + unfold search. rewrite (tokenize_nil_length q Hq).
      unfold arr_mapi. rewrite hits_of_browse. fold (browseHits ix).
      fold filtered. now destruct (parseSort sortParam).
    + fold (browseHits ix). fold filtered.
      now destruct (parseSort sortParam).
  - unfold GET. cbn [truthy]. change (nonEmpty (trim [])) with false.
    cbn iota. fold (browseHits ix). fold filtered.
    now destruct (parseSort sortParam).
Qed.
End Browse.


(** C2 as stated fails: without an explicit sort the stopword query ["der"]
    leaves the two documents in document order, while the empty query puts
    the newer one first. *)
Lemma stopword_query_counterexample :
  fst (@GET plainExternals (buildIndex [doc_jan; doc_mar])
         (Some (u "der")) None None None [] None emptyCache)
  <>
  fst (@GET plainExternals (buildIndex [doc_jan; doc_mar])
         (Some []) None None None [] None emptyCache).
Proof. intros H. vm_compute in H. discriminate H. Qed.

(** ** Sorting *)

Section SortFacts.
Variable A : Type.
Variable cmp : A -> A -> Z.

Lemma sort_insert_perm x l : Permutation (sort_insert cmp x l) (x :: l).
Proof.
  induction l as [|y l IH]; cbn; [reflexivity|].
  destruct (0 <? cmp x y)%Z; [|reflexivity].
  rewrite IH. apply perm_swap.
Qed.

Lemma js_sort_perm l : Permutation (js_sort cmp l) l.
Proof.
  induction l as [|x l IH]; cbn; [reflexivity|].
  rewrite sort_insert_perm. now constructor.
Qed.

Lemma js_sort_In x l : In x (js_sort cmp l) <-> In x l.
Proof.
  split; apply Permutation_in;
    [apply js_sort_perm|apply Permutation_sym, js_sort_perm].
Qed.
End SortFacts.


Lemma str_le_trans a b c : str_le a b -> str_le b c -> str_le a c.
Proof.
  unfold str_le. intros Hab Hbc.
  destruct (str_ltb c a) eqn:Hca; [|reflexivity].
  destruct (str_ltb a b) eqn:Hlt.
  - pose proof (str_ltb_trans _ _ _ Hca Hlt). congruence.
  - pose proof (str_ltb_total _ _ Hlt Hab). subst. congruence.
Qed.

Lemma codeUnitCompare_pos x y :
  (0 <? codeUnitCompare x y)%Z = str_ltb y x.
Proof.
  unfold codeUnitCompare. destruct (str_ltb x y) eqn:Hxy.
  - now rewrite (str_ltb_asym _ _ Hxy).
  - now destruct (str_ltb y x).
Qed.

Lemma sort_insert_sorted x l :
  StronglySorted str_le l ->
  StronglySorted str_le (sort_insert codeUnitCompare x l).
Proof.
  induction 1 as [|y l Hs IH Hy]; cbn.
  - repeat constructor.
  - rewrite codeUnitCompare_pos. destruct (str_ltb y x) eqn:Hyx.
    + constructor; [assumption|].
      apply (Permutation_Forall (Permutation_sym (sort_insert_perm _ _ x l))).
      constructor; [|assumption].
      unfold str_le. now apply str_ltb_asym.
    + constructor; [now constructor|].
      constructor; [exact Hyx|].
      eapply Forall_impl; [|exact Hy].
      intros z Hz. now apply (str_le_trans x y z).
Qed.

Lemma js_sort_sorted l : StronglySorted str_le (js_sort codeUnitCompare l).
Proof.
  induction l as [|x l IH]; cbn; [constructor|now apply sort_insert_sorted].
Qed.

Lemma sorted_strict l :
  NoDup l -> StronglySorted str_le l -> StronglySorted str_lt l.
Proof.
  intros Hnd Hs. induction Hs as [|x l Hs IH Hx]; [constructor|].
  inversion Hnd as [|? ? Hnin Hnd']; subst.
  constructor; [now apply IH|].
  rewrite Forall_forall in *. intros y Hy.
  unfold str_lt. destruct (str_ltb x y) eqn:E; [reflexivity|].
  pose proof (str_ltb_total _ _ E (Hx y Hy)). subst. contradiction.
Qed.

(** ** Maps keep their keys distinct *)

Section MapFacts.
Variables (K V : Type) (keq : K -> K -> bool).
Hypothesis keq_eq : forall a b, keq a b = true <-> a = b.

Lemma map_get_In k (m : jsmap K V) v : map_get keq k m = Some v -> In (k, v) m.
Proof.
  induction m as [|[k' v'] m IH]; cbn; [discriminate|].
  destruct (keq k k') eqn:E.
  - apply keq_eq in E. subst. intros [= ->]. now left.
  - intros H. right. now apply IH.
Qed.


Lemma In_map_get k (m : jsmap K V) v :
  NoDup (map_keys m) -> In (k, v) m -> map_get keq k m = Some v.
Proof.
  induction m as [|[k' v'] m IH]; cbn; [contradiction|].
  intros Hnd [Heq|Hin]; inversion Hnd as [|? ? Hnin Hnd']; subst.
  - inversion Heq; subst. assert (E : keq k k = true) by now apply keq_eq.
    now rewrite E.
  - destruct (keq k k') eqn:E.
    + apply keq_eq in E. subst. exfalso. apply Hnin.
      change k' with (fst (k', v)). now apply in_map.
    + now apply IH.
Qed.

Lemma map_keys_set k v (m : jsmap K V) :
  map_keys (map_set keq k v m)
  = if existsb (keq k) (map_keys m) then map_keys m else map_keys m ++ [k].
Proof.
  induction m as [|[k' v'] m IH]; cbn; [reflexivity|].
  destruct (keq k k') eqn:E; cbn; [reflexivity|].
  unfold map_keys in IH. rewrite IH.
  now destruct (existsb (keq k) (map fst m)).
Qed.

Lemma map_set_NoDup k v (m : jsmap K V) :
  NoDup (map_keys m) -> NoDup (map_keys (map_set keq k v m)).
Proof.
  intros Hnd. rewrite map_keys_set.
  destruct (existsb (keq k) (map_keys m)) eqn:E; [assumption|].
  apply NoDup_app; [assumption|repeat constructor; intros []|].
  intros x Hx [<-|[]].
  assert (existsb (keq k) (map_keys m) = true); [|congruence].
  apply existsb_exists. exists k. split; [assumption|now apply keq_eq].
Qed.
End MapFacts.

(** ** The vocabulary *)


Lemma indexTokens_distinct index id tokens :
  distinctTerms index -> distinctTerms (indexTokens index id tokens).
Proof.
  unfold distinctTerms, indexTokens. cbn [termPostings].
  generalize (countTokens tokens) as tf, (termPostings index) as tp.
  induction tf as [|[term freq] tf IH]; intros tp Hnd; cbn [fold_left];
    [assumption|].
  apply IH. destruct (map_get str_eqb term tp);
    apply (map_set_NoDup _ _ str_eqb str_eqb_eq); assumption.
Qed.


Lemma addDocument_distinct id doc ix :
  distinctAll ix -> distinctAll (addDocument id doc ix).
Proof.
  intros H [| |]; cbn; apply indexTokens_distinct;
    [apply (H F_suchtext)|apply (H F_fotografen)|apply (H F_bildnummer)].
Qed.

Lemma addDocuments_distinct calls : forall ix,
  distinctAll ix -> distinctAll (addDocuments calls ix).
Proof.
  induction calls as [|c calls IH]; intros ix H; cbn; [assumption|].
  apply IH. now apply addDocument_distinct.
Qed.

Lemma new_distinct : distinctAll newInvertedIndex.
Proof. intros [| |]; constructor. Qed.

Lemma termsSorted_finalize f ix :
  termsSorted f (finalizeIndex ix) = sortedKeys (getFieldIndex f ix).
Proof. now destruct f. Qed.

Lemma termPostings_finalize f ix :
  termPostings (getFieldIndex f (finalizeIndex ix))
  = termPostings (getFieldIndex f ix).
Proof. now destruct f. Qed.

Lemma codePoints_no_surrogates s : noSurrogates s -> codePoints s = s.
Proof.
  unfold noSurrogates.
  induction s as [|c s IH]; [reflexivity|].
  cbn [forallb]. intros H. apply andb_true_iff in H as [Hc Hs].
  specialize (IH Hs). cbn [codePoints].
  destruct s as [|c' s']; [reflexivity|].
  replace ((55296 <=? c)%N && (c <=? 56319)%N && (56320 <=? c')%N
           && (c' <=? 57343)%N) with false; [now rewrite IH|].
  unfold isSurrogate in Hc. apply negb_true_iff in Hc.
  destruct (N.leb_spec 55296 c), (N.leb_spec c 57343), (N.leb_spec c 56319);
    cbn in *; try reflexivity; try discriminate; lia.
Qed.

Lemma sorted_by_code_points l :
  Forall noSurrogates l -> StronglySorted str_lt l ->
  StronglySorted codePoint_lt l.
Proof.
  intros Hall Hs. induction Hs as [|x l Hs IH Hx]; [constructor|].
  inversion Hall as [|? ? Hx0 Hl]; subst.
  constructor; [now apply IH|].
  rewrite Forall_forall in *. intros y Hy. unfold codePoint_lt.
  rewrite (codePoints_no_surrogates x Hx0), (codePoints_no_surrogates y (Hl y Hy)).
  now apply Hx.
Qed.

(** C8 (as amended).  After [finalizeIndex], whatever documents were added
    before, the sorted term array of a field is a rearrangement of the keys
    of the field's postings map, has no duplicates, and is strictly ascending
    in the order of UTF-16 code units; that is ascending in code points as
    well when no term holds a surrogate. *)
Theorem sorted_vocabulary
    (calls : list (nat * ProcessedMediaItem)) (f : Field) :
  let ix := finalizeIndex (addDocuments calls newInvertedIndex) in
  Permutation (termsSorted f ix) (map_keys (termPostings (getFieldIndex f ix)))
  /\ NoDup (termsSorted f ix)
  /\ StronglySorted str_lt (termsSorted f ix)
  /\ (Forall noSurrogates (termsSorted f ix) ->
      StronglySorted codePoint_lt (termsSorted f ix)).
Proof.
  intros ix. subst ix.
  rewrite termsSorted_finalize, termPostings_finalize. unfold sortedKeys.
  set (keys := map_keys (termPostings (getFieldIndex f (addDocuments calls newInvertedIndex)))).
  assert (Hnd : NoDup keys)
    by apply (addDocuments_distinct calls _ new_distinct f).
  assert (Hp : Permutation (js_sort codeUnitCompare keys) keys)
    by apply js_sort_perm.
  assert (Hnd' : NoDup (js_sort codeUnitCompare keys))
    by (apply (Permutation_NoDup (Permutation_sym Hp)); assumption).
  assert (Hs : StronglySorted str_lt (js_sort codeUnitCompare keys))
    by (apply sorted_strict; [assumption|apply js_sort_sorted]).
  repeat split; try assumption.
  intros Hall. now apply sorted_by_code_points.
Qed.

(** C8 as stated fails on code points: a term of two fullwidth tildes
    (U+FF5E) and a term that is one code point above U+FFFF (the surrogate
    pair D83D DE00) are stored with the surrogate pair first, which is
    descending in code points. *)
Lemma code_point_order_counterexample :
  ~ StronglySorted codePoint_lt
      (termsSorted F_suchtext (buildIndex [doc_astral])).
Proof.
  assert (E : termsSorted F_suchtext (buildIndex [doc_astral])
              = [[55357; 56832]; [65374; 65374]]%N) by (vm_compute; reflexivity).
  rewrite E. intros H.
  inversion H as [|? ? _ Hall]; subst.
  inversion Hall as [|? ? Hlt _]; subst.
  unfold codePoint_lt in Hlt. vm_compute in Hlt. discriminate Hlt.
Qed.

(** ** Prefix lookup *)

Lemma startsWith_not_below p t :
  startsWith p t = true -> str_ltb t p = false.
Proof.
  revert t. induction p as [|x p IH]; intros [|y t]; cbn; try congruence.
  intros H. apply andb_true_iff in H as [E H]. apply N.eqb_eq in E. subst y.
  rewrite N.ltb_irrefl, N.eqb_refl. now apply IH.
Qed.

(** Beyond the first term that is not below [p] and does not start with
    [p], no term starts with [p]. *)
Lemma past_prefix_range p : forall a b,
  str_ltb a p = false -> startsWith p a = false -> str_ltb b a = false ->
  startsWith p b = false.
Proof.
  induction p as [|x p IH]; intros [|y a] [|z b]; cbn; try congruence.
  destruct (N.ltb_spec y x), (N.eqb_spec y x), (N.ltb_spec z y),
    (N.eqb_spec z y), (N.eqb_spec x y), (N.eqb_spec x z);
    cbn [andb]; try congruence; try lia.
  intros. now apply (IH a b).
Qed.

Lemma midpoint_between lo hi :
  (0 <= lo < hi)%Z -> (hi < 2 ^ 31)%Z ->
  (lo <= midpoint lo hi < hi)%Z.
Proof.
  intros H Hhi. unfold midpoint.
  rewrite Z.mod_small by lia.
  rewrite Z.shiftr_div_pow2 by lia. change (2 ^ 1)%Z with 2%Z.
  split.
  - apply Z.div_le_lower_bound; lia.
  - apply Z.div_lt_upper_bound; lia.
Qed.

Section LowerBound.
Variable p : jsstring.
Let below (t : jsstring) : Prop := str_ltb t p = true.
Let notBelow (t : jsstring) : Prop := str_ltb t p = false.

Lemma sorted_split ts :
  StronglySorted str_le ts ->
  exists front back,
    ts = front ++ back /\ Forall below front /\ Forall notBelow back.
Proof.
  induction 1 as [|x ts Hs IH Hx].
  - exists [], []. repeat split; constructor.
  - destruct (str_ltb x p) eqn:E.
    + destruct IH as (front & back & -> & Hf & Hb).
      exists (x :: front), back. repeat split; [now constructor|assumption].
    + exists [], (x :: ts). repeat split; [constructor|].
      constructor; [exact E|].
      eapply Forall_impl; [|exact Hx].
      intros y Hy. unfold notBelow.
      destruct (str_ltb y p) eqn:Ey; [|reflexivity].
      destruct (str_ltb x y) eqn:Exy.
      * pose proof (str_ltb_trans _ _ _ Exy Ey). congruence.
      * pose proof (str_ltb_total _ _ Exy Hy). subst. congruence.
Qed.

(** The loop ends on the number of terms below the prefix; a fuel of
    [hi - lo] is enough. *)
Lemma lowerBound_spec front back : 
  Forall below front -> Forall notBelow back ->
  (Z.of_nat (length (front ++ back)) < 2 ^ 31)%Z ->
  forall fuel lo hi,
  (0 <= lo <= Z.of_nat (length front))%Z ->
  (Z.of_nat (length front) <= hi <= Z.of_nat (length (front ++ back)))%Z ->
  (hi - lo <= Z.of_nat fuel)%Z ->
  lowerBound fuel (front ++ back) p lo hi = Z.of_nat (length front).
Proof.
  intros Hf Hb Hn.
  induction fuel as [|fuel IH]; intros lo hi Hlo Hhi Hfuel; cbn [lowerBound].
  - lia.
  - destruct (Z.ltb_spec lo hi) as [Hlt|Hge]; [|lia].
    pose proof (midpoint_between lo hi) as Hm.
    specialize (Hm ltac:(lia) ltac:(lia)).
    set (mid := midpoint lo hi) in *.
    destruct (Z.lt_ge_cases mid (Z.of_nat (length front))) as [Hin|Hout].
    + assert (Hnth : exists t, nth_error (front ++ back) (Z.to_nat mid) = Some t
                               /\ In t front).
      { destruct (nth_error front (Z.to_nat mid)) as [t|] eqn:E.
        - exists t. split; [|now apply nth_error_In in E].
          rewrite nth_error_app1; [assumption|lia].
        - apply nth_error_None in E. lia. }
      destruct Hnth as (t & -> & Ht).
      rewrite Forall_forall in Hf. rewrite (Hf t Ht).
      apply IH; lia.
    + assert (Hnth : exists t, nth_error (front ++ back) (Z.to_nat mid) = Some t
                               /\ In t back).
      { rewrite nth_error_app2 by lia.
        destruct (nth_error back (Z.to_nat mid - length front)) as [t|] eqn:E.
        - exists t. split; [reflexivity|now apply nth_error_In in E].
        - apply nth_error_None in E. rewrite length_app in Hhi. lia. }
      destruct Hnth as (t & -> & Ht).
      rewrite Forall_forall in Hb. rewrite (Hb t Ht).
      apply IH; lia.
Qed.

Lemma no_hits_in_front front :
  Forall below front -> filter (startsWith p) front = [].
Proof.
  induction 1 as [|x front Hx _ IH]; [reflexivity|]. cbn.
  destruct (startsWith p x) eqn:E; [|assumption].
  apply startsWith_not_below in E. unfold below in Hx. congruence.
Qed.

Lemma no_hits_after x back :
  notBelow x -> startsWith p x = false -> Forall (str_le x) back ->
  filter (startsWith p) back = [].
Proof.
  intros Hxp E. induction 1 as [|y back Hy _ IH]; [reflexivity|].
  cbn. now rewrite (past_prefix_range p x y Hxp E Hy).
Qed.

Lemma hits_are_leading back :
  StronglySorted str_le back -> Forall notBelow back ->
  filter (startsWith p) back = leadingRun (startsWith p) back.
Proof.
  induction 1 as [|x back Hs IH Hx]; intros Hb; [reflexivity|].
  inversion Hb as [|? ? Hxp Hb']; subst. cbn.
  destruct (startsWith p x) eqn:E; [now rewrite IH|].
  now apply (no_hits_after x back).
Qed.

Lemma collectPrefix_spec limit : forall rest matches,
  collectPrefix p limit rest matches
  = matches ++ firstn (Z.to_nat (limit - Z.of_nat (length matches)))
                      (leadingRun (startsWith p) rest).
Proof.
  induction rest as [|t rest IH]; intros matches; cbn [collectPrefix leadingRun].
  - now rewrite firstn_nil, app_nil_r.
  - destruct (Z.ltb_spec (Z.of_nat (length matches)) limit) as [Hlt|Hge].
    + destruct (startsWith p t).
      * rewrite IH, length_app. cbn [length].
        replace (Z.to_nat (limit - Z.of_nat (length matches)))
          with (S (Z.to_nat (limit - Z.of_nat (length matches + 1)))) by lia.
        cbn [firstn]. now rewrite <- app_assoc.
      * now rewrite firstn_nil, app_nil_r.
    + replace (Z.to_nat (limit - Z.of_nat (length matches))) with 0%nat by lia.
      now rewrite app_nil_r.
Qed.
End LowerBound.

Lemma StronglySorted_app_r (A : Type) (R : A -> A -> Prop) (l1 l2 : list A) :
  StronglySorted R (l1 ++ l2) -> StronglySorted R l2.
Proof.
  induction l1 as [|x l1 IH]; cbn; [trivial|].
  intros H. inversion H; subst. now apply IH.
Qed.

(** The lookup on any array that is ascending by code units. *)
Lemma prefix_terms_sorted (vocab : list jsstring) (p : jsstring) (limit : Z) :
  StronglySorted str_le vocab ->
  (Z.of_nat (length vocab) < 2 ^ 31)%Z ->
  collectPrefix p limit
    (skipn (Z.to_nat (lowerBound (length vocab) vocab p 0
                        (Z.of_nat (length vocab)))) vocab) []
  = firstn (Z.to_nat limit) (filter (startsWith p) vocab).
Proof.
  intros Hs Hn.
  destruct (sorted_split p vocab Hs) as (front & back & E & Hf & Hb).
  subst vocab.
  rewrite (lowerBound_spec p front back Hf Hb Hn) by (rewrite ?length_app; lia).
  rewrite Nat2Z.id, skipn_app, Nat.sub_diag, skipn_all. cbn [skipn app].
  rewrite collectPrefix_spec. cbn [length app]. rewrite Z.sub_0_r.
  rewrite filter_app, (no_hits_in_front p front Hf). cbn [app].
  now rewrite (hits_are_leading p back (StronglySorted_app_r _ _ _ _ Hs) Hb).
Qed.

Lemma firstn_min (A : Type) (l : list A) (n : Z) :
  firstn (Z.to_nat (Z.min n (Z.of_nat (length l)))) l = firstn (Z.to_nat n) l.
Proof.
  destruct (Z.le_ge_cases n (Z.of_nat (length l))).
  - now rewrite Z.min_l.
  - rewrite Z.min_r, Nat2Z.id, firstn_all by assumption.
    symmetry. apply firstn_all2. lia.
Qed.

(** C6.  On a finalized index whose vocabulary for the field has fewer than
    2^31 terms, [getPrefixTerms p f L] is the first [min L k] of the [k]
    vocabulary terms that start with [p], in vocabulary order, for a
    non-empty [p]; it is empty for an empty vocabulary, for an empty prefix
    and for the limit 0.  (The bound is what keeps [(lo + hi) >>> 1] the
    midpoint.) *)
Theorem prefix_terms
    (ix0 : InvertedIndex) (f : Field) (p : jsstring) (L : Z) :
  let ix := finalizeIndex ix0 in
  let vocab := termsSorted f ix in
  let hits := filter (startsWith p) vocab in
  (Z.of_nat (length vocab) < 2 ^ 31)%Z ->
  getPrefixTerms p f L ix
  = (if nonEmpty p
     then firstn (Z.to_nat (Z.min L (Z.of_nat (length hits)))) hits
     else [])
  /\ (vocab = [] -> getPrefixTerms p f L ix = [])
  /\ getPrefixTerms [] f L ix = []
  /\ getPrefixTerms p f 0 ix = [].
Proof.
  intros ix vocab hits Hn.
  assert (Hs : StronglySorted str_le vocab).
  { subst vocab ix. rewrite termsSorted_finalize. apply js_sort_sorted. }
  assert (Ev : termsSorted f ix = vocab) by reflexivity.
  subst hits. clearbody vocab.
  assert (Hmain : forall limit,
            getPrefixTerms p f limit ix
            = if nonEmpty p
              then firstn (Z.to_nat limit) (filter (startsWith p) vocab)
              else []).
  { intros limit. unfold getPrefixTerms. rewrite Ev.
    destruct (length vocab =? 0)%nat eqn:El.
    - apply Nat.eqb_eq, length_zero_iff_nil in El. rewrite El.
      cbn. rewrite firstn_nil. now destruct (nonEmpty p).
    - destruct (nonEmpty p); cbn [negb orb]; [|reflexivity].
      now apply prefix_terms_sorted. }
  repeat split.
  - rewrite Hmain. now rewrite firstn_min.
  - intros E. rewrite Hmain, E. cbn. rewrite firstn_nil.
    now destruct (nonEmpty p).
  - unfold getPrefixTerms. cbn [nonEmpty negb]. now rewrite orb_true_r.
  - rewrite Hmain. now destruct (nonEmpty p).
Qed.

(** ** The scoring loop as one sequence of calls *)

Lemma field_eqb_eq f g : field_eqb f g = true <-> f = g.
Proof. destruct f, g; cbn; split; congruence. Qed.

Section MapGetSet.
Variables (K V : Type) (keq : K -> K -> bool).
Hypothesis keq_eq : forall a b, keq a b = true <-> a = b.

Lemma keq_refl k : keq k k = true.
Proof. now apply keq_eq. Qed.

Lemma map_get_set k' k v (m : jsmap K V) :
  map_get keq k' (map_set keq k v m)
  = if keq k' k then Some v else map_get keq k' m.
Proof.
  induction m as [|[k0 v0] m IH]; cbn.
  - reflexivity.
  - destruct (keq k k0) eqn:E; cbn.
    + apply keq_eq in E. subst k0.
      now destruct (keq k' k).
    + rewrite IH. destruct (keq k' k0) eqn:E0; [|reflexivity].
      apply keq_eq in E0. subst k0.
      destruct (keq k' k) eqn:E1; [|reflexivity].
      apply keq_eq in E1. subst. rewrite keq_refl in E. discriminate.
Qed.
End MapGetSet.

Section SearchFacts.
Context {X : Externals}.

Lemma scorePrefixTerms_calls term field ix cfg prefixTerms st :
  scorePrefixTerms term field ix cfg prefixTerms st
  = fold_left (scoreCall ix cfg)
      (map (fun t => (t, field, true))
           (filter (fun t => negb (str_eqb t term)) prefixTerms)) st.
Proof.
  unfold scorePrefixTerms. revert st.
  induction prefixTerms as [|t l IH]; intros st; cbn [fold_left filter map];
    [reflexivity|].
  destruct (str_eqb t term); cbn [negb fold_left map]; apply IH.
Qed.

Lemma scoreQueryTerm_calls ix cfg st term :
  scoreQueryTerm ix cfg st term
  = fold_left (scoreCall ix cfg) (scoreCalls ix cfg term) st.
Proof.
  unfold scoreQueryTerm, scoreCalls. rewrite fold_left_app.
  cbn [fold_left scoreCall].
  destruct (minPrefixLength cfg <=? Z.of_nat (length term))%Z; [|reflexivity].
  unfold expansionCalls. rewrite !fold_left_app.
  now rewrite !scorePrefixTerms_calls.
Qed.

Lemma queryTerms_calls ix cfg queryTerms : forall st,
  fold_left (scoreQueryTerm ix cfg) queryTerms st
  = fold_left (scoreCall ix cfg) (flat_map (scoreCalls ix cfg) queryTerms) st.
Proof.
  induction queryTerms as [|t l IH]; intros st; cbn [fold_left flat_map];
    [reflexivity|].
  now rewrite fold_left_app, IH, scoreQueryTerm_calls.
Qed.

(** ** The cache does not change what a query returns *)





Lemma search_unfold query ix config idfCache :
  search query ix config idfCache
  = if (length (tokenize query) =? 0)%nat
    then (arr_mapi (fun doc id => mkResult id doc 0%float [])
            (getAllDocuments ix), idfCache)
    else
      let st := fold_left (scoreCall ix (mergeConfig config))
                  (allScoreCalls ix (mergeConfig config) query)
                  (([] : DocScores), idfCache) in
      (map Some (js_sort byScoreThenDate (collectResults ix (fst st))),
       snd st).
Proof.
  unfold search, allScoreCalls.
  destruct (length (tokenize query) =? 0)%nat; [reflexivity|].
  rewrite queryTerms_calls.
  now destruct (fold_left (scoreCall ix (mergeConfig config)) _ _).
Qed.



End SearchFacts.

(** ** Matched terms *)

Lemma set_add_In x y s : In y (set_add x s) <-> y = x \/ In y s.
Proof.
  unfold set_add. destruct (includes x s) eqn:E.
  - apply includes_In in E. split; [now right|]. intros [->|H]; assumption.
  - rewrite in_app_iff. cbn. intuition.
Qed.

Lemma set_add_NoDup x s : NoDup s -> NoDup (set_add x s).
Proof.
  intros H. unfold set_add. destruct (includes x s) eqn:E; [assumption|].
  apply NoDup_app; [assumption|repeat constructor; intros []|].
  intros y Hy [<-|[]]. apply includes_In in Hy. congruence.
Qed.

Lemma termsTrack_ext ds (S S' : jsstring -> nat -> Prop) :
  (forall t id, S t id <-> S' t id) -> termsTrack ds S -> termsTrack ds S'.
Proof.
  intros HS H id. specialize (H id).
  destruct (map_get Nat.eqb id ds) as [e|].
  - destruct H as [H Hnd]. split; [|assumption].
    intros t. now rewrite H.
  - intros t. now rewrite <- HS.
Qed.

Section MatchedTerms.
Context {X : Externals}.

Lemma accumulate_keys term fi cfg idf fw pm ds p :
  NoDup (map_keys ds) ->
  NoDup (map_keys (accumulate term fi cfg idf fw pm ds p)).
Proof.
  intros H. unfold accumulate.
  destruct (map_get Nat.eqb (p_docId p) ds);
    apply (map_set_NoDup _ _ Nat.eqb Nat.eqb_eq); assumption.
Qed.

Lemma accumulate_track term fi cfg idf fw pm ds p S :
  termsTrack ds S ->
  termsTrack (accumulate term fi cfg idf fw pm ds p)
    (fun t id => S t id \/ (t = term /\ id = p_docId p)).
Proof.
  intros H id. unfold accumulate.
  pose proof (H id) as Hid. pose proof (H (p_docId p)) as Hp.
  destruct (map_get Nat.eqb (p_docId p) ds) as [e|] eqn:E;
    rewrite (map_get_set _ _ Nat.eqb Nat.eqb_eq);
    destruct (Nat.eqb_spec id (p_docId p)) as [->|Hne].
  - destruct Hp as [Hp Hnd]. cbn [terms]. split; [|now apply set_add_NoDup].
    intros t. rewrite set_add_In, Hp. intuition.
  - destruct (map_get Nat.eqb id ds) as [e'|].
    + destruct Hid as [Hid Hnd]. split; [|assumption].
      intros t. rewrite Hid. intuition.
    + intros t [Hs|[_ Heq]]; [now apply (Hid t)|contradiction].
  - cbn [terms]. split; [|repeat constructor; intros []].
    intros t. cbn. specialize (Hp t). intuition.
  - destruct (map_get Nat.eqb id ds) as [e'|].
    + destruct Hid as [Hid Hnd]. split; [|assumption].
      intros t. rewrite Hid. intuition.
    + intros t [Hs|[_ Heq]]; [now apply (Hid t)|contradiction].
Qed.

Lemma postings_track term fi cfg idf fw pm postings : forall ds S,
  termsTrack ds S ->
  termsTrack (fold_left (accumulate term fi cfg idf fw pm) postings ds)
    (fun t id => S t id
                 \/ (t = term /\ exists p, In p postings /\ p_docId p = id)).
Proof.
  induction postings as [|p ps IH]; intros ds S H; cbn [fold_left].
  - apply (termsTrack_ext ds S); [|assumption].
    intros t id. split; [now left|]. intros [Hs|[_ (p & [] & _)]]. assumption.
  - eapply termsTrack_ext;
      [|apply IH, (accumulate_track term fi cfg idf fw pm ds p S H)].
    cbn beta. intros t id. cbn [In]. split.
    + intros [[Hs|[-> ->]]|[-> (q & Hq & <-)]]; eauto 6.
    + intros [Hs|[-> (q & [<-|Hq] & <-)]]; eauto 6.
Qed.

Lemma postings_keys term fi cfg idf fw pm postings : forall ds,
  NoDup (map_keys ds) ->
  NoDup (map_keys (fold_left (accumulate term fi cfg idf fw pm) postings ds)).
Proof.
  induction postings as [|p ps IH]; intros ds H; cbn [fold_left];
    [assumption|].
  apply IH. now apply accumulate_keys.
Qed.

Lemma scoreTermInField_track term field ix cfg isPrefix st S :
  termsTrack (fst st) S ->
  termsTrack (fst (scoreTermInField term field ix cfg isPrefix st))
    (fun t id => S t id \/ (t = term /\ hasPosting ix field term id)).
Proof.
  destruct st as [ds c]. cbn [fst]. intros H.
  unfold scoreTermInField, hasPosting.
  destruct (map_get str_eqb term (termPostings (getFieldIndex field ix)))
    as [[|p ps]|] eqn:E; cbn [fst].
  - apply (termsTrack_ext ds S); [|assumption].
    intros t id. split; [now left|].
    intros [Hs|[_ (ps' & q & [= <-] & [] & _)]]. assumption.
  - destruct (getIDF term field (getFieldIndex field ix) c) as [idf c'].
    cbn [fst].
    eapply termsTrack_ext; [|apply postings_track, H].
    cbn beta. intros t id. split.
    + intros [Hs|[-> (q & Hq & <-)]]; [now left|right].
      split; [reflexivity|]. now exists (p :: ps), q.
    + intros [Hs|[-> (ps' & q & [= <-] & Hq & <-)]]; [now left|right].
      split; [reflexivity|]. now exists q.
  - apply (termsTrack_ext ds S); [|assumption].
    intros t id. split; [now left|].
    intros [Hs|[_ (ps' & q & [=] & _)]]. assumption.
Qed.

Lemma scoreTermInField_keys term field ix cfg isPrefix st :
  NoDup (map_keys (fst st)) ->
  NoDup (map_keys (fst (scoreTermInField term field ix cfg isPrefix st))).
Proof.
  destruct st as [ds c]. cbn [fst]. intros H. unfold scoreTermInField.
  destruct (map_get str_eqb term (termPostings (getFieldIndex field ix)))
    as [[|p ps]|]; cbn [fst]; try assumption.
  destruct (getIDF term field (getFieldIndex field ix) c) as [idf c'].
  cbn [fst]. now apply postings_keys.
Qed.

Lemma calls_track ix cfg calls : forall st S,
  termsTrack (fst st) S ->
  termsTrack (fst (fold_left (scoreCall ix cfg) calls st))
    (fun t id => S t id
                 \/ exists f isP, In (t, f, isP) calls /\ hasPosting ix f t id).
Proof.
  induction calls as [|[[term f] isP] calls IH]; intros st S H; cbn [fold_left].
  - apply (termsTrack_ext (fst st) S); [|assumption].
    intros t id. split; [now left|]. intros [Hs|(f & isP & [] & _)]. assumption.
  - cbn [scoreCall].
    eapply termsTrack_ext;
      [|apply IH, (scoreTermInField_track term f ix cfg isP st S H)].
    cbn beta. intros t id. cbn [In]. split.
    + intros [[Hs|[-> Hp]]|(f' & isP' & Hin & Hp)]; [now left|right|right].
      * exists f, isP. split; [now left|assumption].
      * exists f', isP'. split; [now right|assumption].
    + intros [Hs|(f' & isP' & [[= <- <- <-]|Hin] & Hp)].
      * left. now left.
      * left. right. now split.
      * right. now exists f', isP'.
Qed.

Lemma calls_keys ix cfg calls : forall st,
  NoDup (map_keys (fst st)) ->
  NoDup (map_keys (fst (fold_left (scoreCall ix cfg) calls st))).
Proof.
  induction calls as [|[[term f] isP] calls IH]; intros st H; cbn [fold_left];
    [assumption|].
  apply IH. cbn [scoreCall]. now apply scoreTermInField_keys.
Qed.

Lemma collectResults_In ix ds r :
  In r (collectResults ix ds) ->
  exists e, In (docId r, e) ds /\ matchedTerms r = terms e.
Proof.
  unfold collectResults. rewrite in_flat_map.
  intros ([id e] & Hin & Hr).
  destruct (getDocument id ix) as [doc|]; [|contradiction].
  destruct Hr as [<-|[]]. cbn. now exists e.
Qed.

Lemma arr_mapi_from_In (A B : Type) (f : A -> nat -> B) (a : jsarray A) y :
  forall i, In (Some y) (arr_mapi_from f i a) ->
            exists x j, y = f x j.
Proof.
  induction a as [|o a IH]; intros i; cbn; [contradiction|].
  intros [H|H]; [|now apply (IH (S i))].
  destruct o as [x|]; [|discriminate H]. injection H as <-. now exists x, i.
Qed.

Lemma posting_in_vocabulary ix0 f t id :
  hasPosting (finalizeIndex ix0) f t id ->
  In t (termsSorted f (finalizeIndex ix0)).
Proof.
  intros (ps & p & Hget & _). rewrite termPostings_finalize in Hget.
  rewrite termsSorted_finalize. unfold sortedKeys. apply js_sort_In.
  apply (map_get_In _ _ str_eqb str_eqb_eq) in Hget.
  change t with (fst (t, ps)). now apply in_map.
Qed.

(** C10.  On a finalized index, the matched terms of a returned result
    are exactly the terms that the query scored (a query token, or an
    expansion of one, in some field) and that have a posting for the
    result's document in that field; none is listed twice; and each is a
    term of some field's vocabulary.  So a match that comes from prefix
    expansion alone is recorded under the expanded term: a term without a
    posting for the document in any field is not listed. *)
Theorem matched_terms
    (ix0 : InvertedIndex) (query : jsstring)
    (config : option PartialSearchConfig) (idfCache : IdfCache)
    (r : SearchResult) :
  let ix := finalizeIndex ix0 in
  let cfg := mergeConfig config in
  In (Some r) (fst (search query ix config idfCache)) ->
  (forall t, In t (matchedTerms r) <->
             exists f isP, In (t, f, isP) (allScoreCalls ix cfg query)
                           /\ hasPosting ix f t (docId r))
  /\ NoDup (matchedTerms r)
  /\ (forall t, In t (matchedTerms r) -> exists f, In t (termsSorted f ix))
  /\ (forall t, (forall f, ~ hasPosting ix f t (docId r)) ->
                ~ In t (matchedTerms r)).
Proof.
  intros ix cfg Hin.
  assert (Hmain : (forall t, In t (matchedTerms r) <->
                     exists f isP, In (t, f, isP) (allScoreCalls ix cfg query)
                                   /\ hasPosting ix f t (docId r))
                  /\ NoDup (matchedTerms r)).
  { rewrite search_unfold in Hin. unfold allScoreCalls.
    destruct (length (tokenize query) =? 0)%nat eqn:El.
    - apply Nat.eqb_eq, length_zero_iff_nil in El. rewrite El. cbn [flat_map].
      cbn [fst] in Hin. unfold arr_mapi in Hin.
      apply arr_mapi_from_In in Hin as (doc & j & ->). cbn [matchedTerms].
      split; [|constructor].
      intros t. split; [intros []|]. intros (f & isP & [] & _).
    - cbn [fst] in Hin. apply in_map_iff in Hin as (r' & [= ->] & Hin).
      apply js_sort_In, collectResults_In in Hin as (e & Hin & ->).
      fold cfg in Hin. set (calls := allScoreCalls ix cfg query) in *.
      pose proof (calls_track ix cfg calls ([], idfCache) (fun _ _ => False))
        as Ht.
      pose proof (calls_keys ix cfg calls ([], idfCache)) as Hk.
      cbn [fst] in Ht, Hk.
      specialize (Hk ltac:(constructor)).
      specialize (Ht ltac:(intros id t; exact (fun F => F)) (docId r)).
      apply (In_map_get _ _ Nat.eqb Nat.eqb_eq _ _ _ Hk) in Hin.
      rewrite Hin in Ht. destruct Ht as [Ht Hnd]. split; [|assumption].
      intros t. rewrite Ht. fold calls. intuition. }
  destruct Hmain as [Hiff Hnd]. repeat split; try assumption.
  - now apply Hiff.
  - now apply Hiff.
  - intros t Ht. apply Hiff in Ht as (f & isP & _ & Hp).
    exists f. now apply (posting_in_vocabulary ix0 f t (docId r)).
  - intros t Hno Ht. apply Hiff in Ht as (f & isP & _ & Hp).
    now apply (Hno f).
Qed.
End MatchedTerms.

(* ================================================================= *)
(** * Further properties *)


(** ** Index construction *)

Lemma orDefault_None (A : Type) (d : A) : orDefault None d = d.
Proof. reflexivity. Qed.

Lemma countTokens_from tokens t : forall m,
  map_get str_eqb t
    (fold_left
       (fun termFreqs token =>
          map_set str_eqb token
            (orDefault (map_get str_eqb token termFreqs) 0 + 1) termFreqs)
       tokens m)
  = match occurrences t tokens with
    | O => map_get str_eqb t m
    | S n => Some (orDefault (map_get str_eqb t m) 0 + S n)
    end.
Proof.
  unfold occurrences.
  induction tokens as [|tok tokens IH]; intros m; cbn [fold_left filter length].
  - reflexivity.
  - rewrite IH, (map_get_set _ _ str_eqb str_eqb_eq).
    destruct (str_eqb t tok) eqn:E; cbn [length].
    + apply str_eqb_eq in E. subst tok. cbn [orDefault].
      destruct (length (filter (str_eqb t) tokens)); f_equal; lia.
    + reflexivity.
Qed.

Lemma countTokens_get tokens t :
  map_get str_eqb t (countTokens tokens)
  = match occurrences t tokens with O => None | S n => Some (S n) end.
Proof.
  unfold countTokens. rewrite countTokens_from. cbn.
  now destruct (occurrences t tokens).
Qed.

Lemma countTokens_distinct tokens : NoDup (map_keys (countTokens tokens)).
Proof.
  unfold countTokens.
  assert (H : forall m : jsmap jsstring nat,
             NoDup (map_keys m) ->
             NoDup (map_keys
                      (fold_left
                         (fun termFreqs token =>
                            map_set str_eqb token
                              (orDefault (map_get str_eqb token termFreqs) 0 + 1)
                              termFreqs) tokens m))).
  { induction tokens as [|tok tokens IH]; intros m Hm; cbn [fold_left];
      [assumption|].
    apply IH. now apply (map_set_NoDup _ _ str_eqb str_eqb_eq). }
  apply H. constructor.
Qed.



Lemma getFieldIndex_addDocument f id doc ix :
  getFieldIndex f (addDocument id doc ix)
  = indexTokens (getFieldIndex f ix) id (fieldTokens f doc).
Proof. now destruct f. Qed.

Lemma getFieldIndex_finalize f ix :
  getFieldIndex f (finalizeIndex ix) = withAvgDocLength (getFieldIndex f ix).
Proof. now destruct f. Qed.







(** ** Normal form *)







(** ** Tokens *)

Section Pieces.
Variable P : N -> Prop.





End Pieces.





(** ** What [getPostings] returns *)





(** ** Corpus statistics *)

Lemma map_set_fresh (K V : Type) (keq : K -> K -> bool) k v (m : jsmap K V) :
  existsb (keq k) (map_keys m) = false ->
  map_set keq k v m = m ++ [(k, v)].
Proof.
  induction m as [|[k' v'] m IH]; cbn; [reflexivity|].
  intros H. apply orb_false_iff in H as [E H]. rewrite E.
  now rewrite (IH H).
Qed.

Lemma addAll_docLengths f corpus : forall base ix,
  Forall (fun k => k < base)%nat (map_keys (docLengths (getFieldIndex f ix))) ->
  docLengths (getFieldIndex f (addAll base corpus ix))
  = docLengths (getFieldIndex f ix)
    ++ combine (seq base (length corpus)) (fieldLengths f corpus).
Proof.
  induction corpus as [|doc corpus IH]; intros base ix Hk; cbn [addAll].
  - cbn. now rewrite app_nil_r.
  - assert (Hfresh : existsb (Nat.eqb base)
                       (map_keys (docLengths (getFieldIndex f ix))) = false).
    { destruct (existsb _ _) eqn:E; [|reflexivity].
      apply existsb_exists in E as (k & Hin & Ek). apply Nat.eqb_eq in Ek. subst k.
      rewrite Forall_forall in Hk. specialize (Hk base Hin). lia. }
    assert (Hstep : docLengths (getFieldIndex f (addDocument base doc ix))
                    = docLengths (getFieldIndex f ix)
                      ++ [(base, length (fieldTokens f doc))]).
    { rewrite getFieldIndex_addDocument. unfold indexTokens. cbn [docLengths].
      now apply map_set_fresh. }
    rewrite IH.
    + rewrite Hstep, <- app_assoc. reflexivity.
    + rewrite Hstep. unfold map_keys. rewrite map_app. apply Forall_app. split.
      * eapply Forall_impl; [|exact Hk]. cbn. intros; lia.
      * repeat constructor.
Qed.

Lemma addAll_totalDocs f corpus : forall base ix,
  totalDocs (getFieldIndex f (addAll base corpus ix))
  = (totalDocs (getFieldIndex f ix) + length corpus)%nat.
Proof.
  induction corpus as [|doc corpus IH]; intros base ix; cbn [addAll length].
  - lia.
  - rewrite IH, getFieldIndex_addDocument. cbn [indexTokens totalDocs]. lia.
Qed.

Lemma map_get_combine_seq (l : list nat) : forall base id,
  map_get Nat.eqb id (combine (seq base (length l)) l)
  = if (base <=? id)%nat then nth_error l (id - base) else None.
Proof.
  induction l as [|x l IH]; intros base id; cbn [length seq combine map_get].
  - destruct (base <=? id)%nat; [|reflexivity]. now destruct (id - base)%nat.
  - destruct (Nat.eqb_spec id base) as [->|Hne].
    + now rewrite Nat.leb_refl, Nat.sub_diag.
    + rewrite IH. destruct (Nat.leb_spec base id), (Nat.leb_spec (S base) id);
        try lia; [|reflexivity].
      replace (id - base)%nat with (S (id - S base)) by lia. reflexivity.
Qed.

Lemma fold_add_sum l : forall a, fold_left Nat.add l a = (a + list_sum l)%nat.
Proof.
  induction l as [|x l IH]; intros a; cbn [fold_left]; [cbn; lia|].
  rewrite IH. change (list_sum (x :: l)) with (x + list_sum l)%nat. lia.
Qed.

(** X5.  The index of a corpus of [N] documents counts [N] documents in
    every field, records for document [id] the number of its tokens in the
    field (an entry also when there are none), stores the document at its
    id, and after [finalizeIndex] holds as average length the sum of those
    counts divided by [N], or 0 for the empty corpus. *)
Theorem corpus_statistics (corpus : list ProcessedMediaItem) (f : Field) :
  let index := getFieldIndex f (buildIndex corpus) in
  totalDocs index = length corpus
  /\ (forall id, map_get Nat.eqb id (docLengths index)
                 = nth_error (fieldLengths f corpus) id)
  /\ (forall id, getDocument id (buildIndex corpus) = nth_error corpus id)
  /\ avgDocLength index
     = if (length corpus =? 0)%nat then 0%float
       else PrimFloat.div (numberOfNat (list_sum (fieldLengths f corpus)))
                          (numberOfNat (length corpus)).
Proof.
  intros index.
  assert (Hn : totalDocs (getFieldIndex f (addAll 0 corpus newInvertedIndex))
               = length corpus).
  { rewrite addAll_totalDocs. now destruct f. }
  assert (Hd : docLengths (getFieldIndex f (addAll 0 corpus newInvertedIndex))
               = combine (seq 0 (length corpus)) (fieldLengths f corpus)).
  { rewrite addAll_docLengths; [now destruct f|]. destruct f; constructor. }
  subst index. unfold buildIndex. rewrite getFieldIndex_finalize.
  unfold withAvgDocLength. cbn [totalDocs docLengths avgDocLength].
  repeat split.
  - exact Hn.
  - intros id. rewrite Hd.
    replace (length corpus) with (length (fieldLengths f corpus))
      by (unfold fieldLengths; apply length_map).
    rewrite map_get_combine_seq. cbn. now rewrite Nat.sub_0_r.
  - intros id. unfold getDocument. cbn [finalizeIndex documents].
    rewrite (documents_addAll corpus 0 newInvertedIndex eq_refl).
    change (documents newInvertedIndex) with (@nil (option ProcessedMediaItem)).
    cbn [app]. unfold arr_get. rewrite nth_error_map. now destruct (nth_error corpus id).
  - unfold calculateAvgDocLength. rewrite Hn, Hd.
    destruct (length corpus =? 0)%nat; [reflexivity|].
    unfold map_values. rewrite fold_add_sum. cbn [Nat.add].
    f_equal. f_equal. f_equal.
    replace (length corpus) with (length (fieldLengths f corpus))
      by (unfold fieldLengths; apply length_map).
    generalize (fieldLengths f corpus) as l, 0%nat as base.
    induction l as [|x l IH]; intros base; [reflexivity|].
    cbn. now rewrite IH.
Qed.

(** ** Prefix lookup on any index *)

Lemma leadingRun_prefix (A : Type) (f : A -> bool) (l : list A) :
  exists rest, l = leadingRun f l ++ rest.
Proof.
  induction l as [|x l [rest IH]]; [now exists []|].
  cbn. destruct (f x); [|now exists (x :: l)].
  exists rest. cbn. now f_equal.
Qed.

Lemma leadingRun_all (A : Type) (f : A -> bool) (l : list A) :
  Forall (fun x => f x = true) (leadingRun f l).
Proof.
  induction l as [|x l IH]; [constructor|].
  cbn. destruct (f x) eqn:E; [now constructor|constructor].
Qed.

(** X6.  Whatever the index (finalized or not) and the limit,
    [getPrefixTerms] returns a run of consecutive entries of the field's
    sorted array, each starting with the prefix, and never more than
    [limit] of them. *)
Theorem prefix_terms_safe
    (ix : InvertedIndex) (p : jsstring) (f : Field) (L : Z) :
  let r := getPrefixTerms p f L ix in
  Forall (fun t => startsWith p t = true) r
  /\ (Z.of_nat (length r) <= Z.max 0 L)%Z
  /\ exists before after, termsSorted f ix = before ++ r ++ after.
Proof.
  intros r. subst r. unfold getPrefixTerms.
  destruct ((length (termsSorted f ix) =? 0)%nat || negb (nonEmpty p)).
  - repeat split; [constructor|cbn; lia|].
    now exists [], (termsSorted f ix).
  - set (lo := Z.to_nat (lowerBound (length (termsSorted f ix)) (termsSorted f ix)
                           p 0 (Z.of_nat (length (termsSorted f ix))))).
    rewrite collectPrefix_spec. cbn [app length]. rewrite Z.sub_0_r.
    set (run := leadingRun (startsWith p) (skipn lo (termsSorted f ix))).
    repeat split.
    + apply Forall_forall. intros t Ht.
      pose proof (leadingRun_all _ (startsWith p) (skipn lo (termsSorted f ix))) as H.
      rewrite Forall_forall in H. apply H. fold run.
      apply (In_nth_error) in Ht as [n Hn].
      assert (Hn' : nth_error run n = Some t).
      { rewrite nth_error_firstn in Hn.
        destruct (n <? Z.to_nat L)%nat; [assumption|discriminate]. }
      now apply nth_error_In in Hn'.
    + rewrite length_firstn. lia.
    + destruct (leadingRun_prefix _ (startsWith p) (skipn lo (termsSorted f ix)))
        as [rest Hrest]. fold run in Hrest.
      exists (firstn lo (termsSorted f ix)), (skipn (Z.to_nat L) run ++ rest).
      rewrite (app_assoc (firstn (Z.to_nat L) run)), firstn_skipn, <- Hrest.
      now rewrite firstn_skipn.
Qed.

Lemma termsSorted_addDocuments f calls : forall ix,
  termsSorted f (addDocuments calls ix) = termsSorted f ix.
Proof.
  induction calls as [|c calls IH]; intros ix; cbn; [reflexivity|].
  rewrite IH. now destruct f.
Qed.

(** X7.  Until [finalizeIndex] has run the sorted arrays are empty, so on an
    index that has only received documents [getPrefixTerms] returns nothing,
    whatever was indexed. *)
Theorem prefix_terms_before_finalize
    (calls : list (nat * ProcessedMediaItem)) (p : jsstring) (f : Field)
    (L : Z) :
  getPrefixTerms p f L (addDocuments calls newInvertedIndex) = [].
Proof.
  unfold getPrefixTerms. rewrite termsSorted_addDocuments.
  now destruct f.
Qed.

(** ** The lists behind the filter dropdowns *)

Lemma set_add_fold_In (l : list jsstring) x : forall s,
  In x (fold_left (fun s r => set_add r s) l s) <-> In x s \/ In x l.
Proof.
  induction l as [|y l IH]; intros s; cbn [fold_left In]; [tauto|].
  rewrite IH, set_add_In. intuition.
Qed.

Lemma set_add_fold_NoDup (l : list jsstring) : forall s,
  NoDup s -> NoDup (fold_left (fun s r => set_add r s) l s).
Proof.
  induction l as [|y l IH]; intros s H; cbn [fold_left]; [assumption|].
  apply IH. now apply set_add_NoDup.
Qed.

Lemma addAll_sets corpus : forall base ix,
  NoDup (photographers ix) -> NoDup (restrictionSet ix) ->
  (NoDup (photographers (addAll base corpus ix))
   /\ forall p, In p (photographers (addAll base corpus ix)) <->
                In p (photographers ix)
                \/ exists doc, In doc corpus /\ fotografen doc = p)
  /\ (NoDup (restrictionSet (addAll base corpus ix))
      /\ forall m, In m (restrictionSet (addAll base corpus ix)) <->
                   In m (restrictionSet ix)
                   \/ exists doc, In doc corpus /\ In m (restrictions doc)).
Proof.
  induction corpus as [|doc corpus IH]; intros base ix Hp Hr; cbn [addAll].
  - repeat split; try assumption; try tauto.
    + intros [H|(d & [] & _)]; assumption.
    + intros [H|(d & [] & _)]; assumption.
  - destruct (IH (S base) (addDocument base doc ix)) as [[Hp1 Hp2] [Hr1 Hr2]].
    + cbn. now apply set_add_NoDup.
    + cbn. now apply set_add_fold_NoDup.
    + repeat split; try assumption.
      * rewrite Hp2. cbn [addDocument photographers]. rewrite set_add_In.
        intros [[->|H]|(d & Hd & E)]; [right|now left|right].
        -- exists doc. split; [now left|reflexivity].
        -- exists d. split; [now right|assumption].
      * rewrite Hp2. cbn [addDocument photographers]. rewrite set_add_In.
        intros [H|(d & [<-|Hd] & E)]; [left; now right|left; now left|right].
        exists d. now split.
      * rewrite Hr2. cbn [addDocument restrictionSet]. rewrite set_add_fold_In.
        intros [[H|H]|(d & Hd & E)]; [now left|right|right].
        -- exists doc. split; [now left|assumption].
        -- exists d. split; [now right|assumption].
      * rewrite Hr2. cbn [addDocument restrictionSet]. rewrite set_add_fold_In.
        intros [H|(d & [<-|Hd] & E)]; [left; now left|left; now right|right].
        exists d. now split.
Qed.

(** X8.  On the index of a corpus, [getPhotographers] lists exactly the
    [fotografen] values of the documents and [getRestrictions] exactly the
    markers of their [restrictions] arrays, each value once, in ascending
    code-unit order. *)
Theorem dropdown_lists (corpus : list ProcessedMediaItem) :
  let ix := buildIndex corpus in
  (forall p, In p (getPhotographers ix) <->
             exists doc, In doc corpus /\ fotografen doc = p)
  /\ StronglySorted str_lt (getPhotographers ix)
  /\ (forall m, In m (getRestrictions ix) <->
                exists doc, In doc corpus /\ In m (restrictions doc))
  /\ StronglySorted str_lt (getRestrictions ix).
Proof.
  intros ix. subst ix. unfold getPhotographers, getRestrictions, buildIndex.
  cbn [finalizeIndex photographers restrictionSet].
  destruct (addAll_sets corpus 0 newInvertedIndex (NoDup_nil _) (NoDup_nil _))
    as [[Hp1 Hp2] [Hr1 Hr2]].
  repeat split.
  - intros H. apply js_sort_In, Hp2 in H as [[]|H]. exact H.
  - intros H. apply js_sort_In, Hp2. now right.
  - apply sorted_strict; [|apply js_sort_sorted].
    apply (Permutation_NoDup (Permutation_sym (js_sort_perm _ _ _))). exact Hp1.
  - intros H. apply js_sort_In, Hr2 in H as [[]|H]. exact H.
  - intros H. apply js_sort_In, Hr2. now right.
  - apply sorted_strict; [|apply js_sort_sorted].
    apply (Permutation_NoDup (Permutation_sym (js_sort_perm _ _ _))). exact Hr1.
Qed.

(** ** Restriction markers *)

Lemma markerScan_spec : forall s st len best n,
  markerScan st s len best = Some n ->
  best = Some n
  \/ (exists k, n = (len + k)%nat /\ (k <= length s)%nat
                /\ markerRest st (firstn k s) = true
                /\ (st = GroupRun \/ 0 < k)%nat).
Proof.
  induction s as [|c s IH]; intros st len best n H; cbn [markerScan] in H.
  - now left.
  - destruct st.
    + destruct (isUpper c) eqn:Eu.
      * apply IH in H as [H|(k & -> & Hk & Hr & _)]; [now left|right].
        exists (S k). cbn [firstn markerRest length]. rewrite Eu.
        repeat split; try lia; try assumption; try (right; lia).
      * destruct (N.eqb c LOWER_X) eqn:Ex; [|now left].
        apply IH in H as [H|(k & -> & Hk & Hr & _)]; [now left|right].
        exists (S k). cbn [firstn markerRest length]. rewrite Eu, Ex.
        repeat split; try lia; try assumption; try (right; lia).
    + destruct (isUpper c) eqn:Eu; [|now left].
      apply IH in H as [[= <-]|(k & -> & Hk & Hr & _)]; right.
      * exists 1%nat. cbn [firstn markerRest length]. rewrite Eu.
        repeat split; try lia; try (right; lia).
      * exists (S k). cbn [firstn markerRest length]. rewrite Eu.
        repeat split; try lia; try assumption; try (right; lia).
    + destruct (isUpper c) eqn:Eu.
      * apply IH in H as [[= <-]|(k & -> & Hk & Hr & _)]; right.
        -- exists 1%nat. cbn [firstn markerRest length]. rewrite Eu.
           repeat split; try lia; try (right; lia).
        -- exists (S k). cbn [firstn markerRest length]. rewrite Eu.
           repeat split; try lia; try assumption; try (right; lia).
      * destruct (N.eqb c LOWER_X) eqn:Ex; [|now left].
        apply IH in H as [H|(k & -> & Hk & Hr & _)]; [now left|right].
        exists (S k). cbn [firstn markerRest length]. rewrite Eu, Ex.
        repeat split; try lia; try assumption; try (right; lia).
Qed.

Lemma markerLength_spec s n :
  markerLength s = Some n ->
  (2 <= n <= length s)%nat /\ isMarker (firstn n s) = true.
Proof.
  unfold markerLength. destruct s as [|c s]; [discriminate|].
  destruct (isUpper c) eqn:Eu; [|discriminate].
  intros H. apply markerScan_spec in H as [H|(k & -> & Hk & Hr & [H|H])];
    try discriminate.
  cbn [length firstn Nat.add isMarker]. rewrite Eu, Hr. split; [lia|reflexivity].
Qed.

Lemma matchMarkers_all s : forall skip,
  Forall (fun m => isMarker m = true) (matchMarkers skip s).
Proof.
  induction s as [|c s IH]; intros skip; cbn [matchMarkers]; [constructor|].
  destruct skip; [|apply IH].
  destruct (markerLength (c :: s)) as [n|] eqn:E; [|apply IH].
  constructor; [|apply IH]. now apply markerLength_spec in E.
Qed.

(** What the marker form implies, unit by unit. *)
Lemma markerRest_units : forall w st,
  markerRest st w = true ->
  Forall (fun c => isUpper c || N.eqb c LOWER_X = true) w
  /\ (st <> GroupRun -> w <> [])
  /\ (w <> [] -> isUpper (last w 0%N) = true)
  /\ (st = FirstRun -> In LOWER_X w).
Proof.
  induction w as [|c w IH]; intros st H.
  - destruct st; try discriminate. repeat split; try constructor; congruence.
  - cbn [markerRest] in H.
    assert (Hlast : forall st', markerRest st' w = true ->
                     isUpper c = true \/ st' <> GroupRun ->
                     isUpper (last (c :: w) 0%N) = true).
    { intros st' Hr Hc. destruct (IH st' Hr) as (_ & Hne & Hl & _).
      destruct w as [|d w']; [|now apply Hl].
      cbn. destruct Hc as [Hc|Hc]; [assumption|]. now destruct (Hne Hc). }
    destruct st.
    + destruct (isUpper c) eqn:Eu.
      * destruct (IH _ H) as (Ha & Hne & Hl & Hx).
        repeat split; try discriminate.
        -- constructor; [now rewrite Eu|assumption].
        -- intros _. apply (Hlast _ H). now left.
        -- intros _. right. now apply Hx.
      * apply andb_true_iff in H as [Ex H]. destruct (IH _ H) as (Ha & Hne & Hl & Hx).
        repeat split; try discriminate.
        -- constructor; [now rewrite Ex, orb_true_r|assumption].
        -- intros _. apply (Hlast _ H). right. discriminate.
        -- intros _. left. now apply N.eqb_eq.
    + apply andb_true_iff in H as [Eu H]. destruct (IH _ H) as (Ha & Hne & Hl & Hx).
      repeat split; try discriminate.
      * constructor; [now rewrite Eu|assumption].
      * intros _. apply (Hlast _ H). now left.
    + destruct (isUpper c) eqn:Eu.
      * destruct (IH _ H) as (Ha & Hne & Hl & Hx).
        repeat split; try discriminate.
        -- constructor; [now rewrite Eu|assumption].
        -- intros _. apply (Hlast _ H). now left.
      * apply andb_true_iff in H as [Ex H]. destruct (IH _ H) as (Ha & Hne & Hl & Hx).
        repeat split; try discriminate.
        -- constructor; [now rewrite Ex, orb_true_r|assumption].
        -- intros _. apply (Hlast _ H). right. discriminate.
Qed.

(** X9.  Every marker that [extractRestrictions] returns has the marker
    form: it starts and ends with a capital, consists of capitals and the
    letter [x] only, holds at least one [x], and so is never the filter
    sentinel ['none']. *)
Theorem extracted_markers_well_formed (text m : jsstring) :
  In m (ex_restrictions (extractRestrictions text)) ->
  isMarker m = true
  /\ Forall (fun c => isUpper c || N.eqb c LOWER_X = true) m
  /\ isUpper (hd 0%N m) = true
  /\ isUpper (last m 0%N) = true
  /\ In LOWER_X m
  /\ m <> NONE.
Proof.
  intros Hin. unfold extractRestrictions in Hin.
  destruct (negb (nonEmpty text)); [destruct Hin|]. cbn [ex_restrictions] in Hin.
  pose proof (matchMarkers_all text 0) as Hall.
  rewrite Forall_forall in Hall. specialize (Hall m Hin).
  assert (Hshape : isUpper (hd 0%N m) = true
                   /\ Forall (fun c => isUpper c || N.eqb c LOWER_X = true) m
                   /\ isUpper (last m 0%N) = true /\ In LOWER_X m).
  { destruct m as [|c w]; [discriminate|]. cbn [isMarker] in Hall.
    apply andb_true_iff in Hall as [Eu Hr].
    destruct (markerRest_units w FirstRun Hr) as (Ha & Hne & Hl & Hx).
    assert (Hw : w <> []) by (apply Hne; discriminate).
    repeat split.
    - exact Eu.
    - constructor; [now rewrite Eu|assumption].
    - destruct w as [|d w']; [contradiction|]. now apply Hl.
    - right. now apply Hx. }
  destruct Hshape as (Hh & Ha & Hl & Hx).
  repeat split; try assumption.
  intros ->. discriminate Hh.
Qed.

(** ** The cleaned text *)

Lemma collapseSpaces_single : forall s inRun,
  singleSpaced (collapseSpaces inRun s) = true
  /\ (inRun = true ->
      match collapseSpaces inRun s with
      | d :: _ => isWhiteSpace d = false
      | [] => True
      end).
Proof.
  induction s as [|c s IH]; intros inRun; cbn [collapseSpaces].
  - split; [reflexivity|trivial].
  - destruct (isWhiteSpace c) eqn:Ec.
    + destruct inRun.
      * apply IH.
      * destruct (IH true) as [Hs Hh]. specialize (Hh eq_refl).
        split; [|discriminate]. cbn [singleSpaced].
        rewrite Hs, N.eqb_refl, orb_true_r, andb_true_r. cbn [andb].
        destruct (collapseSpaces true s) as [|d r]; [apply orb_true_r|].
        now rewrite Hh, orb_true_r.
    + destruct (IH false) as [Hs _]. split; [|now intros _].
      cbn [singleSpaced]. now rewrite Ec, Hs.
Qed.

Lemma singleSpaced_suffix a : forall b,
  singleSpaced (a ++ b) = true -> singleSpaced b = true.
Proof.
  induction a as [|c a IH]; intros b H; [assumption|].
  cbn [app singleSpaced] in H. apply andb_true_iff in H as [_ H]. now apply IH.
Qed.

Lemma singleSpaced_prefix a : forall b,
  singleSpaced (a ++ b) = true -> singleSpaced a = true.
Proof.
  induction a as [|c a IH]; intros b H; [reflexivity|].
  cbn [app singleSpaced] in *.
  apply andb_true_iff in H as [H Hr]. apply andb_true_iff in H as [H1 H2].
  rewrite H1, (IH b Hr), andb_true_r. cbn [andb].
  destruct a as [|d a']; [apply orb_true_r|exact H2].
Qed.

Lemma trimStart_spec s :
  exists pre, s = pre ++ trimStart s
              /\ Forall (fun c => isWhiteSpace c = true) pre
              /\ match trimStart s with
                 | c :: _ => isWhiteSpace c = false
                 | [] => True
                 end.
Proof.
  induction s as [|c s (pre & E & Hp & Hh)]; [exists []; now repeat split|].
  cbn [trimStart]. destruct (isWhiteSpace c) eqn:Ec.
  - exists (c :: pre). repeat split; [cbn; now f_equal|now constructor|assumption].
  - exists []. repeat split; [constructor|assumption].
Qed.

Lemma trimEnd_spec s :
  exists post, s = trimEnd s ++ post
               /\ Forall (fun c => isWhiteSpace c = true) post
               /\ (trimEnd s <> [] ->
                   isWhiteSpace (last (trimEnd s) 0%N) = false).
Proof.
  unfold trimEnd. destruct (trimStart_spec (rev s)) as (pre & E & Hp & Hh).
  exists (rev pre). repeat split.
  - rewrite <- rev_app_distr, <- E. symmetry. apply rev_involutive.
  - now apply Forall_rev.
  - intros Hne. destruct (trimStart (rev s)) as [|c r]; [contradiction|].
    cbn [rev]. now rewrite last_last.
Qed.

Lemma last_default (A : Type) (l : list A) (d d' : A) :
  l <> [] -> last l d = last l d'.
Proof.
  induction l as [|x l IH]; [congruence|]. intros _.
  destruct l as [|y l']; [reflexivity|].
  cbn [last] in *. apply IH. discriminate.
Qed.

Lemma trim_spec s :
  exists pre post, s = pre ++ trim s ++ post /\ trimmed (trim s) = true.
Proof.
  unfold trim.
  destruct (trimStart_spec s) as (pre & E & _ & Hh).
  destruct (trimEnd_spec (trimStart s)) as (post & E' & Hpost & Hl).
  exists pre, post. split; [now rewrite <- E'|].
  destruct (trimEnd (trimStart s)) as [|c r] eqn:Et; [reflexivity|].
  specialize (Hl ltac:(discriminate)).
  rewrite E' in Hh. cbn [app] in Hh. cbn [trimmed].
  rewrite Hh. cbn [negb andb]. apply negb_true_iff.
  rewrite (last_default _ (c :: r) c 0%N) by discriminate. exact Hl.
Qed.


(** X10.  The cleaned text that [extractRestrictions] returns, which is
    also what the index tokenizes for the description field, has no white
    space at either end, and its only white space is single U+0020 spaces. *)
Theorem clean_text_spacing (text : jsstring) :
  let clean := cleanText (extractRestrictions text) in
  extractCleanSuchtext text = clean
  /\ trimmed clean = true
  /\ singleSpaced clean = true.
Proof.
  intros clean. subst clean. unfold extractRestrictions, extractCleanSuchtext.
  destruct (negb (nonEmpty text)); [now repeat split|]. cbn [cleanText].
  set (c := collapseSpaces false (replaceMarkers 0 text)).
  destruct (trim_spec c) as (pre & post & E & Ht).
  repeat split; [assumption|].
  pose proof (proj1 (collapseSpaces_single (replaceMarkers 0 text) false)) as Hs.
  fold c in Hs. rewrite E in Hs.
  apply singleSpaced_suffix in Hs. now apply singleSpaced_prefix in Hs.
Qed.

(** ** Dates *)

Lemma digit_not_space c : isDigit c = true -> isWhiteSpace c = false.
Proof.
  unfold isDigit, isWhiteSpace. intros H.
  apply andb_true_iff in H as [H1 H2]. apply N.leb_le in H1, H2.
  repeat (apply orb_false_iff; split);
    try (apply andb_false_iff; (left; apply N.leb_gt; lia) || (right; apply N.leb_gt; lia));
    apply N.eqb_neq; lia.
Qed.

Lemma isIsoDate_shape t :
  isIsoDate t = true ->
  exists y1 y2 y3 y4 m1 m2 d1 d2,
    t = [y1; y2; y3; y4; HYPHEN; m1; m2; HYPHEN; d1; d2]
    /\ Forall (fun c => isDigit c = true) [y1; y2; y3; y4; m1; m2; d1; d2].
Proof.
  unfold isIsoDate. intros H.
  do 10 (destruct t as [|? t]; [discriminate|]).
  destruct t; [|discriminate].
  apply andb_true_iff in H as [H H2]. apply andb_true_iff in H as [H H1].
  apply N.eqb_eq in H1, H2. subst.
  rewrite forallb_forall in H.
  exists n, n0, n1, n2, n4, n5, n7, n8. split; [reflexivity|].
  apply Forall_forall. exact H.
Qed.

Lemma isoOf_isIsoDate day month year :
  forallb isDigit day = true -> (1 <= length day <= 2)%nat ->
  forallb isDigit month = true -> (1 <= length month <= 2)%nat ->
  forallb isDigit year = true -> length year = 4%nat ->
  isIsoDate (isoOf day month year) = true.
Proof.
  intros Hd Ld Hm Lm Hy Ly.
  destruct year as [|y1 [|y2 [|y3 [|y4 [|? ?]]]]]; try discriminate Ly.
  assert (Hpad : forall w, forallb isDigit w = true -> (1 <= length w <= 2)%nat ->
                   exists a b, padStart 2 ZERO w = [a; b]
                               /\ isDigit a = true /\ isDigit b = true).
  { intros w Hw Lw. destruct w as [|a [|b [|? ?]]]; cbn in Lw; try lia.
    - exists ZERO, a. cbn in Hw. rewrite andb_true_r in Hw. now repeat split.
    - exists a, b. cbn in Hw. apply andb_true_iff in Hw as [Ha Hb].
      rewrite andb_true_r in Hb. now repeat split. }
  unfold isoOf.
  destruct (Hpad day Hd Ld) as (d1 & d2 & -> & Hd1 & Hd2).
  destruct (Hpad month Hm Lm) as (m1 & m2 & -> & Hm1 & Hm2).
  cbn in Hy. repeat (apply andb_true_iff in Hy as [?H Hy]).
  cbn [app isIsoDate forallb].
  now rewrite H, H0, H1, H2, Hm1, Hm2, Hd1, Hd2, !N.eqb_refl.
Qed.

Lemma parseDate_of_iso t : isIsoDate t = true -> parseDate t = Some t.
Proof.
  intros H. pose proof H as Hiso.
  apply isIsoDate_shape in H as (y1 & y2 & y3 & y4 & m1 & m2 & d1 & d2 & -> & Hall).
  repeat match goal with
         | H : Forall _ (_ :: _) |- _ => inversion H; subst; clear H
         end.
  assert (Ht : trim [y1; y2; y3; y4; HYPHEN; m1; m2; HYPHEN; d1; d2]
               = [y1; y2; y3; y4; HYPHEN; m1; m2; HYPHEN; d1; d2]).
  { unfold trim, trimEnd. cbn [trimStart].
    rewrite (digit_not_space y1) by assumption. cbn [rev app trimStart].
    now rewrite (digit_not_space d2) by assumption. }
  unfold parseDate. cbn [nonEmpty negb]. rewrite Ht.
  assert (Hno : forall sep, isDigit sep = false ->
            dmyFields sep [y1; y2; y3; y4; HYPHEN; m1; m2; HYPHEN; d1; d2] = None).
  { intros sep Hsep. unfold dmyFields.
    change [y1; y2; y3; y4; HYPHEN; m1; m2; HYPHEN; d1; d2]
      with ([y1; y2; y3; y4] ++ HYPHEN :: [m1; m2; HYPHEN; d1; d2]).
    rewrite (spanDigits_stop [y1; y2; y3; y4] HYPHEN) by
      (cbn; repeat (match goal with H : isDigit _ = true |- _ => rewrite H; clear H end);
       reflexivity).
    reflexivity. }
  rewrite (matchAnchored_dmy DOT), (matchAnchored_dmy SLASH) by reflexivity.
  rewrite !Hno by reflexivity.
  now rewrite matchAnchored_iso, Hiso.
Qed.

Lemma parseDate_output_iso_shape s t :
  parseDate s = Some t -> isIsoDate t = true.
Proof.
  intros H.
  unfold parseDate in H. destruct (negb (nonEmpty s)); [discriminate|].
  rewrite (matchAnchored_dmy DOT), (matchAnchored_dmy SLASH) in H by reflexivity.
  rewrite matchAnchored_iso in H.
  destruct (dmyFields DOT (trim s)) as [[[d m] y]|] eqn:E1.
  - injection H as <-. apply (dmyFields_iff DOT) in E1; [|reflexivity].
    destruct E1 as (_ & Hd & Ld & Hm & Lm & Hy & Ly).
    now apply isoOf_isIsoDate.
  - destruct (dmyFields SLASH (trim s)) as [[[d m] y]|] eqn:E2.
    + injection H as <-. apply (dmyFields_iff SLASH) in E2; [|reflexivity].
      destruct E2 as (_ & Hd & Ld & Hm & Lm & Hy & Ly).
      now apply isoOf_isIsoDate.
    + destruct (isIsoDate (trim s)) eqn:E3; [|discriminate].
      now injection H as <-.
Qed.

(** X11.  Whatever [parseDate] returns is a well-formed ISO date (four
    digits, hyphen, two digits, hyphen, two digits), and parsing it again
    returns it unchanged. *)
Theorem parseDate_output_iso (s t : jsstring) :
  parseDate s = Some t ->
  isIsoDate t = true /\ parseDate t = Some t.
Proof.
  intros H. pose proof (parseDate_output_iso_shape s t H) as Hiso.
  split; [assumption|now apply parseDate_of_iso].
Qed.

(** ** [preprocessItem] and the index *)



(** ** The IDF cache *)

Section CacheFacts.
Context {X : Externals}.

Lemma cache_get_set f' f (fc : jsmap jsstring float) (c : IdfCache) :
  map_get field_eqb f' (map_set field_eqb f fc c)
  = if field_eqb f' f then Some fc else map_get field_eqb f' c.
Proof. apply (map_get_set _ _ field_eqb field_eqb_eq). Qed.

Lemma fieldCache_get_set t' t (v : float) (fc : jsmap jsstring float) :
  map_get str_eqb t' (map_set str_eqb t v fc)
  = if str_eqb t' t then Some v else map_get str_eqb t' fc.
Proof. apply (map_get_set _ _ str_eqb str_eqb_eq). Qed.

Lemma field_eqb_refl f : field_eqb f f = true.
Proof. now destruct f. Qed.

(** One call spelled out: the field's cache, created empty when missing,
    and the term looked up in it. *)
Lemma getIDF_cases term field fieldIndex (idfCache : IdfCache) :
  let fc := orDefault (map_get field_eqb field idfCache) [] in
  getIDF term field fieldIndex idfCache
  = match map_get str_eqb term fc with
    | Some cached =>
        (cached,
         match map_get field_eqb field idfCache with
         | Some _ => idfCache
         | None => map_set field_eqb field [] idfCache
         end)
    | None =>
        (idfOf fieldIndex term,
         map_set field_eqb field
           (map_set str_eqb term (idfOf fieldIndex term) fc) idfCache)
    end.
Proof.
  unfold getIDF, idfOf.
  destruct (map_get field_eqb field idfCache) as [fc|] eqn:Ef; cbn [orDefault].
  - reflexivity.
  - cbn [map_get]. f_equal.
    generalize (map_set str_eqb term
                  (computeIDF
                     match map_get str_eqb term (termPostings fieldIndex) with
                     | Some postings => length postings
                     | None => 0%nat
                     end (totalDocs fieldIndex)) []) as fc.
    intros fc. clear.
    induction idfCache as [|[k v] c IH]; cbn.
    + now rewrite field_eqb_refl.
    + destruct (field_eqb field k) eqn:E; cbn; rewrite E; [reflexivity|].
      now rewrite IH.
Qed.

(** X13.  [getIDF] memoizes: after a call the cache holds the value it
    returned, a second call returns that value and leaves the cache as it
    is, and no value that was in the cache before is changed or dropped. *)
Theorem getIDF_memoizes
    (term : jsstring) (field : Field) (fieldIndex : FieldIndex)
    (idfCache : IdfCache) :
  let r := getIDF term field fieldIndex idfCache in
  cacheLookup field term (snd r) = Some (fst r)
  /\ getIDF term field fieldIndex (snd r) = r
  /\ (forall f t v, cacheLookup f t idfCache = Some v ->
                    cacheLookup f t (snd r) = Some v).
Proof.
  intros r. subst r. rewrite (getIDF_cases term field fieldIndex idfCache).
  cbv zeta. unfold cacheLookup.
  destruct (map_get field_eqb field idfCache) as [fc|] eqn:Ef; cbn [orDefault].
  - destruct (map_get str_eqb term fc) as [v|] eqn:Et; cbn [fst snd].
    + rewrite ?Ef, ?Et. repeat split.
      * rewrite getIDF_cases. cbv zeta. rewrite Ef. cbn [orDefault].
        now rewrite Et.
      * intros f t v' H. exact H.
    + rewrite cache_get_set, field_eqb_refl, fieldCache_get_set, str_eqb_refl.
      repeat split.
      * rewrite getIDF_cases. cbv zeta.
        rewrite cache_get_set, field_eqb_refl. cbn [orDefault].
        now rewrite fieldCache_get_set, str_eqb_refl.
      * intros f t v H. rewrite cache_get_set.
        destruct (field_eqb f field) eqn:E; [|exact H].
        apply field_eqb_eq in E. subst f. rewrite Ef in H.
        rewrite fieldCache_get_set.
        destruct (str_eqb t term) eqn:E'; [|exact H].
        apply str_eqb_eq in E'. subst t. congruence.
  - cbn [map_get fst snd].
    rewrite cache_get_set, field_eqb_refl, fieldCache_get_set, str_eqb_refl.
    repeat split.
    + rewrite getIDF_cases. cbv zeta.
      rewrite cache_get_set, field_eqb_refl. cbn [orDefault].
      now rewrite fieldCache_get_set, str_eqb_refl.
    + intros f t v H. rewrite cache_get_set.
      destruct (field_eqb f field) eqn:E; [|exact H].
      apply field_eqb_eq in E. subst f. rewrite Ef in H. discriminate H.
Qed.
End CacheFacts.

(* ================================================================= *)
(** ** The page parameters and the page *)

Lemma parsePageSize_range value : (1 <= parsePageSize value <= 100)%Z.
Proof.
  unfold parsePageSize. destruct (negb (truthy value)); [lia|].
  destruct (parseInt (orDefault value [])); lia.
Qed.

Lemma parsePage_range value : (1 <= parsePage value)%Z.
Proof.
  unfold parsePage. destruct (negb (truthy value)); [lia|].
  destruct (parseInt (orDefault value [])) as [p|]; [|lia].
  destruct (Z.ltb_spec p 1); lia.
Qed.

Lemma firstn_plus (A : Type) (a b : nat) : forall l : list A,
  firstn (a + b) l = firstn a l ++ firstn b (skipn a l).
Proof.
  induction a as [|a IH]; intros l; [reflexivity|].
  destruct l as [|x l]; cbn.
  - now rewrite firstn_nil.
  - now rewrite IH.
Qed.

Lemma chunks_concat (A : Type) (n : nat) (l : list A) : forall m,
  flat_map (fun k => firstn n (skipn ((k - 1) * n) l)) (seq 1 m)
  = firstn (m * n) l.
Proof.
  induction m as [|m IH]; [reflexivity|].
  rewrite seq_S, flat_map_app, IH. cbn [flat_map]. rewrite app_nil_r.
  replace (1 + m - 1)%nat with m by lia.
  replace (S m * n)%nat with (m * n + n)%nat by lia.
  now rewrite firstn_plus.
Qed.

Lemma pageOf_nat results page pageSize :
  (1 <= page)%Z -> (1 <= pageSize)%Z ->
  pageOf results page pageSize
  = firstn (Z.to_nat pageSize)
      (skipn ((Z.to_nat page - 1) * Z.to_nat pageSize) results).
Proof.
  intros Hp Hs. unfold pageOf, slice. cbv zeta.
  replace ((page - 1) * pageSize + pageSize - (page - 1) * pageSize)%Z
    with pageSize by lia.
  f_equal. f_equal. nia.
Qed.

Lemma pageOf_length results page pageSize :
  (1 <= page)%Z -> (1 <= pageSize)%Z ->
  Z.of_nat (length (pageOf results page pageSize))
  = Z.min pageSize
      (Z.max 0 (Z.of_nat (length results) - (page - 1) * pageSize)).
Proof.
  intros Hp Hs. rewrite pageOf_nat by assumption.
  rewrite length_firstn, length_skipn. nia.
Qed.

Lemma totalPages_bounds total pageSize :
  (0 <= total)%Z -> (1 <= pageSize)%Z ->
  let totalPages := totalPagesOf total pageSize in
  (1 <= totalPages
   /\ total <= totalPages * pageSize
   /\ (0 < total -> (totalPages - 1) * pageSize < total)
   /\ (total = 0 -> totalPages = 1))%Z.
Proof.
  intros Ht Hs. unfold totalPagesOf. cbv zeta.
  pose proof (Z.div_mod (total + pageSize - 1) pageSize ltac:(lia)) as E.
  pose proof (Z.mod_pos_bound (total + pageSize - 1) pageSize ltac:(lia)) as B.
  set (q := ((total + pageSize - 1) / pageSize)%Z) in *.
  set (r := ((total + pageSize - 1) mod pageSize)%Z) in *.
  assert (0 <= q)%Z by (subst q; apply Z.div_pos; lia).
  repeat split; nia.
Qed.

(** X14.  The page parameters are always in range (a page from 1, a page
    size from 1 to 100), and for the page size of any request the pages
    1 to [totalPages] cut the result list into consecutive pieces: put
    one after the other they give the list back, every page before the
    last is full, the last page of a non-empty list is not empty, no page
    is longer than the page size, and a page after the last is empty. *)
Theorem pagination_partitions
    (results : list Hit) (pageParam pageSizeParam : option jsstring) :
  let pageSize := parsePageSize pageSizeParam in
  let totalPages := totalPagesOf (Z.of_nat (length results)) pageSize in
  (1 <= parsePage pageParam)%Z
  /\ (1 <= pageSize <= 100)%Z
  /\ (1 <= totalPages)%Z
  /\ flat_map (fun k => pageOf results (Z.of_nat k) pageSize)
       (seq 1 (Z.to_nat totalPages)) = results
  /\ (forall page, (1 <= page)%Z ->
        (Z.of_nat (length (pageOf results page pageSize)) <= pageSize)%Z)
  /\ (forall page, (1 <= page < totalPages)%Z ->
        Z.of_nat (length (pageOf results page pageSize)) = pageSize)
  /\ (results <> [] -> pageOf results totalPages pageSize <> [])
  /\ (forall page, (totalPages < page)%Z ->
        pageOf results page pageSize = []).
Proof.
  intros pageSize totalPages.
  pose proof (parsePageSize_range pageSizeParam) as Hs. fold pageSize in Hs.
  pose proof (totalPages_bounds (Z.of_nat (length results)) pageSize
                ltac:(lia) ltac:(lia)) as [H1 [H2 [H3 H4]]].
  fold totalPages in H1, H2, H3, H4.
  split; [apply parsePage_range|].
  split; [exact Hs|]. split; [exact H1|].
  split; [|split; [|split; [|split]]].
  - rewrite (flat_map_ext
               (fun k => pageOf results (Z.of_nat k) pageSize)
               (fun k => firstn (Z.to_nat pageSize)
                           (skipn ((k - 1) * Z.to_nat pageSize) results))).
    + rewrite chunks_concat. apply firstn_all2. nia.
    + intros k. destruct k as [|k].
      * unfold pageOf, slice. cbv zeta. change (Z.of_nat 0) with 0%Z.
        replace ((0 - 1) * pageSize + pageSize - (0 - 1) * pageSize)%Z
          with pageSize by lia.
        replace (Z.to_nat ((0 - 1) * pageSize)) with 0%nat by lia.
        reflexivity.
      * rewrite pageOf_nat by lia. now rewrite Nat2Z.id.
  - intros page Hp. rewrite pageOf_length by lia. lia.
  - intros page Hp. rewrite pageOf_length by lia.
    assert (page * pageSize <= (totalPages - 1) * pageSize)%Z by nia.
    lia.
  - intros Hne E.
    assert (L : Z.of_nat (length (pageOf results totalPages pageSize)) = 0%Z)
      by now rewrite E.
    rewrite pageOf_length in L by lia.
    destruct results; [congruence|]. cbn [length] in *. nia.
  - intros page Hp. apply length_zero_iff_nil.
    assert (L : Z.of_nat (length (pageOf results page pageSize)) = 0%Z);
      [|lia].
    rewrite pageOf_length by lia. nia.
Qed.

(* ================================================================= *)
(** ** Sorting by a key *)

Section SortBy.
Variable A : Type.
Variables cmp cmp' : A -> A -> Z.



Variable R : A -> A -> Prop.
Hypothesis R_trans : forall x y z, R x y -> R y z -> R x z.
Hypothesis cmp_le : forall x y, (0 <? cmp x y)%Z = false -> R x y.
Hypothesis cmp_gt : forall x y, (0 <? cmp x y)%Z = true -> R y x.

Lemma sort_insert_sorted_by x l :
  StronglySorted R l -> StronglySorted R (sort_insert cmp x l).
Proof.
  induction 1 as [|y l Hs IH Hy]; cbn.
  - repeat constructor.
  - destruct (0 <? cmp x y)%Z eqn:E.
    + constructor; [assumption|].
      apply (Permutation_Forall (Permutation_sym (sort_insert_perm _ cmp x l))).
      constructor; [now apply cmp_gt|assumption].
    + constructor; [now constructor|].
      constructor; [now apply cmp_le|].
      eapply Forall_impl; [|exact Hy].
      intros z Hz. apply (R_trans x y z); [now apply cmp_le|assumption].
Qed.

Lemma js_sort_sorted_by l : StronglySorted R (js_sort cmp l).
Proof.
  induction l as [|x l IH]; cbn; [constructor|now apply sort_insert_sorted_by].
Qed.

Variable p : A -> bool.
Hypothesis p_tied :
  forall x y, p x = true -> p y = true -> (0 <? cmp x y)%Z = false.


End SortBy.


Section RouteFacts.
Context {X : Externals}.

End RouteFacts.

(* ================================================================= *)
(** ** The results of [search] and the response of the handler *)

Lemma In_firstn_list (A : Type) (x : A) : forall n l, In x (firstn n l) -> In x l.
Proof.
  induction n as [|n IH]; intros [|y l]; cbn; try contradiction.
  intros [H|H]; [now left|right; now apply IH].
Qed.

Lemma In_skipn_list (A : Type) (x : A) : forall n l, In x (skipn n l) -> In x l.
Proof.
  induction n as [|n IH]; intros [|y l]; cbn; try contradiction; try tauto.
  intros H. right. now apply IH.
Qed.

Lemma arr_dense_map_Some (A : Type) (l : list A) : arr_dense (map Some l) = l.
Proof.
  unfold arr_dense. induction l as [|x l IH]; cbn; [reflexivity|].
  now f_equal.
Qed.

Lemma arr_dense_In (A : Type) (x : A) (a : jsarray A) :
  In x (arr_dense a) <-> In (Some x) a.
Proof.
  unfold arr_dense. rewrite in_flat_map. split.
  - intros ([y|] & Hin & Hx); [|contradiction].
    destruct Hx as [->|[]]. assumption.
  - intros H. exists (Some x). split; [assumption|now left].
Qed.

Lemma arr_get_In (A : Type) (x : A) (a : jsarray A) :
  In (Some x) a <-> exists i, arr_get i a = Some x.
Proof.
  unfold arr_get. split.
  - intros H. apply In_nth_error in H as [i Hi]. exists i. now rewrite Hi.
  - intros [i Hi]. destruct (nth_error a i) as [[y|]|] eqn:E; try discriminate.
    injection Hi as ->. now apply nth_error_In in E.
Qed.

(** The browse branch numbers the documents by their index. *)
Lemma browse_ids (a : jsarray ProcessedMediaItem) : forall i,
  let rs := arr_dense
              (arr_mapi_from (fun doc id => mkResult id doc 0%float []) i a) in
  Forall (fun r => (i <= docId r)%nat
                   /\ arr_get (docId r - i) a = Some (item r)) rs
  /\ NoDup (map docId rs).
Proof.
  induction a as [|o a IH]; intros i; cbv zeta.
  - split; constructor.
  - destruct (IH (S i)) as [Hall Hnd]. cbv zeta in Hall, Hnd.
    assert (Hrest :
      Forall (fun r => (i <= docId r)%nat
                       /\ arr_get (docId r - i) (o :: a) = Some (item r))
        (arr_dense
           (arr_mapi_from (fun doc id => mkResult id doc 0%float []) (S i) a))).
    { eapply Forall_impl; [|exact Hall]. cbv beta. intros r [Hle Hget].
      split; [lia|]. unfold arr_get in *.
      replace (docId r - i)%nat with (S (docId r - S i)) by lia. exact Hget. }
    cbn [arr_mapi_from]. unfold arr_dense in *. cbn [flat_map].
    destruct o as [doc|]; cbn [app].
    + split.
      * constructor; [|exact Hrest]. cbn [docId item]. split; [lia|].
        now rewrite Nat.sub_diag.
      * cbn [map docId]. constructor; [|exact Hnd].
        intros Hin. apply in_map_iff in Hin as (r & Hr & Hin).
        rewrite Forall_forall in Hall. apply Hall in Hin. lia.
    + split; assumption.
Qed.

Lemma set_add_nonEmpty x s : set_add x s <> [].
Proof.
  unfold set_add. destruct (includes x s) eqn:E.
  - intros ->. discriminate E.
  - now destruct s.
Qed.

Section SearchFacts.
Context {X : Externals}.

Lemma map_set_named id e (ds : DocScores) :
  terms e <> [] -> entriesNamed ds -> entriesNamed (map_set Nat.eqb id e ds).
Proof.
  intros He. unfold entriesNamed. induction 1 as [|[k v] ds Hk Hds IH]; cbn.
  - now repeat constructor.
  - destruct (id =? k)%nat; constructor; assumption.
Qed.

Lemma accumulate_named term fi cfg idf fw pm ds p :
  entriesNamed ds -> entriesNamed (accumulate term fi cfg idf fw pm ds p).
Proof.
  intros H. unfold accumulate.
  destruct (map_get Nat.eqb (p_docId p) ds); apply map_set_named;
    try assumption; cbn [terms]; [apply set_add_nonEmpty|discriminate].
Qed.

Lemma postings_named term fi cfg idf fw pm postings : forall ds,
  entriesNamed ds ->
  entriesNamed (fold_left (accumulate term fi cfg idf fw pm) postings ds).
Proof.
  induction postings as [|p ps IH]; intros ds H; cbn [fold_left];
    [assumption|].
  apply IH. now apply accumulate_named.
Qed.

Lemma calls_named ix cfg calls : forall st,
  entriesNamed (fst st) ->
  entriesNamed (fst (fold_left (scoreCall ix cfg) calls st)).
Proof.
  induction calls as [|[[term f] isP] calls IH]; intros st H; cbn [fold_left];
    [assumption|].
  apply IH. cbn [scoreCall]. destruct st as [ds c]. cbn [fst] in *.
  unfold scoreTermInField.
  destruct (map_get str_eqb term (termPostings (getFieldIndex f ix)))
    as [[|p ps]|]; cbn [fst]; try assumption.
  destruct (getIDF term f (getFieldIndex f ix) c) as [idf c'].
  cbn [fst]. now apply postings_named.
Qed.

Lemma collectResults_spec ix ds r :
  In r (collectResults ix ds) <->
  exists e, In (docId r, e) ds
            /\ getDocument (docId r) ix = Some (item r)
            /\ score r = e_score e /\ matchedTerms r = terms e.
Proof.
  unfold collectResults. rewrite in_flat_map. split.
  - intros ([id e] & Hin & Hr).
    destruct (getDocument id ix) as [doc|] eqn:E; [|contradiction].
    destruct Hr as [<-|[]]. cbn. now exists e.
  - intros (e & Hin & Hdoc & Hs & Ht). exists (docId r, e).
    split; [assumption|]. rewrite Hdoc. left. destruct r. cbn in *.
    now subst.
Qed.

Lemma collectResults_ids ix ds :
  NoDup (map_keys ds) -> NoDup (map docId (collectResults ix ds)).
Proof.
  unfold collectResults, map_keys.
  induction ds as [|[id e] ds IH]; cbn [flat_map map fst]; intros H;
    [constructor|].
  inversion H as [|? ? Hnin Hnd]; subst.
  destruct (getDocument id ix) as [doc|]; cbn [app map docId];
    [|now apply IH].
  constructor; [|now apply IH].
  intros Hin. apply Hnin. apply in_map_iff in Hin as (r & Hr & Hin).
  apply in_flat_map in Hin as ([id' e'] & Hin' & Hr').
  destruct (getDocument id' ix); [|contradiction].
  destruct Hr' as [<-|[]]. cbn in Hr. subst id'.
  change id with (fst (id, e')). now apply in_map.
Qed.

Lemma search_stored ix query config idfCache r :
  In r (arr_dense (fst (search query ix config idfCache))) ->
  getDocument (docId r) ix = Some (item r).
Proof.
  rewrite search_unfold.
  destruct (length (tokenize query) =? 0)%nat; cbn [fst]; cbv zeta.
  - intros H. unfold arr_mapi in H.
    destruct (browse_ids (getAllDocuments ix) 0) as [Hall _]. cbv zeta in Hall.
    rewrite Forall_forall in Hall. apply Hall in H as [_ H].
    now rewrite Nat.sub_0_r in H.
  - rewrite arr_dense_map_Some, js_sort_In. intros H.
    apply collectResults_spec in H as (e & _ & H & _). exact H.
Qed.

(** X16.  Whatever the index, the query, the configuration and the cache,
    every result of [search] is a stored document under its own id, and no
    document is returned twice.  When the query has a token, the result has
    no holes and every result lists at least one matched term. *)
Theorem search_results_stored
    (ix : InvertedIndex) (query : jsstring)
    (config : option PartialSearchConfig) (idfCache : IdfCache) :
  let out := fst (search query ix config idfCache) in
  Forall (fun r => getDocument (docId r) ix = Some (item r)) (arr_dense out)
  /\ NoDup (map docId (arr_dense out))
  /\ (tokenize query <> [] ->
      out = map Some (arr_dense out)
      /\ Forall (fun r => matchedTerms r <> []) (arr_dense out)).
Proof.
  cbv zeta. split; [|split].
  - apply Forall_forall. intros r. apply search_stored.
  - rewrite search_unfold.
    destruct (length (tokenize query) =? 0)%nat; cbn [fst]; cbv zeta.
    + apply (browse_ids (getAllDocuments ix) 0).
    + rewrite arr_dense_map_Some.
      apply (Permutation_NoDup
               (Permutation_sym
                  (Permutation_map docId (js_sort_perm _ byScoreThenDate _)))).
      apply collectResults_ids. apply calls_keys. constructor.
  - intros Hq. rewrite search_unfold.
    destruct (length (tokenize query) =? 0)%nat eqn:El.
    + apply Nat.eqb_eq, length_zero_iff_nil in El. contradiction.
    + cbn [fst]; cbv zeta. rewrite arr_dense_map_Some. split; [reflexivity|].
      apply Forall_forall. intros r Hr. apply js_sort_In in Hr.
      apply collectResults_spec in Hr as (e & Hin & _ & _ & ->).
      pose proof (calls_named ix (mergeConfig config)
                    (allScoreCalls ix (mergeConfig config) query)
                    (([] : DocScores), idfCache)
                    (Forall_nil _)) as Hn.
      unfold entriesNamed in Hn. rewrite Forall_forall in Hn.
      exact (Hn _ Hin).
Qed.

(** X17.  No match is lost: when a token of the query has a posting for a
    document in some field and the document is stored under that id, the
    document is among the results and lists the token as matched. *)
Theorem search_results_complete
    (ix : InvertedIndex) (query : jsstring)
    (config : option PartialSearchConfig) (idfCache : IdfCache)
    (t : jsstring) (f : Field) (id : nat) (doc : ProcessedMediaItem) :
  In t (tokenize query) ->
  hasPosting ix f t id ->
  getDocument id ix = Some doc ->
  exists r, In (Some r) (fst (search query ix config idfCache))
            /\ docId r = id /\ item r = doc /\ In t (matchedTerms r).
Proof.
  intros Ht Hp Hdoc. rewrite search_unfold.
  destruct (length (tokenize query) =? 0)%nat eqn:El.
  { apply Nat.eqb_eq, length_zero_iff_nil in El. rewrite El in Ht.
    contradiction. }
  cbn [fst]; cbv zeta.
  set (cfg := mergeConfig config).
  assert (Hcall : In (t, f, false) (allScoreCalls ix cfg query)).
  { unfold allScoreCalls. apply in_flat_map. exists t. split; [assumption|].
    unfold scoreCalls. apply in_or_app. left. destruct f; cbn; tauto. }
  assert (H0 : termsTrack (fst (([] : DocScores), idfCache))
                 (fun _ _ => False)).
  { intros i. cbn. tauto. }
  pose proof (calls_track ix cfg (allScoreCalls ix cfg query) _ _ H0 id) as Hid.
  cbv beta in Hid.
  destruct (map_get Nat.eqb id
              (fst (fold_left (scoreCall ix cfg) (allScoreCalls ix cfg query)
                      (([] : DocScores), idfCache)))) as [e|] eqn:E.
  - destruct Hid as [Hid _].
    exists (mkResult id doc (e_score e) (terms e)). cbn.
    repeat split; try reflexivity.
    + apply in_map, js_sort_In, collectResults_spec. exists e. cbn.
      repeat split; try assumption.
      now apply (map_get_In _ _ Nat.eqb Nat.eqb_eq) in E.
    + apply Hid. right. now exists f, false.
  - exfalso. apply (Hid t). right. now exists f, false.
Qed.

(** X18.  The response of the search handler: every item of the page
    passes the filters of the request and is a stored document; the page
    holds at most [pageSize] items; [totalPages] pages are enough for
    [total] items; and [total] does not depend on the page, the page size
    or the sort order asked for. *)
Theorem respond_page
    (ix : InvertedIndex) (qParam pageParam pageSizeParam : option jsstring)
    (credit dateFrom dateTo : option jsstring) (selected : list jsstring)
    (sortParam : option jsstring) (idfCache : IdfCache) :
  let pg := fst (respond ix qParam pageParam pageSizeParam credit dateFrom
                   dateTo selected sortParam idfCache) in
  Forall (fun h => keepItem credit dateFrom dateTo selected (h_item h) = true
                   /\ exists id, getDocument id ix = Some (h_item h))
         (pg_items pg)
  /\ (Z.of_nat (length (pg_items pg)) <= pg_pageSize pg <= 100)%Z
  /\ (pg_total pg <= pg_totalPages pg * pg_pageSize pg)%Z
  /\ (forall pageParam' pageSizeParam' sortParam',
        pg_total (fst (respond ix qParam pageParam' pageSizeParam' credit
                         dateFrom dateTo selected sortParam' idfCache))
        = pg_total pg).
Proof.
  cbv zeta. unfold respond.
  assert (Hget : forall sortP,
    exists base c,
      GET ix qParam credit dateFrom dateTo selected sortP idfCache
      = (fst (GET ix qParam credit dateFrom dateTo selected sortP idfCache), c)
      /\ Permutation
           (fst (GET ix qParam credit dateFrom dateTo selected sortP idfCache))
           (applyFilters base credit dateFrom dateTo selected)
      /\ (forall h, In h base -> exists id, getDocument id ix = Some (h_item h))
      /\ base = fst (if nonEmpty (trim (if truthy qParam
                                        then orDefault qParam [] else []))
                     then
                       let (searchResults, c) :=
                         search (if truthy qParam then orDefault qParam []
                                 else []) ix None idfCache in
                       (map (fun r => mkHit (item r) (score r) (matchedTerms r))
                            (arr_dense searchResults), c)
                     else
                       (map (fun doc => mkHit doc 0%float [])
                            (arr_dense (getAllDocuments ix)), idfCache))).
  { intros sortP. unfold GET. cbv zeta.
    set (q := if truthy qParam then orDefault qParam [] else []).
    destruct (nonEmpty (trim q)) eqn:Eq.
    - destruct (search q ix None idfCache) as [sr c] eqn:Es.
      exists (map (fun r => mkHit (item r) (score r) (matchedTerms r))
                  (arr_dense sr)), c.
      cbn [fst negb]. split; [reflexivity|]. split; [|split; [|reflexivity]].
      + destruct (parseSort sortP); [apply js_sort_perm|reflexivity].
      + intros h Hh. apply in_map_iff in Hh as (r & <- & Hr). cbn [h_item].
        exists (docId r). apply (search_stored ix q None idfCache).
        now rewrite Es.
    - exists (map (fun doc => mkHit doc 0%float [])
                  (arr_dense (getAllDocuments ix))), idfCache.
      cbn [fst negb]. split; [reflexivity|]. split; [|split; [|reflexivity]].
      + destruct (parseSort sortP); apply js_sort_perm.
      + intros h Hh. apply in_map_iff in Hh as (d & <- & Hd). cbn [h_item].
        apply arr_dense_In in Hd. now apply arr_get_In in Hd. }
  destruct (Hget sortParam) as (base & c & Eg & Hperm & Hbase & Ebase).
  rewrite Eg. cbn [fst pg_items pg_pageSize pg_total pg_totalPages].
  set (results := fst (GET ix qParam credit dateFrom dateTo selected
                         sortParam idfCache)) in *.
  pose proof (parsePageSize_range pageSizeParam) as Hs.
  pose proof (parsePage_range pageParam) as Hp.
  split; [|split; [|split]].
  - apply Forall_forall. intros h Hh.
    unfold pageOf, slice in Hh. cbv zeta in Hh.
    apply In_firstn_list, In_skipn_list in Hh.
    apply (Permutation_in _ Hperm), applyFilters_In in Hh as [Hin Hk].
    split; [assumption|now apply Hbase].
  - split; [|lia]. rewrite pageOf_length by lia. lia.
  - apply totalPages_bounds; lia.
  - intros pageParam' pageSizeParam' sortParam'.
    destruct (Hget sortParam') as (base' & c' & Eg' & Hperm' & _ & Ebase').
    rewrite Eg'. cbn [fst pg_total]. f_equal.
    rewrite (Permutation_length Hperm), (Permutation_length Hperm').
    now rewrite Ebase, Ebase'.
Qed.
End SearchFacts.

(* ================================================================= *)
(** ** The filter options *)

Lemma str_le_refl a : str_le a a.
Proof. apply str_ltb_irrefl. Qed.

Lemma sorted_last (l : list jsstring) (d : jsstring) :
  StronglySorted str_le l -> forall x, In x l -> str_le x (last l d).
Proof.
  induction 1 as [|y l Hs IH Hy]; intros x Hx; [contradiction|].
  destruct l as [|z l].
  - destruct Hx as [<-|[]]. apply str_le_refl.
  - change (last (y :: z :: l) d) with (last (z :: l) d).
    destruct Hx as [<-|Hx]; [|now apply IH].
    apply (str_le_trans y z); [|apply IH; now left].
    apply (Forall_inv Hy).
Qed.

Lemma last_In (A : Type) (l : list A) (d : A) : l <> [] -> In (last l d) l.
Proof.
  induction l as [|x l IH]; [congruence|]. intros _.
  destruct l as [|y l]; [now left|].
  right. apply IH. discriminate.
Qed.

(** X19.  [calculateDateRange] brackets the dates: every stored document
    with a date has it between [min] and [max]; when some document has a
    date, [min] and [max] are dates of stored documents, and when none has,
    both are empty.  Used as the bounds of the date filter of the search
    handler, the range keeps every stored document. *)
Theorem date_range_bounds (ix : InvertedIndex) :
  let docs := arr_dense (getAllDocuments ix) in
  let range := calculateDateRange ix in
  (forall doc, In doc docs -> nonEmpty (dateISO doc) = true ->
     str_le (fst range) (dateISO doc) /\ str_le (dateISO doc) (snd range))
  /\ ((exists doc, In doc docs /\ nonEmpty (dateISO doc) = true) ->
      (exists doc, In doc docs /\ dateISO doc = fst range)
      /\ (exists doc, In doc docs /\ dateISO doc = snd range))
  /\ ((forall doc, In doc docs -> dateISO doc = []) -> range = ([], []))
  /\ (forall doc, In doc docs ->
        keepItem None (Some (fst range)) (Some (snd range)) [] doc = true).
Proof.
  intros docs range.
  assert (Hmem : forall d,
            In d (js_sort codeUnitCompare (filter nonEmpty (map dateISO docs)))
            <-> exists doc, In doc docs /\ dateISO doc = d
                            /\ nonEmpty d = true).
  { intros d. rewrite js_sort_In, filter_In, in_map_iff. split.
    - intros [(doc & <- & Hin) Hne]. now exists doc.
    - intros (doc & Hin & <- & Hne). split; [now exists doc|assumption]. }
  pose proof (js_sort_sorted (filter nonEmpty (map dateISO docs))) as Hs.
  subst range. unfold calculateDateRange. cbv zeta. fold docs.
  destruct (js_sort codeUnitCompare (filter nonEmpty (map dateISO docs)))
    as [|first rest] eqn:E.
  - assert (Hnone : forall doc, In doc docs -> nonEmpty (dateISO doc) = false).
    { intros doc Hin. destruct (nonEmpty (dateISO doc)) eqn:Hne; [|reflexivity].
      destruct (proj2 (Hmem (dateISO doc))). now exists doc. }
    cbn [fst snd]. split; [|split; [|split]].
    + intros doc Hin Hne. rewrite (Hnone doc Hin) in Hne. discriminate Hne.
    + intros (doc & Hin & Hne). rewrite (Hnone doc Hin) in Hne.
      discriminate Hne.
    + reflexivity.
    + intros doc Hin. reflexivity.
  - cbn [fst snd].
    assert (Hbr : forall doc, In doc docs -> nonEmpty (dateISO doc) = true ->
              str_le first (dateISO doc)
              /\ str_le (dateISO doc) (last (first :: rest) first)).
    { intros doc Hin Hne.
      assert (Hd : In (dateISO doc) (first :: rest))
        by (apply Hmem; now exists doc).
      split; [|now apply sorted_last].
      destruct Hd as [<-|Hd]; [apply str_le_refl|].
      inversion Hs as [|? ? _ Hall]; subst. rewrite Forall_forall in Hall.
      now apply Hall. }
    split; [exact Hbr|]. split; [|split].
    + intros _. split.
      * destruct (proj1 (Hmem first) (or_introl eq_refl)) as (doc & Hin & Hd & _).
        now exists doc.
      * destruct (proj1 (Hmem (last (first :: rest) first))
                    (last_In _ (first :: rest) first ltac:(discriminate)))
          as (doc & Hin & Hd & _).
        now exists doc.
    + intros Hall. exfalso.
      destruct (proj1 (Hmem first) (or_introl eq_refl)) as (doc & Hin & Hd & Hne).
      rewrite <- Hd, (Hall doc Hin) in Hne. discriminate Hne.
    + intros doc Hin. unfold keepItem. cbn [truthy andb negb orDefault].
      destruct (nonEmpty (dateISO doc)) eqn:Hne.
      * destruct (Hbr doc Hin Hne) as [H1 H2]. unfold str_le in H1, H2.
        rewrite H1, H2. now rewrite !andb_false_r.
      * now rewrite !andb_false_r.
Qed.

(** X20.  The options the filters endpoint offers fit the corpus: every
    credit is the photographer of a document, which stays when the credit
    is selected; every restriction other than [none] is carried by a
    document, which stays when the restriction is selected; [none] comes
    first; and with all restriction options selected every document stays
    that does not itself carry a restriction spelled [none]. *)
Theorem filter_options_match (corpus : list ProcessedMediaItem) :
  let fr := filtersGET (buildIndex corpus) in
  (forall c, In c (credits fr) ->
     exists doc, In doc corpus /\ fotografen doc = c
                 /\ keepItem (Some c) None None [] doc = true)
  /\ hd_error (restrictionOptions fr) = Some NONE
  /\ (forall r, In r (restrictionOptions fr) -> r <> NONE ->
        exists doc, In doc corpus /\ In r (restrictions doc)
                    /\ keepItem None None None [r] doc = true)
  /\ (forall doc, In doc corpus -> ~ In NONE (restrictions doc) ->
        keepItem None None None (restrictionOptions fr) doc = true).
Proof.
  cbv zeta. unfold filtersGET. cbn [credits restrictionOptions hd_error].
  unfold getPhotographers, getRestrictions, buildIndex.
  cbn [finalizeIndex photographers restrictionSet].
  destruct (addAll_sets corpus 0 newInvertedIndex (NoDup_nil _) (NoDup_nil _))
    as [[_ Hp] [_ Hr]].
  split; [|split; [reflexivity|split]].
  - intros c Hc. apply js_sort_In, Hp in Hc as [[]|(doc & Hin & Hf)].
    exists doc. repeat split; try assumption.
    unfold keepItem. destruct c as [|x c].
    + reflexivity.
    + cbn [truthy orDefault andb]. rewrite Hf, str_eqb_refl. reflexivity.
  - intros r [Hr0|Hin] Hne; [now symmetry in Hr0|].
    apply js_sort_In, Hr in Hin as [[]|(doc & Hin & Hm)].
    exists doc. repeat split; try assumption.
    unfold keepItem. cbn [truthy andb length Nat.ltb Nat.leb filter].
    destruct (str_eqb r NONE) eqn:E; [apply str_eqb_eq in E; contradiction|].
    cbn [negb existsb]. rewrite (proj2 (includes_In _ _) Hm).
    cbn. now rewrite andb_false_r.
  - intros doc Hin Hnone. unfold keepItem.
    cbn [truthy andb length Nat.ltb Nat.leb].
    change (includes NONE (NONE :: _)) with true.
    destruct (restrictions doc) as [|m ms] eqn:Em; [reflexivity|].
    cbn [length Nat.eqb andb negb].
    match goal with |- (if ?c then false else true) = true =>
      assert (Hc : c = false); [|now rewrite Hc] end.
    apply negb_false_iff, existsb_exists. exists m. split.
    + apply filter_In. split.
      * right. apply js_sort_In, Hr. right. exists doc. split; [assumption|].
        rewrite Em. now left.
      * destruct (str_eqb m NONE) eqn:E; [|reflexivity].
        apply str_eqb_eq in E. subst m. exfalso. apply Hnone. now left.
    + apply includes_In. now left.
Qed.

(* ================================================================= *)
(** ** lib/api/highlight.ts *)

Lemma isRegexSpecial_plain c :
  isRegexSpecial c = false ->
  N.eqb c BACKSLASH = false /\ N.eqb c BAR = false /\ N.eqb c RPAREN = false.
Proof.
  intros H. repeat split; apply N.eqb_neq; intros ->; discriminate H.
Qed.

Lemma readAlternatives_escape t : forall rest cur,
  readAlternatives (escapeRegex t ++ rest) cur
  = readAlternatives rest (cur ++ t).
Proof.
  induction t as [|c t IH]; intros rest cur.
  - now rewrite app_nil_r.
  - unfold escapeRegex in *. cbn [flat_map].
    replace (cur ++ c :: t) with ((cur ++ [c]) ++ t)
      by now rewrite <- app_assoc.
    rewrite <- IH, <- app_assoc.
    destruct (isRegexSpecial c) eqn:E.
    + cbn [app readAlternatives]. rewrite N.eqb_refl, E. reflexivity.
    + destruct (isRegexSpecial_plain c E) as (E1 & E2 & E3).
      cbn [app readAlternatives]. now rewrite E1, E2, E3, E.
Qed.

Lemma readAlternatives_join ts : forall t,
  readAlternatives (join [BAR] (map escapeRegex (t :: ts)) ++ [RPAREN]) []
  = Some (t :: ts).
Proof.
  induction ts as [|t' ts IH]; intros t.
  - cbn [map join]. rewrite readAlternatives_escape. reflexivity.
  - change (join [BAR] (map escapeRegex (t :: t' :: ts)))
      with (escapeRegex t ++ [BAR] ++ join [BAR] (map escapeRegex (t' :: ts))).
    rewrite <- !app_assoc, readAlternatives_escape.
    cbn [app]. cbn [readAlternatives].
    change (N.eqb BAR BACKSLASH) with false. rewrite N.eqb_refl.
    cbv iota. rewrite IH. reflexivity.
Qed.

Lemma regExp_source ts :
  ts <> [] -> regExp (patternSource (map escapeRegex ts)) = ts.
Proof.
  destruct ts as [|t ts]; [congruence|]. intros _.
  unfold regExp, patternSource, readPattern.
  change ([LPAREN] ++ join [BAR] (map escapeRegex (t :: ts)) ++ [RPAREN])
    with (LPAREN :: (join [BAR] (map escapeRegex (t :: ts)) ++ [RPAREN])).
  cbv iota. rewrite N.eqb_refl, readAlternatives_join. reflexivity.
Qed.

(** X21.  The pattern built from escaped terms reads back as those terms:
    a group whose alternatives are, in order, the terms taken literally,
    whatever units they hold.  So [escapeRegex] maps different terms to
    different patterns. *)
Theorem escaped_pattern_reads_back (terms : list jsstring) :
  terms <> [] ->
  readPattern (patternSource (map escapeRegex terms)) = Some terms
  /\ (forall a b, In a terms -> escapeRegex a = escapeRegex b -> a = b).
Proof.
  destruct terms as [|t ts]; [congruence|]. intros _. split.
  - unfold patternSource, readPattern.
    change ([LPAREN] ++ join [BAR] (map escapeRegex (t :: ts)) ++ [RPAREN])
      with (LPAREN :: (join [BAR] (map escapeRegex (t :: ts)) ++ [RPAREN])).
    cbv iota. rewrite N.eqb_refl. apply readAlternatives_join.
  - intros a b _ E.
    pose proof (readAlternatives_join [] a) as Ha.
    pose proof (readAlternatives_join [] b) as Hb.
    cbn [map join] in Ha, Hb. rewrite E in Ha. congruence.
Qed.




Lemma eqb_false_negb a w : Bool.eqb a w = false -> a = negb w.
Proof. now destruct a, w. Qed.

Lemma stepBack_spec text wanted : forall pos,
  let r := stepBack text wanted pos in
  (r <= pos)%nat
  /\ (forall i, (r <= i < pos)%nat -> spaceAt text i = wanted)
  /\ ((0 < r)%nat -> spaceAt text (r - 1) = negb wanted).
Proof.
  induction pos as [|p IH]; cbv zeta.
  - cbn. repeat split; intros; lia.
  - cbn [stepBack]. destruct (Bool.eqb (spaceAt text p) wanted) eqn:E.
    + destruct IH as (H1 & H2 & H3). repeat split.
      * lia.
      * intros i Hi. destruct (Nat.eq_dec i p) as [->|Hne];
          [now apply eqb_prop|apply H2; lia].
      * exact H3.
    + split; [lia|split; [intros; lia|]].
      intros _. replace (S p - 1)%nat with p by lia.
      now apply eqb_false_negb.
Qed.

Lemma stepForward_spec text wanted : forall fuel pos,
  (length text - pos <= fuel)%nat ->
  let r := stepForward text wanted fuel pos in
  (pos <= r)%nat
  /\ ((pos <= length text)%nat -> (r <= length text)%nat)
  /\ (forall i, (pos <= i < r)%nat -> spaceAt text i = wanted)
  /\ ((r < length text)%nat -> spaceAt text r = negb wanted).
Proof.
  induction fuel as [|fuel IH]; intros pos Hf; cbv zeta.
  - cbn. repeat split; intros; lia.
  - cbn [stepForward]. destruct (Nat.ltb_spec pos (length text)) as [Hlt|Hge].
    + cbn [andb]. destruct (Bool.eqb (spaceAt text pos) wanted) eqn:E.
      * destruct (IH (S pos) ltac:(lia)) as (H1 & H2 & H3 & H4).
        repeat split.
        -- lia.
        -- intros _. apply H2. lia.
        -- intros i Hi. destruct (Nat.eq_dec i pos) as [->|Hne];
             [now apply eqb_prop|apply H3; lia].
        -- exact H4.
      * split; [lia|split; [lia|split; [intros; lia|]]].
        intros _. now apply eqb_false_negb.
    + cbn [andb]. repeat split; intros; lia.
Qed.

(** X23.  [expandToWordBoundary] moves over one word and then over the
    white space next to it, and stops there.  Backward, the result is at
    most [pos], the units from it up to [pos] are a run of white space
    followed by a run without, and the unit before the result, if there is
    one, is no white space.  Forward, the same in the other direction; the
    result stays within the text, and the unit at the result, if there is
    one, is no white space. *)
Theorem expand_stops_at_boundary (text : jsstring) (pos : nat) :
  (let r := expandToWordBoundary text pos backward in
   (r <= pos)%nat
   /\ ((0 < r)%nat -> spaceAt text (r - 1) = false)
   /\ exists m, (r <= m <= pos)%nat
        /\ (forall i, (r <= i < m)%nat -> spaceAt text i = true)
        /\ (forall i, (m <= i < pos)%nat -> spaceAt text i = false)
        /\ ((0 < m)%nat -> spaceAt text (m - 1) = true))
  /\ (let r := expandToWordBoundary text pos forward in
      (pos <= r)%nat
      /\ ((pos <= length text)%nat -> (r <= length text)%nat)
      /\ ((r < length text)%nat -> spaceAt text r = false)
      /\ exists m, (pos <= m <= r)%nat
           /\ (forall i, (pos <= i < m)%nat -> spaceAt text i = false)
           /\ (forall i, (m <= i < r)%nat -> spaceAt text i = true)
           /\ ((m < length text)%nat -> spaceAt text m = true)).
Proof.
  cbv zeta. unfold expandToWordBoundary. split.
  - destruct (stepBack_spec text false pos) as (A1 & A2 & A3).
    cbv zeta in A1, A2, A3.
    destruct (stepBack_spec text true (stepBack text false pos))
      as (B1 & B2 & B3).
    cbv zeta in B1, B2, B3.
    split; [lia|]. split; [exact B3|].
    exists (stepBack text false pos). repeat split; try assumption; lia.
  - destruct (stepForward_spec text false (length text - pos) pos (le_n _))
      as (A1 & A2 & A3 & A4).
    cbv zeta in A1, A2, A3, A4.
    destruct (stepForward_spec text true
                (length text
                 - stepForward text false (length text - pos) pos)
                (stepForward text false (length text - pos) pos) (le_n _))
      as (B1 & B2 & B3 & B4).
    cbv zeta in B1, B2, B3, B4.
    split; [lia|]. split; [lia|]. split; [exact B4|].
    exists (stepForward text false (length text - pos) pos).
    repeat split; try assumption; lia.
Qed.

Lemma slice_part (A : Type) (l : list A) (startIndex endIndex : Z) :
  exists pre post, l = pre ++ slice l startIndex endIndex ++ post.
Proof.
  unfold slice.
  exists (firstn (Z.to_nat startIndex) l),
         (skipn (Z.to_nat (endIndex - startIndex))
                (skipn (Z.to_nat startIndex) l)).
  now rewrite !firstn_skipn.
Qed.

Lemma plain_segments (text : jsstring) :
  flat_map renderSegment (map Plain text) = text
  /\ flat_map segmentText (map Plain text) = text.
Proof.
  induction text as [|c text [IH1 IH2]]; [now split|].
  cbn. now rewrite IH1, IH2.
Qed.

Lemma validTerms_spec terms t :
  In t (validTerms terms) -> In t terms /\ trim t <> [].
Proof.
  unfold validTerms. rewrite filter_In. intros [Hin H]. split; [assumption|].
  apply andb_prop in H as [_ H]. apply Nat.ltb_lt in H.
  intros E. rewrite E in H. cbn in H. lia.
Qed.

Section HighlightFacts.
Variable canonicalize : N -> N.

Lemma matchLiteral_spec lit : forall s,
  matchLiteral canonicalize lit s = true ->
  (length lit <= length s)%nat
  /\ map canonicalize lit = map canonicalize (firstn (length lit) s).
Proof.
  induction lit as [|c lit IH]; intros s H; [split; [cbn; lia|reflexivity]|].
  destruct s as [|x s]; [discriminate H|].
  cbn [matchLiteral] in H. apply andb_prop in H as [Hc H].
  apply N.eqb_eq in Hc. destruct (IH s H) as [Hl Hm].
  split; [cbn; lia|]. cbn. now rewrite Hc, Hm.
Qed.

Lemma matchAlternatives_spec alts s n :
  matchAlternatives canonicalize alts s = Some n ->
  exists a, In a alts /\ length a = n
            /\ matchLiteral canonicalize a s = true.
Proof.
  induction alts as [|a alts IH]; [discriminate|].
  cbn [matchAlternatives]. destruct (matchLiteral canonicalize a s) eqn:E.
  - intros [= <-]. exists a. repeat split; [now left|assumption].
  - intros H. destruct (IH H) as (a' & Hin & Hl & Hm).
    exists a'. repeat split; [now right|assumption|assumption].
Qed.

(** What a marked segment is: the units of the text that matched, equal
    to an alternative once both are canonicalized. *)
Lemma replaceMatches_spec alts : forall fuel s,
  (length s < fuel)%nat ->
  flat_map segmentText (replaceMatches canonicalize alts fuel s) = s
  /\ Forall (fun sg =>
               match sg with
               | Plain _ => True
               | Marked m =>
                   exists a, In a alts
                             /\ map canonicalize a = map canonicalize m
               end)
            (replaceMatches canonicalize alts fuel s).
Proof.
  induction fuel as [|fuel IH]; intros s Hf; [lia|].
  cbn [replaceMatches].
  destruct (matchAlternatives canonicalize alts s) as [n|] eqn:E.
  - destruct (matchAlternatives_spec alts s n E) as (a & Hin & Hl & Hm).
    destruct (matchLiteral_spec a s Hm) as [Hle Hmap].
    destruct n as [|n].
    + assert (Hhead : exists a0, In a0 alts
                /\ map canonicalize a0 = map canonicalize []).
      { exists a. split; [assumption|].
        apply length_zero_iff_nil in Hl. now subst a. }
      destruct s as [|c s].
      * split; [reflexivity|]. constructor; [exact Hhead|constructor].
      * destruct (IH s ltac:(cbn in Hf; lia)) as [H1 H2].
        split; [cbn; now rewrite H1|].
        constructor; [exact Hhead|]. constructor; [exact I|exact H2].
    + destruct (IH (skipn (S n) s)) as [H1 H2].
      { rewrite length_skipn. lia. }
      split.
      * cbn [flat_map segmentText]. rewrite H1. apply firstn_skipn.
      * constructor; [|exact H2]. exists a. split; [assumption|].
        now rewrite Hmap, Hl.
  - destruct s as [|c s]; [split; [reflexivity|constructor]|].
    destruct (IH s ltac:(cbn in Hf; lia)) as [H1 H2].
    split; [cbn; now rewrite H1|]. constructor; [exact I|exact H2].
Qed.

Lemma pattern_of_valid terms :
  validTerms terms <> [] ->
  regExp (patternSource
            (map (fun t => escapeRegex (trim t)) (validTerms terms)))
  = map trim (validTerms terms).
Proof.
  intros Hne. rewrite <- (map_map trim escapeRegex).
  apply regExp_source. destruct (validTerms terms); [congruence|discriminate].
Qed.

(** X24.  [highlightText] only adds marks: its result is the text cut
    into pieces, some of them wrapped in a mark, and the pieces put
    together are the text.  Every marked piece is not empty and is, up to
    the case folding of the engine, one of the terms trimmed.  Without a
    term that is not blank the text comes back as it is. *)
Theorem highlight_marks_matches (text : jsstring) (terms : list jsstring) :
  (exists segments,
     highlightText canonicalize text terms
     = flat_map renderSegment segments
     /\ flat_map segmentText segments = text
     /\ Forall (fun sg =>
                  match sg with
                  | Plain _ => True
                  | Marked m =>
                      m <> []
                      /\ exists t, In t terms
                           /\ map canonicalize (trim t) = map canonicalize m
                  end) segments)
  /\ (validTerms terms = [] -> highlightText canonicalize text terms = text).
Proof.
  assert (Hplain : forall r, r = text ->
            exists segments,
              r = flat_map renderSegment segments
              /\ flat_map segmentText segments = text
              /\ Forall (fun sg =>
                   match sg with
                   | Plain _ => True
                   | Marked m =>
                       m <> []
                       /\ exists t, In t terms
                            /\ map canonicalize (trim t) = map canonicalize m
                   end) segments).
  { intros r ->. exists (map Plain text).
    destruct (plain_segments text) as [H1 H2].
    repeat split; [now rewrite H1|assumption|].
    apply Forall_forall. intros sg Hsg.
    apply in_map_iff in Hsg as (c & <- & _). exact I. }
  unfold highlightText. split.
  - destruct (negb (nonEmpty text) || (length terms =? 0)%nat);
      [now apply Hplain|].
    cbv zeta.
    destruct (length (validTerms terms) =? 0)%nat eqn:El;
      [now apply Hplain|].
    assert (Hne : validTerms terms <> []).
    { intros E. rewrite E in El. discriminate El. }
    rewrite (pattern_of_valid terms Hne).
    destruct (replaceMatches_spec (map trim (validTerms terms))
                (S (length text)) text ltac:(lia)) as [H1 H2].
    exists (replaceMatches canonicalize (map trim (validTerms terms))
              (S (length text)) text).
    repeat split; [assumption|].
    eapply Forall_impl; [|exact H2]. cbv beta. intros [c|m]; [trivial|].
    intros (a & Ha & Hmap).
    apply in_map_iff in Ha as (t & <- & Ht).
    apply validTerms_spec in Ht as [Hin Hnb]. split.
    + intros ->. destruct (trim t); [congruence|discriminate Hmap].
    + now exists t.
  - intros E.
    destruct (negb (nonEmpty text) || (length terms =? 0)%nat);
      [reflexivity|].
    cbv zeta. now rewrite E.
Qed.

Lemma execFrom_spec alts : forall s i j n,
  execFrom canonicalize alts i s = Some (j, n) ->
  (i <= j)%nat /\ (j - i + n <= length s)%nat.
Proof.
  induction s as [|c s IH]; intros i j n; cbn [execFrom];
    destruct (matchAlternatives canonicalize alts _) as [m|] eqn:E.
  - intros [= <- <-].
    destruct (matchAlternatives_spec alts [] m E) as (a & _ & Hl & Hm).
    destruct (matchLiteral_spec a [] Hm) as [Hle _]. cbn in *. lia.
  - discriminate.
  - intros [= <- <-].
    destruct (matchAlternatives_spec alts (c :: s) m E) as (a & _ & Hl & Hm).
    destruct (matchLiteral_spec a (c :: s) Hm) as [Hle _]. lia.
  - intros H. apply IH in H. cbn [length]. lia.
Qed.

Lemma fallback_part text charLimit :
  exists pre mid post lead trail,
    text = pre ++ mid ++ post
    /\ fallbackSnippet text charLimit = lead ++ mid ++ trail
    /\ (lead = [] \/ lead = ELLIPSIS) /\ (trail = [] \/ trail = ELLIPSIS).
Proof.
  unfold fallbackSnippet. destruct (length text <=? charLimit)%nat eqn:E.
  - exists [], text, [], [], []. rewrite !app_nil_r. cbn. tauto.
  - unfold truncateToWordBoundary. rewrite E. cbv zeta.
    set (e := Z.of_nat _).
    destruct (slice_part _ text 0 e) as (pre & post & Hs).
    destruct (trim_spec (slice text 0 e)) as (pre' & post' & Ht & _).
    exists (pre ++ pre'), (trim (slice text 0 e)), (post' ++ post), [], ELLIPSIS.
    repeat split; [|tauto|tauto].
    rewrite Hs at 1. rewrite Ht at 1. now rewrite <- !app_assoc.
Qed.

(** X25.  [extractSnippet] invents nothing: its result is a contiguous
    part of the text, with or without three full stops before it and after
    it.  A text of at most [charLimit] units comes back whole. *)
Theorem snippet_is_part_of_text
    (text : jsstring) (terms : list jsstring) (charLimit : nat) :
  let snippet := extractSnippet canonicalize text terms charLimit in
  ((length text <= charLimit)%nat -> snippet = text)
  /\ exists pre mid post lead trail,
       text = pre ++ mid ++ post
       /\ snippet = lead ++ mid ++ trail
       /\ (lead = [] \/ lead = ELLIPSIS) /\ (trail = [] \/ trail = ELLIPSIS).
Proof.
  cbv zeta. unfold extractSnippet. fold (fallbackSnippet text charLimit).
  destruct text as [|c0 text0] eqn:Etext.
  { cbn [nonEmpty negb]. split; [reflexivity|].
    exists [], [], [], [], []. cbn. tauto. }
  rewrite <- Etext. replace (nonEmpty text) with true by now rewrite Etext.
  cbn [negb]. clear Etext c0 text0.
  destruct (Nat.leb_spec (length text) charLimit) as [Hle|Hgt].
  { rewrite orb_true_r. split.
    - intros _. unfold fallbackSnippet.
      now rewrite (proj2 (Nat.leb_le _ _) Hle).
    - apply fallback_part. }
  split; [lia|]. rewrite orb_false_r.
  destruct (length terms =? 0)%nat; [apply fallback_part|].
  cbv zeta. destruct (length (validTerms terms) =? 0)%nat;
    [apply fallback_part|].
  destruct (exec canonicalize _ text) as [[index matchLength]|];
    [|apply fallback_part].
  match goal with
  | |- context [let (a, b) := ?p in _] => destruct p as [start endIndex]
  end.
  set (s := Z.of_nat (expandToWordBoundary text (Z.to_nat start) backward)).
  set (e := Z.of_nat (expandToWordBoundary text (Z.to_nat endIndex) forward)).
  destruct (slice_part _ text s e) as (pre & post & Hs).
  exists pre, (slice text s e), post,
         (if (0 <? s)%Z then ELLIPSIS else []),
         (if (e <? Z.of_nat (length text))%Z then ELLIPSIS else []).
  split; [exact Hs|]. split.
  - destruct (0 <? s)%Z, (e <? Z.of_nat (length text))%Z;
      cbn [app]; rewrite ?app_nil_r, <- ?app_assoc; reflexivity.
  - split; [destruct (0 <? s)%Z|destruct (e <? Z.of_nat (length text))%Z];
      tauto.
Qed.

Lemma execFrom_none : forall s i, execFrom canonicalize [] i s = None.
Proof. induction s as [|c s IH]; intros i; cbn; [reflexivity|apply IH]. Qed.

Lemma nonEmpty_length (s : jsstring) : nonEmpty s = (0 <? length s)%nat.
Proof. now destruct s. Qed.

Lemma snippet_of_window text (start endIndex : Z) (index n : nat) :
  (0 <= start <= Z.of_nat index)%Z ->
  (Z.of_nat index + Z.of_nat n <= endIndex <= Z.of_nat (length text))%Z ->
  exists pre mid post,
    text = pre ++ mid ++ post
    /\ (let s :=
          Z.of_nat (expandToWordBoundary text (Z.to_nat start) backward) in
        let e :=
          Z.of_nat (expandToWordBoundary text (Z.to_nat endIndex) forward) in
        let snippet := slice text s e in
        let snippet :=
          if (0 <? s)%Z then ELLIPSIS ++ snippet else snippet in
        let snippet :=
          if (e <? Z.of_nat (length text))%Z then snippet ++ ELLIPSIS
          else snippet in
        snippet)
       = (if nonEmpty pre then ELLIPSIS else []) ++ mid
         ++ (if nonEmpty post then ELLIPSIS else [])
    /\ (length pre <= index)%nat
    /\ (index + n <= length pre + length mid)%nat.
Proof.
  intros Hs He. cbv zeta. unfold expandToWordBoundary.
  destruct (stepBack_spec text false (Z.to_nat start)) as (A1 & _).
  destruct (stepBack_spec text true (stepBack text false (Z.to_nat start)))
    as (B1 & _).
  cbv zeta in A1, B1.
  set (s := stepBack text true (stepBack text false (Z.to_nat start))) in *.
  destruct (stepForward_spec text false (length text - Z.to_nat endIndex)
              (Z.to_nat endIndex) (le_n _)) as (C1 & C2 & _).
  cbv zeta in C1, C2.
  set (m := stepForward text false (length text - Z.to_nat endIndex)
              (Z.to_nat endIndex)) in *.
  destruct (stepForward_spec text true (length text - m) m (le_n _))
    as (D1 & D2 & _).
  cbv zeta in D1, D2.
  set (e := stepForward text true (length text - m) m) in *.
  assert (Hse : (s <= Z.to_nat start /\ Z.to_nat endIndex <= e
                 /\ e <= length text)%nat) by lia.
  clearbody s e. clear A1 B1 C1 C2 D1 D2 m.
  exists (firstn s text), (slice text (Z.of_nat s) (Z.of_nat e)), (skipn e text).
  unfold slice. rewrite Nat2Z.id.
  replace (Z.to_nat (Z.of_nat e - Z.of_nat s)) with (e - s)%nat by lia.
  split; [|split; [|split]].
  - rewrite <- (firstn_skipn s text) at 1. f_equal.
    rewrite <- (firstn_skipn (e - s) (skipn s text)) at 1. f_equal.
    rewrite skipn_skipn. f_equal. lia.
  - rewrite !nonEmpty_length, length_firstn, length_skipn.
    replace (0 <? Z.of_nat s)%Z with (0 <? Nat.min s (length text))%nat
      by (destruct (Nat.ltb_spec 0 (Nat.min s (length text)));
          destruct (Z.ltb_spec 0 (Z.of_nat s)); lia).
    replace (Z.of_nat e <? Z.of_nat (length text))%Z
      with (0 <? length text - e)%nat
      by (destruct (Nat.ltb_spec 0 (length text - e));
          destruct (Z.ltb_spec (Z.of_nat e) (Z.of_nat (length text))); lia).
    destruct (0 <? Nat.min s (length text))%nat,
             (0 <? length text - e)%nat;
      cbn [app]; rewrite ?app_nil_r, <- ?app_assoc; reflexivity.
  - rewrite length_firstn. lia.
  - rewrite !length_firstn, length_skipn. lia.
Qed.

(** X26.  When the text is longer than [charLimit] and the first match of
    a term is not, the snippet shows that match whole: it is the part of
    the text from a boundary at or before the match to a boundary at or
    after its end, with three full stops on each side where text was left
    out, and on no other side. *)
Theorem snippet_contains_match
    (text : jsstring) (terms : list jsstring) (charLimit index matchLength : nat) :
  exec canonicalize (map trim (validTerms terms)) text
  = Some (index, matchLength) ->
  (charLimit < length text)%nat ->
  (matchLength <= charLimit)%nat ->
  exists pre mid post,
    text = pre ++ mid ++ post
    /\ extractSnippet canonicalize text terms charLimit
       = (if nonEmpty pre then ELLIPSIS else []) ++ mid
         ++ (if nonEmpty post then ELLIPSIS else [])
    /\ (length pre <= index)%nat
    /\ (index + matchLength <= length pre + length mid)%nat.
Proof.
  intros Hexec Hlong Hfit.
  assert (Hvalid : validTerms terms <> []).
  { intros E. rewrite E in Hexec. unfold exec in Hexec. cbn [map] in Hexec.
    rewrite execFrom_none in Hexec. discriminate Hexec. }
  assert (Hterms : (length terms =? 0)%nat = false).
  { destruct terms; [now contradiction Hvalid|reflexivity]. }
  assert (Hin : (index + matchLength <= length text)%nat).
  { unfold exec in Hexec. apply execFrom_spec in Hexec. lia. }
  unfold extractSnippet.
  replace (nonEmpty text) with true by (destruct text; [cbn in Hlong; lia|reflexivity]).
  rewrite Hterms. replace (length text <=? charLimit)%nat with false
    by (symmetry; apply Nat.leb_gt; lia).
  cbn [negb orb]. cbv zeta.
  replace (length (validTerms terms) =? 0)%nat with false
    by (destruct (validTerms terms); [congruence|reflexivity]).
  rewrite (pattern_of_valid terms Hvalid), Hexec.
  pose proof (Z.div_mod (Z.of_nat charLimit - Z.of_nat matchLength) 2
                ltac:(lia)) as Ediv.
  pose proof (Z.mod_pos_bound (Z.of_nat charLimit - Z.of_nat matchLength) 2
                ltac:(lia)) as Emod.
  set (hw := ((Z.of_nat charLimit - Z.of_nat matchLength) / 2)%Z) in *.
  destruct (Z.eqb_spec (Z.max 0 (Z.of_nat index - hw)) 0) as [E0|E0].
  - apply snippet_of_window; lia.
  - destruct (Z.eqb_spec
                (Z.min (Z.of_nat (length text))
                       (Z.of_nat index + Z.of_nat matchLength + hw))
                (Z.of_nat (length text))) as [E1|E1];
      apply snippet_of_window; lia.
Qed.
End HighlightFacts.

(* ================================================================= *)
(** ** lib/api/analytics.ts *)

Lemma MAX_LOGS_pos : (1 <= MAX_LOGS)%nat.
Proof. unfold MAX_LOGS. lia. Qed.

Lemma logQuery_length entry logs :
  (length logs <= MAX_LOGS)%nat -> (length (logQuery entry logs) <= MAX_LOGS)%nat.
Proof.
  intros H. unfold logQuery. cbv zeta.
  destruct (Nat.ltb_spec MAX_LOGS (length (logs ++ [entry]))) as [Hlt|Hge];
    [|exact Hge].
  rewrite length_app in Hlt. cbn [length] in Hlt.
  destruct logs as [|x logs]; cbn [length app tl] in *; [lia|].
  rewrite length_app. cbn [length]. lia.
Qed.

Lemma logQuery_window entries : forall logs,
  (length logs <= MAX_LOGS)%nat ->
  fold_left (fun l e => logQuery e l) entries logs
  = skipn (length (logs ++ entries) - MAX_LOGS) (logs ++ entries).
Proof.
  induction entries as [|e entries IH]; intros logs H; cbn [fold_left].
  - rewrite app_nil_r. replace (length logs - MAX_LOGS)%nat with 0%nat by lia.
    reflexivity.
  - rewrite IH by now apply logQuery_length.
    unfold logQuery. cbv zeta.
    destruct (Nat.ltb_spec MAX_LOGS (length (logs ++ [e]))) as [Hlt|Hge].
    + rewrite length_app in Hlt. cbn [length] in Hlt.
      pose proof MAX_LOGS_pos as Hpos.
      destruct logs as [|x logs]; cbn [length] in H, Hlt; [lia|].
      cbn [app tl]. rewrite <- app_assoc. cbn [app].
      replace (length (logs ++ e :: entries) - MAX_LOGS)%nat
        with (length entries) by (rewrite length_app; cbn [length]; lia).
      replace (length (x :: logs ++ e :: entries) - MAX_LOGS)%nat
        with (S (length entries))
        by (cbn [length]; rewrite length_app; cbn [length]; lia).
      reflexivity.
    + now rewrite <- app_assoc.
Qed.

(** X27.  The query log is a window: after any number of [logQuery] calls
    the array holds the entries logged last, in the order of the calls,
    and never more than [MAX_LOGS] of them. *)
Theorem query_log_window (entries : list QueryLog) :
  let queryLogs := fold_left (fun l e => logQuery e l) entries [] in
  queryLogs = skipn (length entries - MAX_LOGS) entries
  /\ (length queryLogs <= MAX_LOGS)%nat
  /\ length queryLogs = Nat.min (length entries) MAX_LOGS.
Proof.
  cbv zeta. rewrite (logQuery_window entries [] (Nat.le_0_l _)). cbn [app].
  rewrite length_skipn. repeat split; lia.
Qed.

Lemma termCounts_flat logs : forall m,
  fold_left
    (fun termCounts log =>
       fold_left
         (fun termCounts term =>
            map_set str_eqb term
              (orDefault (map_get str_eqb term termCounts) 0 + 1) termCounts)
         (logTerms log) termCounts)
    logs m
  = fold_left
      (fun termFreqs token =>
         map_set str_eqb token
           (orDefault (map_get str_eqb token termFreqs) 0 + 1) termFreqs)
      (flat_map logTerms logs) m.
Proof.
  induction logs as [|log logs IH]; intros m; cbn [fold_left flat_map];
    [reflexivity|].
  now rewrite fold_left_app, IH.
Qed.

Lemma termCounts_countTokens logs :
  termCounts logs = countTokens (flat_map logTerms logs).
Proof. unfold termCounts, countTokens. apply termCounts_flat. Qed.

Lemma sorted_prefix (A : Type) (R : A -> A -> Prop) (l1 l2 : list A) :
  StronglySorted R (l1 ++ l2) -> StronglySorted R l1.
Proof.
  induction l1 as [|x l1 IH]; cbn [app]; intros H; [constructor|].
  inversion H as [|? ? Hs Hx]; subst. constructor; [now apply IH|].
  apply Forall_app in Hx. tauto.
Qed.

(** X28.  The top search terms of [getAnalytics] are at most ten, no term
    is listed twice, and they stand in the order of their counts, the
    highest first.  The count of a term is the number of times the term
    occurs among the words of the logged queries (lower-cased and split at
    white space), and it is at least one. *)
Theorem top_search_terms (queryLogs : list QueryLog) :
  let top := topSearchTerms queryLogs in
  (length top <= 10)%nat
  /\ NoDup (map fst top)
  /\ StronglySorted (fun a b => (snd b <= snd a)%nat) top
  /\ Forall (fun tc =>
               snd tc = occurrences (fst tc) (flat_map logTerms queryLogs)
               /\ (1 <= snd tc)%nat)
            top.
Proof.
  cbv zeta. unfold topSearchTerms, slice. cbn [Z.to_nat Z.sub Z.opp Z.add skipn].
  rewrite termCounts_countTokens.
  set (words := flat_map logTerms queryLogs).
  set (sorted := js_sort _ (countTokens words)).
  assert (Hperm : Permutation sorted (countTokens words))
    by apply js_sort_perm.
  assert (Hsorted : StronglySorted (fun a b => (snd b <= snd a)%nat) sorted).
  { apply js_sort_sorted_by.
    - intros x y z H1 H2. lia.
    - intros x y H. apply Z.ltb_ge in H. lia.
    - intros x y H. apply Z.ltb_lt in H. lia. }
  assert (Hnd : NoDup (map fst sorted)).
  { apply (Permutation_NoDup
             (Permutation_sym (Permutation_map fst Hperm))).
    apply countTokens_distinct. }
  assert (Hall : Forall (fun tc =>
                   snd tc = occurrences (fst tc) words /\ (1 <= snd tc)%nat)
                   sorted).
  { apply Forall_forall. intros [t c] Hin.
    apply (Permutation_in _ Hperm) in Hin.
    apply (In_map_get _ _ str_eqb str_eqb_eq) in Hin;
      [|apply countTokens_distinct].
    rewrite countTokens_get in Hin. cbn [fst snd].
    destruct (occurrences t words); [discriminate|].
    injection Hin as <-. split; [reflexivity|lia]. }
  clearbody sorted. clear Hperm.
  change (Pos.to_nat 10) with 10%nat.
  split; [|split; [|split]].
  - rewrite length_firstn. lia.
  - rewrite <- (firstn_skipn 10 sorted), map_app in Hnd.
    now apply NoDup_app_remove_r in Hnd.
  - rewrite <- (firstn_skipn 10 sorted) in Hsorted.
    now apply sorted_prefix in Hsorted.
  - rewrite <- (firstn_skipn 10 sorted) in Hall.
    now apply Forall_app in Hall.
Qed.

(* ================================================================= *)
(** ** components/Pagination.tsx *)

Lemma rangeFrom_In count : forall from n,
  In n (rangeFrom from count) <-> (from <= n < from + Z.of_nat count)%Z.
Proof.
  induction count as [|c IH]; intros from n; cbn [rangeFrom In].
  - lia.
  - rewrite IH. lia.
Qed.

Lemma rangeFrom_length count : forall from,
  length (rangeFrom from count) = count.
Proof.
  induction count as [|c IH]; intros from; cbn; [reflexivity|].
  now rewrite IH.
Qed.

Lemma gapsMarked_range count : forall from tail,
  gapsMarked (from + Z.of_nat count - 1) tail ->
  gapsMarked (from - 1) (map PageNumber (rangeFrom from count) ++ tail).
Proof.
  induction count as [|c IH]; intros from tail H.
  - cbn [rangeFrom map app]. now replace (from - 1)%Z
      with (from + Z.of_nat 0 - 1)%Z by lia.
  - cbn [rangeFrom map app gapsMarked]. split; [lia|].
    replace from with (from + 1 - 1)%Z at 1 by lia.
    apply IH. now replace (from + 1 + Z.of_nat c - 1)%Z
      with (from + Z.of_nat (S c) - 1)%Z by lia.
Qed.

(** X29.  For a page between 1 and [totalPages], the numbers the
    pagination control lists start at 1, end at [totalPages] and hide no
    gap: a number follows the one before directly, or after an ellipsis
    that stands for at least one page.  The current page and its
    neighbours are listed, every number is a page, and there are never
    more than seven entries. *)
Theorem page_numbers_well_formed (page totalPages : Z) :
  (1 <= page <= totalPages)%Z ->
  let entries := getPageNumbers page totalPages in
  (exists rest, entries = PageNumber 1 :: rest /\ gapsMarked 1 rest)
  /\ last entries PageEllipsis = PageNumber totalPages
  /\ (forall n, (1 <= n <= totalPages)%Z -> (page - 1 <= n <= page + 1)%Z ->
        In (PageNumber n) entries)
  /\ (forall n, In (PageNumber n) entries -> (1 <= n <= totalPages)%Z)
  /\ (length entries <= 7)%nat.
Proof.
  intros Hp. cbv zeta. unfold getPageNumbers. cbv zeta.
  destruct (Z.leb_spec totalPages (5 + 2)) as [Hsmall|Hlarge].
  - unfold range.
    replace (Z.to_nat (totalPages - 1 + 1)) with (S (Z.to_nat (totalPages - 1)))
      by lia.
    cbn [rangeFrom map]. split; [|split; [|split; [|split]]].
    + exists (map PageNumber (rangeFrom (1 + 1) (Z.to_nat (totalPages - 1)))).
      split; [reflexivity|].
      rewrite <- (app_nil_r (map _ _)).
      apply (gapsMarked_range _ 2 []). exact I.
    + destruct (Z.to_nat (totalPages - 1)) as [|k] eqn:Ek.
      * cbn. f_equal. lia.
      * replace (S k) with (k + 1)%nat by lia.
        assert (Hr : forall c from,
                  rangeFrom from (c + 1)
                  = rangeFrom from c ++ [(from + Z.of_nat c)%Z]).
        { induction c as [|c IH]; intros from; cbn [rangeFrom Nat.add app].
          - f_equal. lia.
          - rewrite IH. cbn [app]. do 2 f_equal. f_equal. lia. }
        rewrite Hr, map_app. cbn [map].
        change (PageNumber 1 :: ?l ++ [?x]) with ((PageNumber 1 :: l) ++ [x]).
        rewrite last_last. f_equal. lia.
    + intros n Hn _. destruct (Z.eq_dec n 1) as [->|Hne]; [now left|right].
      apply in_map, rangeFrom_In. lia.
    + intros n [[= <-]|Hin]; [lia|].
      apply in_map_iff in Hin as (k & [= <-] & Hk).
      apply rangeFrom_In in Hk. lia.
    + cbn [length]. rewrite length_map, rangeFrom_length. lia.
  - set (start := Z.max 2 (page - 1)).
    set (endPage := Z.min (totalPages - 1) (page + 1)).
    assert (Hse : (2 <= start <= endPage /\ endPage <= totalPages - 1
                   /\ endPage - start <= 2)%Z) by lia.
    unfold range.
    assert (Hc : Z.of_nat (Z.to_nat (endPage - start + 1))
                 = (endPage - start + 1)%Z) by lia.
    set (count := Z.to_nat (endPage - start + 1)) in *.
    assert (Hcount : (1 <= count <= 3)%nat) by lia.
    split; [|split; [|split; [|split]]].
    + eexists. split; [reflexivity|].
      assert (Htail : gapsMarked (start + Z.of_nat count - 1)
                        ((if (endPage <? totalPages - 1)%Z
                          then [PageEllipsis] else [])
                         ++ [PageNumber totalPages])).
      { destruct (Z.ltb_spec endPage (totalPages - 1)); cbn; lia. }
      apply (gapsMarked_range count start) in Htail.
      destruct (Z.ltb_spec 2 start) as [H2|H2].
      * cbn [app]. destruct count as [|c]; [lia|].
        cbn [rangeFrom map app] in *. cbn [gapsMarked].
        destruct Htail as [_ Htail]. split; [lia|exact Htail].
      * cbn [app]. replace 1%Z with (start - 1)%Z at 1 by lia. exact Htail.
    + rewrite !app_assoc. apply last_last.
    + intros n Hn Hnear.
      destruct (Z.eq_dec n 1) as [->|Hn1]; [now left|].
      destruct (Z.eq_dec n totalPages) as [->|HnT].
      * rewrite !app_assoc. apply in_or_app. right. now left.
      * cbn [app]. right. apply in_or_app. right. apply in_or_app. left.
        apply (in_map PageNumber), rangeFrom_In. lia.
    + intros n Hin. cbn [app] in Hin. destruct Hin as [[= <-]|Hin]; [lia|].
      apply in_app_or in Hin as [Hin|Hin].
      { destruct (2 <? start)%Z; [|contradiction].
        destruct Hin as [Hin|[]]. discriminate Hin. }
      apply in_app_or in Hin as [Hin|Hin].
      { apply in_map_iff in Hin as (k & [= <-] & Hk).
        apply rangeFrom_In in Hk. lia. }
      apply in_app_or in Hin as [Hin|Hin].
      { destruct (endPage <? totalPages - 1)%Z; [|contradiction].
        destruct Hin as [Hin|[]]. discriminate Hin. }
      destruct Hin as [[= <-]|[]]. lia.
    + rewrite !length_app, length_map, rangeFrom_length.
      destruct (2 <? start)%Z, (endPage <? totalPages - 1)%Z; cbn [length]; lia.
Qed.

(** ** The theorems at concrete inputs *)

Example search_berlin :
  map (fun r => (docId r, matchedTerms r))
      (arr_dense (fst (@search plainExternals (u "berlin")
                         (buildIndex [doc_jan; doc_mar]) None emptyCache)))
  = [(0%nat, [u "berlin"])].
Proof. vm_compute. reflexivity. Qed.

Example search_prefix :
  map (fun r => (docId r, matchedTerms r))
      (arr_dense (fst (@search plainExternals (u "por")
                         (buildIndex [doc_jan; doc_mar]) None emptyCache)))
  = [(1%nat, [u "portrait"]); (0%nat, [u "portrait"])].
Proof. vm_compute. reflexivity. Qed.

Lemma date_bounds_filter_witness :
  let h := mkHit doc_jan 0%float [] in
  let d := u "2024-02-01" in
  d <> []
  /\ (In h (applyFilters [h] None (Some d) None []) <->
      In h (applyFilters [h] None None None [])
      /\ (dateISO (h_item h) = [] \/ str_leb d (dateISO (h_item h)) = true))
  /\ (In h (applyFilters [h] None None (Some d) []) <->
      In h (applyFilters [h] None None None [])
      /\ (dateISO (h_item h) = [] \/ str_leb (dateISO (h_item h)) d = true)).
Proof.
  intros h d. split; [discriminate|].
  apply (date_bounds_filter [h] None None None [] h d). discriminate.
Defined.

Lemma stopword_query_pipeline_witness :
  tokenize (u "der") = []
  /\ @GET plainExternals (buildIndex [doc_jan; doc_mar]) (Some (u "der"))
       None None None [] None emptyCache
     = (applyFilters (browseHits (buildIndex [doc_jan; doc_mar]))
          None None None [], emptyCache).
Proof.
  split; [reflexivity|].
  exact (proj1 (@stopword_query_pipeline plainExternals
                  (buildIndex [doc_jan; doc_mar]) (u "der")
                  None None None [] None emptyCache eq_refl)).
Defined.

Lemma search_browse_mode_witness :
  tokenize (u "der die") = []
  /\ @search plainExternals (u "der die") (buildIndex [doc_jan; doc_mar])
       None emptyCache
     = (map Some (browseResults [doc_jan; doc_mar]), emptyCache)
  /\ length (browseResults [doc_jan; doc_mar]) = 2%nat.
Proof.
  split; [reflexivity|].
  exact (@search_browse_mode plainExternals [doc_jan; doc_mar] (u "der die")
           None emptyCache eq_refl).
Defined.

Lemma prefix_terms_witness :
  let ix := buildIndex [doc_jan; doc_mar] in
  (Z.of_nat (length (termsSorted F_suchtext ix)) < 2 ^ 31)%Z
  /\ getPrefixTerms (u "por") F_suchtext 50 ix = [u "portrait"].
Proof.
  intros ix. split; [reflexivity|].
  exact (proj1 (prefix_terms (addAll 0 [doc_jan; doc_mar] newInvertedIndex)
                  F_suchtext (u "por") 50 eq_refl)).
Defined.

Lemma matched_terms_witness :
  let ix := buildIndex [doc_jan; doc_mar] in
  match firstResult (u "por") with
  | Some r =>
      In (Some r) (fst (@search plainExternals (u "por") ix None emptyCache))
      /\ matchedTerms r = [u "portrait"]
      /\ NoDup (matchedTerms r)
      /\ (forall t, In t (matchedTerms r) -> exists f, In t (termsSorted f ix))
  | None => False
  end.
Proof.
  intros ix.
  destruct (firstResult (u "por")) as [r|] eqn:E;
    [|vm_compute in E; discriminate E].
  assert (Hin : In (Some r)
                  (fst (@search plainExternals (u "por") ix None emptyCache))).
  { unfold firstResult in E. fold ix in E.
    destruct (fst (@search plainExternals (u "por") ix None emptyCache))
      as [|[r'|] l]; try discriminate E.
    injection E as ->. now left. }
  split; [exact Hin|].
  split; [vm_compute in E; now injection E as <-|].
  pose proof (@matched_terms plainExternals
                (addAll 0 [doc_jan; doc_mar] newInvertedIndex)
                (u "por") None emptyCache r Hin) as (_ & Hnd & Hv & _).
  split; assumption.
Defined.

Lemma sorted_vocabulary_witness :
  let ix := buildIndex [doc_jan; doc_mar] in
  termsSorted F_suchtext ix = [u "berlin"; u "hamburg"; u "portrait"]
  /\ StronglySorted codePoint_lt (termsSorted F_suchtext ix).
Proof.
  intros ix. split; [reflexivity|].
  apply (sorted_vocabulary [(0%nat, doc_jan); (1%nat, doc_mar)] F_suchtext).
  repeat constructor.
Defined.

(* ================================================================= *)
(** ** The further properties at concrete inputs *)



Lemma extracted_markers_well_formed_witness :
  In (u "PUBLICATIONxINxGERxONLY")
     (ex_restrictions
        (extractRestrictions (u "Berlin PUBLICATIONxINxGERxONLY Portrait")))
  /\ isMarker (u "PUBLICATIONxINxGERxONLY") = true
  /\ u "PUBLICATIONxINxGERxONLY" <> NONE.
Proof.
  assert (H : In (u "PUBLICATIONxINxGERxONLY")
                (ex_restrictions
                   (extractRestrictions
                      (u "Berlin PUBLICATIONxINxGERxONLY Portrait"))))
    by (vm_compute; tauto).
  split; [exact H|].
  pose proof (extracted_markers_well_formed
                (u "Berlin PUBLICATIONxINxGERxONLY Portrait")
                (u "PUBLICATIONxINxGERxONLY") H) as (H1 & _ & _ & _ & _ & H6).
  split; assumption.
Defined.

Lemma parseDate_output_iso_witness :
  parseDate (u "14.3.2024") = Some (u "2024-03-14")
  /\ isIsoDate (u "2024-03-14") = true
  /\ parseDate (u "2024-03-14") = Some (u "2024-03-14").
Proof.
  assert (H : parseDate (u "14.3.2024") = Some (u "2024-03-14"))
    by (vm_compute; reflexivity).
  split; [exact H|].
  exact (parseDate_output_iso (u "14.3.2024") (u "2024-03-14") H).
Defined.


Lemma search_results_complete_witness :
  exists r,
    In (Some r)
       (fst (@search plainExternals (u "Berlin")
               (buildIndex [doc_jan; doc_mar]) None emptyCache))
    /\ docId r = 0%nat /\ item r = doc_jan
    /\ In (u "berlin") (matchedTerms r).
Proof.
  apply (@search_results_complete plainExternals
           (buildIndex [doc_jan; doc_mar]) (u "Berlin") None emptyCache
           (u "berlin") F_suchtext 0 doc_jan).
  - vm_compute. tauto.
  - exists [mkPosting 0 1], (mkPosting 0 1).
    split; [vm_compute; reflexivity|]. split; [now left|reflexivity].
  - reflexivity.
Defined.

Lemma escaped_pattern_reads_back_witness :
  readPattern (patternSource (map escapeRegex [u "a+b"; u "(c)"]))
  = Some [u "a+b"; u "(c)"].
Proof.
  apply (escaped_pattern_reads_back [u "a+b"; u "(c)"]). discriminate.
Defined.

Lemma snippet_contains_match_witness :
  exists pre mid post,
    u "aaa bbb Berlin ccc ddd" = pre ++ mid ++ post
    /\ extractSnippet asciiUpper (u "aaa bbb Berlin ccc ddd") [u "berlin"] 10
       = (if nonEmpty pre then ELLIPSIS else []) ++ mid
         ++ (if nonEmpty post then ELLIPSIS else [])
    /\ (length pre <= 8)%nat
    /\ (8 + 6 <= length pre + length mid)%nat.
Proof.
  apply (snippet_contains_match asciiUpper (u "aaa bbb Berlin ccc ddd")
           [u "berlin"] 10 8 6).
  - vm_compute. reflexivity.
  - vm_compute. lia.
  - lia.
Defined.

Lemma page_numbers_well_formed_witness :
  getPageNumbers 5 10
  = [PageNumber 1; PageEllipsis; PageNumber 4; PageNumber 5; PageNumber 6;
     PageEllipsis; PageNumber 10]
  /\ (length (getPageNumbers 5 10) <= 7)%nat.
Proof.
  split; [reflexivity|].
  apply (page_numbers_well_formed 5 10). lia.
Defined.
